(** * SM3 hash engine, Merkle tree and length-extension forger

    A shallow embedding of [src/sm3_basic.py], [src/sm3_optimized.py],
    [src/length_extension.py] and [src/merkle_tree.py].

    Python integers are unbounded, so they are modelled by [Z]; the bit
    operators [&], [|], [^], [~] coincide with [Z.land], [Z.lor],
    [Z.lxor] and [Z.lnot] (two's complement on negative numbers), and
    [//], [%] with [Z.div], [Z.modulo] (floor, sign of the divisor).
    [bytes] are lists of [byte], [str] is [string].  A Python exception
    is a value of [exn] carried by the error monad [result].

    The functions are modelled as their bodies are written; the import
    statements of the modules are not part of the model. *)

From Stdlib Require Import ZArith List String Ascii Bool Lia.
From Stdlib.Strings Require Import Byte.
Import ListNotations.
Local Open Scope Z_scope.

(** ** Exceptions and the error monad *)

(** The exception classes the code can raise.  The argument is the
    message; messages that the source writes in Chinese are glossed in
    English. *)
Inductive exn : Set :=
| ValueError (msg : string)
| IndexError (msg : string)
| StructError (msg : string)
| AttributeError (msg : string).

Inductive result (A : Type) : Type :=
| Ok (a : A)
| Raise (e : exn).
Arguments Ok {A} a.
Arguments Raise {A} e.

Definition bind {A B} (c : result A) (k : A -> result B) : result B :=
  match c with
  | Ok a => k a
  | Raise e => Raise e
  end.

Notation "x <- c ;; k" := (bind c (fun x => k))
  (at level 61, c at next level, right associativity).
Notation "' pat <- c ;; k" := (bind c (fun x => match x with pat => k end))
  (at level 61, pat pattern, c at next level, right associativity).

(** [for x in xs: s = f(s, x)], stopping at the first exception. *)
Fixpoint foldM {S X} (f : S -> X -> result S) (xs : list X) (s : S) : result S :=
  match xs with
  | [] => Ok s
  | x :: xs' => s' <- f s x ;; foldM f xs' s'
  end.

(** [[f(x) for x in xs]], stopping at the first exception. *)
Fixpoint mapM {X Y} (f : X -> result Y) (xs : list X) : result (list Y) :=
  match xs with
  | [] => Ok []
  | x :: xs' => y <- f x ;; ys <- mapM f xs' ;; Ok (y :: ys)
  end.

(** ** Python primitives *)

Definition bytes := list byte.

Definition len {A} (l : list A) : Z := Z.of_nat (List.length l).

Definition byte_val (b : byte) : Z := Z.of_N (Byte.to_N b).

(** The byte of an integer in [0, 256). *)
Definition byte_of_Z (z : Z) : byte :=
  match Byte.of_N (Z.to_N (z mod 256)) with
  | Some b => b
  | None => x00
  end.

Definition negative_shift : exn := ValueError "negative shift count".

(** [x << n] and [x >> n]: both raise [ValueError] on a negative count.
    The interpreter also fails on a left shift of a non-zero number by
    a count so large that the result cannot be stored ([OverflowError]
    or [MemoryError]); the model has no such limit.  The program
    shifts by counts from -31 to 63 only. *)
Definition py_lshift (x n : Z) : result Z :=
  if n <? 0 then Raise negative_shift else Ok (Z.shiftl x n).

Definition py_rshift (x n : Z) : result Z :=
  if n <? 0 then Raise negative_shift else Ok (Z.shiftr x n).

Definition index_out_of_range : exn := IndexError "list index out of range".

(** [l[i]]: a negative index counts from the end; outside the list
    [IndexError]. *)
Definition getitem {A} (l : list A) (i : Z) : result A :=
  let k := if i <? 0 then i + len l else i in
  if k <? 0 then Raise index_out_of_range
  else match nth_error l (Z.to_nat k) with
       | Some a => Ok a
       | None => Raise index_out_of_range
       end.

(** [l[i:]] and [l[i:j]] (step 1), with Python's clipping of the bounds. *)
Definition clip {A} (l : list A) (i : Z) : nat :=
  Z.to_nat (Z.min (len l) (if i <? 0 then Z.max 0 (i + len l) else i)).

Definition slice_from {A} (l : list A) (i : Z) : list A :=
  skipn (clip l i) l.

Definition slice {A} (l : list A) (i j : Z) : list A :=
  firstn (clip l j - clip l i) (skipn (clip l i) l).

(** [range(lo, hi)] and [range(lo, hi, step)] for a positive step. *)
Fixpoint range_from (lo : Z) (step : Z) (n : nat) : list Z :=
  match n with
  | O => []
  | S n' => lo :: range_from (lo + step) step n'
  end.

Definition range (lo hi : Z) : list Z := range_from lo 1 (Z.to_nat (hi - lo)).

Definition range_step (lo hi step : Z) : list Z :=
  range_from lo step (Z.to_nat ((hi - lo + step - 1) / step)).

(** [range(hi, lo, -1)]: hi, hi-1, ..., lo+1. *)
Definition range_down (hi lo : Z) : list Z := range_from hi (-1) (Z.to_nat (hi - lo)).

(** Little-endian bytes of [z], [n] of them. *)
Fixpoint le_bytes (n : nat) (z : Z) : bytes :=
  match n with
  | O => []
  | S n' => byte_of_Z z :: le_bytes n' (z / 256)
  end.

Fixpoint le_value (bs : bytes) : Z :=
  match bs with
  | [] => 0
  | b :: bs' => byte_val b + 256 * le_value bs'
  end.

(** [struct.pack('<Q', n)]: 8 bytes, [struct.error] outside [0, 2^64). *)
Definition struct_pack_Q (n : Z) : result bytes :=
  if (n <? 0) || (2 ^ 64 <=? n)
  then Raise (StructError "argument out of range")
  else Ok (le_bytes 8 n).

(** Consecutive chunks of [k] items, [n] of them. *)
Fixpoint chunks {A} (k : nat) (n : nat) (bs : list A) : list (list A) :=
  match n with
  | O => []
  | S n' => firstn k bs :: chunks k n' (skipn k bs)
  end.

(** [struct.unpack('<16I', B)]: sixteen little-endian 32-bit words;
    [struct.error] unless [B] is exactly 64 bytes. *)
Definition struct_unpack_16I (B : bytes) : result (list Z) :=
  if len B =? 64
  then Ok (map le_value (chunks 4 16 B))
  else Raise (StructError "unpack requires a buffer of 64 bytes").

(** ** [src/sm3_basic.py] *)

Definition IV : list Z :=
  [0x7380166F; 0x4914B2B9; 0x172442D7; 0xDA8A0600;
   0xA96F30BC; 0x163138AA; 0xE38DEE4D; 0xB0FB0E4E].

Definition T : list Z := repeat 0x79CC4519 16 ++ repeat 0x7A879D8A 48.

Definition mask32 : Z := 0xFFFFFFFF.

Definition rotate_left (x n : Z) : result Z :=
  hi <- py_lshift x n ;;
  lo <- py_rshift x (32 - n) ;;
  Ok (Z.lor (Z.land hi mask32) (Z.land lo mask32)).

Definition P0 (x : Z) : result Z :=
  a <- rotate_left x 9 ;;
  b <- rotate_left x 17 ;;
  Ok (Z.lxor (Z.lxor x a) b).

Definition P1 (x : Z) : result Z :=
  a <- rotate_left x 15 ;;
  b <- rotate_left x 23 ;;
  Ok (Z.lxor (Z.lxor x a) b).

Definition FF (x y z j : Z) : Z :=
  if (0 <=? j) && (j <=? 15)
  then Z.lxor (Z.lxor x y) z
  else Z.lor (Z.lor (Z.land x y) (Z.land x z)) (Z.land y z).

Definition GG (x y z j : Z) : Z :=
  if (0 <=? j) && (j <=? 15)
  then Z.lxor (Z.lxor x y) z
  else Z.lor (Z.land x y) (Z.land (Z.lnot x) z).

Definition padding (message : bytes) : result bytes :=
  let message_bit_length := len message * 8 in
  let message := message ++ [x80] in
  let padding_length := (448 - (len message * 8) mod 512) / 8 in
  let padding_length :=
    if padding_length <? 0 then padding_length + 64 else padding_length in
  let message := message ++ repeat x00 (Z.to_nat padding_length) in
  q <- struct_pack_Q message_bit_length ;;
  Ok (message ++ q).

(** One pass of the loop [for j in range(16, 68)]. *)
Definition extension_step (W : list Z) (j : Z) : result (list Z) :=
  w16 <- getitem W (j - 16) ;;
  w9 <- getitem W (j - 9) ;;
  w3 <- getitem W (j - 3) ;;
  r3 <- rotate_left w3 15 ;;
  p <- P1 (Z.lxor (Z.lxor w16 w9) r3) ;;
  w13 <- getitem W (j - 13) ;;
  r13 <- rotate_left w13 7 ;;
  w6 <- getitem W (j - 6) ;;
  let Wj := Z.lxor (Z.lxor p r13) w6 in
  Ok (W ++ [Z.land Wj mask32]).

(** One pass of the loop [for j in range(64)] that fills [W_prime]. *)
Definition prime_step (W W_prime : list Z) (j : Z) : result (list Z) :=
  a <- getitem W j ;;
  b <- getitem W (j + 4) ;;
  Ok (W_prime ++ [Z.land (Z.lxor a b) mask32]).

Definition message_extension (B : bytes) : result (list Z * list Z) :=
  W <- struct_unpack_16I B ;;
  W <- foldM extension_step (range 16 68) W ;;
  W_prime <- foldM (prime_step W) (range 0 64) [] ;;
  Ok (W, W_prime).

(** The eight working variables [A..H]. *)
Record regs : Type := Regs {
  rA : Z; rB : Z; rC : Z; rD : Z; rE : Z; rF : Z; rG : Z; rH : Z }.

(** [A, B, C, D, E, F, G, H = V]: [ValueError] unless [V] has eight items. *)
Definition unpack8 (V : list Z) : result regs :=
  match V with
  | [a; b; c; d; e; f; g; h] => Ok (Regs a b c d e f g h)
  | _ => Raise (ValueError "wrong number of values to unpack")
  end.

(** The line that computes [SS1] in round [j]. *)
Definition SS1_of (A E Tj j : Z) : result Z :=
  a12 <- rotate_left A 12 ;;
  t <- rotate_left Tj j ;;
  rotate_left (Z.land (a12 + E + t) mask32) 7.

(** The body of the loop [for j in range(64)]. *)
Definition round (W W_prime : list Z) (r : regs) (j : Z) : result regs :=
  let '(Regs A B C D E F G H) := r in
  Tj <- getitem T j ;;
  SS1 <- SS1_of A E Tj j ;;
  a12 <- rotate_left A 12 ;;
  let SS2 := Z.lxor SS1 a12 in
  wp <- getitem W_prime j ;;
  let TT1 := Z.land (FF A B C j + D + SS2 + wp) mask32 in
  w <- getitem W j ;;
  let TT2 := Z.land (GG E F G j + H + SS1 + w) mask32 in
  let D := C in
  C <- rotate_left B 9 ;;
  let B := A in
  let A := TT1 in
  let H := G in
  G <- rotate_left F 19 ;;
  let F := E in
  E <- P0 TT2 ;;
  Ok (Regs A B C D E F G H).

(** [new_V]: the registers xored word by word with the old state. *)
Definition feed_forward (r : regs) (V : list Z) : result (list Z) :=
  let '(Regs A B C D E F G H) := r in
  v0 <- getitem V 0 ;; v1 <- getitem V 1 ;;
  v2 <- getitem V 2 ;; v3 <- getitem V 3 ;;
  v4 <- getitem V 4 ;; v5 <- getitem V 5 ;;
  v6 <- getitem V 6 ;; v7 <- getitem V 7 ;;
  Ok [Z.land (Z.lxor A v0) mask32; Z.land (Z.lxor B v1) mask32;
      Z.land (Z.lxor C v2) mask32; Z.land (Z.lxor D v3) mask32;
      Z.land (Z.lxor E v4) mask32; Z.land (Z.lxor F v5) mask32;
      Z.land (Z.lxor G v6) mask32; Z.land (Z.lxor H v7) mask32].

Definition compression (V : list Z) (B : bytes) : result (list Z) :=
  '(W, W_prime) <- message_extension B ;;
  r <- unpack8 V ;;
  r <- foldM (round W W_prime) (range 0 64) r ;;
  feed_forward r V.

(** ** Hexadecimal text *)

Definition hex_alphabet : list ascii := list_ascii_of_string "0123456789abcdef".

Definition hex_char (d : Z) : ascii := nth (Z.to_nat d) hex_alphabet "0"%char.

(** Hexadecimal digits of a positive number, least significant first. *)
Fixpoint hex_le (fuel : nat) (x : Z) : list ascii :=
  match fuel with
  | O => []
  | S fuel' =>
      if x <=? 0 then [] else hex_char (x mod 16) :: hex_le fuel' (x / 16)
  end.

(** [format(x, 'x')] for [0 <= x]. *)
Definition hex (x : Z) : list ascii :=
  if x <=? 0 then ["0"%char] else rev (hex_le (S (Z.to_nat (Z.log2 x))) x).

Definition zfill (width : nat) (s : list ascii) : list ascii :=
  repeat "0"%char (width - List.length s) ++ s.

(** [f'{x:08x}']: lowercase hexadecimal, zero-filled to width 8 after
    the sign. *)
Definition fmt_08x (x : Z) : list ascii :=
  if x <? 0 then "-"%char :: zfill 7 (hex (- x)) else zfill 8 (hex x).

(** [''.join(f'{x:08x}' for x in V)] *)
Definition render (V : list Z) : string :=
  string_of_list_ascii (List.concat (map fmt_08x V)).

Definition sm3_hash (message : bytes) : result string :=
  padded_message <- padding message ;;
  let V := IV in
  V <- foldM (fun V i => compression V (slice padded_message i (i + 64)))
         (range_step 0 (len padded_message) 64) V ;;
  Ok (render V).

(** ** [src/sm3_optimized.py] *)

Definition _IV : list Z := IV.

Definition _T : list Z := repeat 0x79CC4519 16 ++ repeat 0x7A879D8A 48.

Definition _rotate_left (x n : Z) : result Z :=
  hi <- py_lshift x n ;;
  lo <- py_rshift x (32 - n) ;;
  Ok (Z.land (Z.lor hi lo) mask32).

Definition _P0 (x : Z) : result Z :=
  a <- _rotate_left x 9 ;;
  b <- _rotate_left x 17 ;;
  Ok (Z.lxor (Z.lxor x a) b).

Definition _P1 (x : Z) : result Z :=
  a <- _rotate_left x 15 ;;
  b <- _rotate_left x 23 ;;
  Ok (Z.lxor (Z.lxor x a) b).

Definition _FF1 (x y z : Z) : Z := Z.lxor (Z.lxor x y) z.
Definition _FF2 (x y z : Z) : Z :=
  Z.lor (Z.lor (Z.land x y) (Z.land x z)) (Z.land y z).
Definition _GG1 (x y z : Z) : Z := Z.lxor (Z.lxor x y) z.
Definition _GG2 (x y z : Z) : Z := Z.lor (Z.land x y) (Z.land (Z.lnot x) z).

Definition _padding (message : bytes) : result bytes :=
  let msg_len := len message in
  let pad_len := (55 - msg_len) mod 64 in
  q <- struct_pack_Q (msg_len * 8) ;;
  Ok (message ++ [x80] ++ repeat x00 (Z.to_nat pad_len) ++ q).

(** [l[i] = a]: [IndexError] outside the list. *)
Definition setitem {A} (l : list A) (i : Z) (a : A) : result (list A) :=
  let k := if i <? 0 then i + len l else i in
  if (k <? 0) || (len l <=? k)
  then Raise (IndexError "list assignment index out of range")
  else Ok (firstn (Z.to_nat k) l ++ a :: skipn (S (Z.to_nat k)) l).

Definition _extension_step (W : list Z) (j : Z) : result (list Z) :=
  w16 <- getitem W (j - 16) ;;
  w9 <- getitem W (j - 9) ;;
  let val := Z.lxor w16 w9 in
  w3 <- getitem W (j - 3) ;;
  r3 <- _rotate_left w3 15 ;;
  let val := Z.lxor val r3 in
  val <- _P1 val ;;
  w13 <- getitem W (j - 13) ;;
  r13 <- _rotate_left w13 7 ;;
  let val := Z.lxor val r13 in
  w6 <- getitem W (j - 6) ;;
  let val := Z.lxor val w6 in
  setitem W j (Z.land val mask32).

Definition _prime_step (W W_prime : list Z) (j : Z) : result (list Z) :=
  a <- getitem W j ;;
  b <- getitem W (j + 4) ;;
  setitem W_prime j (Z.lxor a b).

Definition _message_extension (B : bytes) : result (list Z * list Z) :=
  W <- struct_unpack_16I B ;;
  let W := W ++ repeat 0 52 in
  W <- foldM _extension_step (range 16 68) W ;;
  let W_prime := repeat 0 64 in
  W_prime <- foldM (_prime_step W) (range 0 64) W_prime ;;
  Ok (W, W_prime).

(** The loop state of [_compression]: the registers and the two
    rotations computed ahead, [rotate_B] and [rotate_F]. *)
Definition _round (W W_prime : list Z) (s : regs * Z * Z) (j : Z)
  : result (regs * Z * Z) :=
  let '(Regs A B_val C D E F G H, rotate_B, rotate_F) := s in
  Tj <- getitem _T j ;;
  let FF_func := if j <=? 15 then _FF1 else _FF2 in
  let GG_func := if j <=? 15 then _GG1 else _GG2 in
  a12 <- _rotate_left A 12 ;;
  t <- _rotate_left Tj j ;;
  SS1 <- _rotate_left (Z.land (a12 + E + t) mask32) 7 ;;
  a12 <- _rotate_left A 12 ;;
  let SS2 := Z.lxor SS1 a12 in
  wp <- getitem W_prime j ;;
  let TT1 := Z.land (FF_func A B_val C + D + SS2 + wp) mask32 in
  w <- getitem W j ;;
  let TT2 := Z.land (GG_func E F G + H + SS1 + w) mask32 in
  let '(D, C, B_val, A) := (C, rotate_B, A, TT1) in
  e <- _P0 TT2 ;;
  let '(H, G, F, E) := (G, rotate_F, E, e) in
  rotate_B <- _rotate_left B_val 9 ;;
  rotate_F <- _rotate_left F 19 ;;
  Ok (Regs A B_val C D E F G H, rotate_B, rotate_F).

Definition _compression (V : list Z) (B : bytes) : result (list Z) :=
  '(W, W_prime) <- _message_extension B ;;
  r <- unpack8 V ;;
  rotate_B <- _rotate_left (rB r) 9 ;;
  rotate_F <- _rotate_left (rF r) 19 ;;
  '(r, _, _) <- foldM (_round W W_prime) (range 0 64) (r, rotate_B, rotate_F) ;;
  feed_forward r V.

Definition sm3_hash_optimized (message : bytes) : result string :=
  padded_message <- _padding message ;;
  let V := _IV in
  V <- foldM (fun V i => _compression V (slice padded_message i (i + 64)))
         (range_step 0 (len padded_message) 64) V ;;
  Ok (render V).

(** ** [src/length_extension.py] *)

Definition chars (s : string) : list ascii := list_ascii_of_string s.

(** [s[i:j]] on text. *)
Definition str_slice (s : string) (i j : Z) : string :=
  string_of_list_ascii (slice (chars s) i j).

Definition char_code (c : ascii) : Z := Z.of_N (N_of_ascii c).

(** Value of a hexadecimal digit, either case. *)
Definition digit_value (c : ascii) : option Z :=
  let n := char_code c in
  if (48 <=? n) && (n <=? 57) then Some (n - 48)
  else if (97 <=? n) && (n <=? 102) then Some (n - 87)
  else if (65 <=? n) && (n <=? 70) then Some (n - 55)
  else None.

(** White space that [int] strips, among the code points below 256:
    the ASCII blanks, NEL and the no-break space. *)
Definition is_space (c : ascii) : bool :=
  let n := char_code c in
  ((9 <=? n) && (n <=? 13)) || (n =? 32) || (n =? 133) || (n =? 160).

Fixpoint lstrip (s : list ascii) : list ascii :=
  match s with
  | c :: s' => if is_space c then lstrip s' else s
  | [] => []
  end.

Definition strip (s : list ascii) : list ascii := rev (lstrip (rev (lstrip s))).

(** Digits with single underscores between them; [prev_us] tells that
    the character before was an underscore. *)
Fixpoint scan_digits (s : list ascii) (acc : Z) (prev_us : bool) : option Z :=
  match s with
  | [] => if prev_us then None else Some acc
  | c :: s' =>
      if Ascii.eqb c "_"
      then if prev_us then None else scan_digits s' acc true
      else match digit_value c with
           | Some d => scan_digits s' (16 * acc + d) false
           | None => None
           end
  end.

Definition invalid_literal : exn := ValueError "invalid literal for int() with base 16".

(** [int(s, 16)] on text of code points below 256: optional white
    space around, an optional sign, an optional [0x] prefix, then
    hexadecimal digits of either case, single underscores allowed
    between them. *)
Definition py_int16 (s : string) : result Z :=
  let cs := strip (chars s) in
  let neg := match cs with c :: _ => Ascii.eqb c "-" | [] => false end in
  let cs :=
    match cs with
    | c :: r => if Ascii.eqb c "+" || Ascii.eqb c "-" then r else cs
    | [] => cs
    end in
  let cs :=
    match cs with
    | z :: x :: r =>
        if Ascii.eqb z "0" && (Ascii.eqb x "x" || Ascii.eqb x "X")
        then match r with
             | u :: r' => if Ascii.eqb u "_" then r' else r
             | [] => r
             end
        else cs
    | _ => cs
    end in
  match cs with
  | [] => Raise invalid_literal
  | c :: _ =>
      if Ascii.eqb c "_" then Raise invalid_literal
      else match scan_digits cs 0 false with
           | Some v => Ok (if neg : bool then - v else v)
           | None => Raise invalid_literal
           end
  end.

Definition parse_hash (hash_hex : string) : result (list Z) :=
  if negb (len (chars hash_hex) =? 64)
  then Raise (ValueError "invalid SM3 hash, length must be 64 characters")
  else foldM (fun V i =>
                x <- py_int16 (str_slice hash_hex (i * 8) ((i + 1) * 8)) ;;
                Ok (V ++ [x]))
         (range 0 8) [].

(** [sm3_length_extension_attack].  The placeholder
    [b'X' * original_length] has that many bytes, none for a negative
    length.  The interpreter fails for lack of memory on a length that
    no byte string can have; the model has no such limit, so it stands
    for calls with the length of a message that exists. *)
Definition sm3_length_extension_attack
  (original_hash : string) (original_length : Z) (append_data : bytes)
  : result (string * bytes) :=
  V <- parse_hash original_hash ;;
  let original_padded_length := original_length + 1 in
  let pad_zero_length := (55 - original_length) mod 64 in
  let original_padded_length := original_padded_length + pad_zero_length + 8 in
  let placeholder := repeat "X"%byte (Z.to_nat original_length) in
  padded <- _padding placeholder ;;
  let extended_message :=
    placeholder ++ slice_from padded original_length ++ append_data in
  append_padded <- _padding append_data ;;
  let current_V := V in
  current_V <- foldM (fun V i => _compression V (slice append_padded i (i + 64)))
                 (range_step 0 (len append_padded) 64) current_V ;;
  let extended_hash := render current_V in
  Ok (extended_hash, extended_message).

(** ** [src/merkle_tree.py] *)

Definition RFC6962_EMPTY_ROOT : string :=
  "e3b0c44298fc1c149afbf4c8996fb92427ae41e4649b934ca495991b7852b855".
Definition RFC6962_LEAF_PREFIX : bytes := [x00].
Definition RFC6962_NODE_PREFIX : bytes := [x01].

(** White space that [bytes.fromhex] skips between bytes. *)
Definition is_ascii_space (c : ascii) : bool :=
  let n := char_code c in ((9 <=? n) && (n <=? 13)) || (n =? 32).

Definition non_hex : exn :=
  ValueError "non-hexadecimal number found in fromhex() arg".

(** [bytes.fromhex(s)]: pairs of hexadecimal digits of either case,
    white space allowed between the pairs. *)
Fixpoint fromhex_chars (fuel : nat) (s : list ascii) : result bytes :=
  match fuel with
  | O => Ok []
  | S fuel' =>
      match s with
      | [] => Ok []
      | c :: s' =>
          if is_ascii_space c then fromhex_chars fuel' s'
          else match digit_value c, s' with
               | Some top, c' :: s'' =>
                   match digit_value c' with
                   | Some bot =>
                       rest <- fromhex_chars fuel' s'' ;;
                       Ok (byte_of_Z (16 * top + bot) :: rest)
                   | None => Raise non_hex
                   end
               | _, _ => Raise non_hex
               end
      end
  end.

Definition fromhex (s : string) : result bytes :=
  fromhex_chars (S (List.length (chars s))) (chars s).

(** [math.ceil(math.log2(n))].  The float [log2] is taken as exact,
    which it is as long as it falls on the same side of the integers as
    the real logarithm: for every [n] up to about [2^47], far more
    leaves than a list can hold. *)
Definition ceil_log2 (n : Z) : result Z :=
  if n <=? 0 then Raise (ValueError "math domain error") else Ok (Z.log2_up n).

(** An instance of the class [MerkleTree].  The constructor leaves
    [height] and [size] unset on its early return; reading an unset
    attribute raises [AttributeError]. *)
Record MerkleTree : Type := {
  leaf_hashes : list string;
  leaf_count : Z;
  root : string;
  tree : list (list string);
  height : option Z;
  size : option Z }.

Definition attr {A} (name : string) (o : option A) : result A :=
  match o with
  | Some a => Ok a
  | None => Raise (AttributeError name)
  end.

(** Text that [bytes.fromhex] accepts. *)
Definition hex_text (s : string) : Prop := exists bs, fromhex s = Ok bs.

Module Merkle.
Section WithEngine.

(** The hash engine the module imports, [sm3_hash_optimized]. *)
Variable engine : bytes -> result string.

Definition hash_leaf (data : bytes) : result string :=
  engine (RFC6962_LEAF_PREFIX ++ data).

Definition hash_nodes (left right : string) : result string :=
  left_bytes <- fromhex left ;;
  right_bytes <- fromhex right ;;
  engine (RFC6962_NODE_PREFIX ++ left_bytes ++ right_bytes).

(** The inner loop of the constructor: one level from the level below. *)
Definition build_level (current_level : list string) : result (list string) :=
  foldM (fun next_level i =>
           left <- getitem current_level i ;;
           right <- (if i + 1 <? len current_level
                     then getitem current_level (i + 1) else Ok left) ;;
           parent <- hash_nodes left right ;;
           Ok (next_level ++ [parent]))
    (range_step 0 (len current_level) 2) [].

(** [MerkleTree.__init__] *)
Definition init (leaves : list bytes) : result MerkleTree :=
  leaf_hashes <- mapM hash_leaf leaves ;;
  let leaf_count := len leaves in
  if leaf_count =? 0 then
    Ok {| leaf_hashes := leaf_hashes; leaf_count := leaf_count;
          root := RFC6962_EMPTY_ROOT; tree := [];
          height := None; size := None |}
  else
    height <- ceil_log2 leaf_count ;;
    let size := 2 ^ height in
    leaf_hashes <-
      (if leaf_count <? size
       then empty_hash <- hash_leaf [] ;;
            Ok (leaf_hashes ++ repeat empty_hash (Z.to_nat (size - leaf_count)))
       else Ok leaf_hashes) ;;
    '(tree, _) <-
      foldM (fun '(tree, current_level) _ =>
               next_level <- build_level current_level ;;
               Ok (tree ++ [next_level], next_level))
        (range 0 height) ([leaf_hashes], leaf_hashes) ;;
    top <- getitem tree (-1) ;;
    root <- getitem top 0 ;;
    Ok {| leaf_hashes := leaf_hashes; leaf_count := leaf_count;
          root := root; tree := tree;
          height := Some height; size := Some size |}.

Definition get_root (self : MerkleTree) : string := root self.

Definition get_proof (self : MerkleTree) (index : Z)
  : result (list string * list bool) :=
  if (index <? 0) || (leaf_count self <=? index)
  then Raise (IndexError "leaf index out of range")
  else
    h <- attr "height" (height self) ;;
    '(_, proof, is_right) <-
      foldM (fun '(adjusted_index, proof, is_right) level =>
               let '(sibling_index, is_right_flag) :=
                 if adjusted_index mod 2 =? 0
                 then (adjusted_index + 1, true)
                 else (adjusted_index - 1, false) in
               nodes <- getitem (tree self) level ;;
               sibling <- getitem nodes sibling_index ;;
               Ok (adjusted_index / 2, proof ++ [sibling],
                   is_right ++ [is_right_flag]))
        (range 0 h) (index, [], []) ;;
    Ok (proof, is_right).

Definition verify_proof (leaf_data : bytes) (proof : list string)
  (is_right : list bool) (root : string) : result bool :=
  current_hash <- hash_leaf leaf_data ;;
  current_hash <-
    foldM (fun current_hash i =>
             flag <- getitem is_right i ;;
             p <- getitem proof i ;;
             if flag : bool
             then hash_nodes current_hash p
             else hash_nodes p current_hash)
      (range 0 (len proof)) current_hash ;;
  Ok (String.eqb current_hash root).

Definition get_non_existence_proof (self : MerkleTree) (index : Z)
  : result (option Z * list string * list bool
            * option Z * list string * list bool) :=
  out_of_range <-
    (if index <? 0 then Ok true
     else sz <- attr "size" (size self) ;; Ok (sz <=? index)) ;;
  if out_of_range : bool
  then Raise (IndexError "index out of range")
  else if index <? leaf_count self
  then Raise (ValueError "a leaf exists at this index")
  else
    '(left_neighbor, left_proof, left_is_right) <-
      match find (fun i => i <? leaf_count self) (range_down (index - 1) (-1)) with
      | Some i => '(p, f) <- get_proof self i ;; Ok (Some i, p, f)
      | None => Ok (None, [], [])
      end ;;
    '(right_neighbor, right_proof, right_is_right) <-
      match find (fun i => i <? leaf_count self) (range (index + 1) (leaf_count self)) with
      | Some i => '(p, f) <- get_proof self i ;; Ok (Some i, p, f)
      | None => Ok (None, [], [])
      end ;;
    match left_neighbor, right_neighbor with
    | None, None => Raise (ValueError "no reference node")
    | _, _ => Ok (left_neighbor, left_proof, left_is_right,
                  right_neighbor, right_proof, right_is_right)
    end.

Definition leaf_data_to_index (self : MerkleTree) (leaf_data : bytes) : result Z :=
  target_hash <- hash_leaf leaf_data ;;
  match find (fun '(i, leaf_hash) =>
                String.eqb leaf_hash target_hash && (i <? leaf_count self))
          (combine (range 0 (len (leaf_hashes self))) (leaf_hashes self)) with
  | Some (i, _) => Ok i
  | None => Raise (ValueError "leaf data is not in the tree")
  end.

Definition verify_non_existence (self : MerkleTree) (index : Z)
  (left_data : option bytes) (left_proof : list string) (left_is_right : list bool)
  (right_data : option bytes) (right_proof : list string) (right_is_right : list bool)
  : result bool :=
  left_ok <-
    match left_data with
    | Some d => verify_proof d left_proof left_is_right (root self)
    | None => Ok true
    end ;;
  if negb left_ok then Ok false else
  right_ok <-
    match right_data with
    | Some d => verify_proof d right_proof right_is_right (root self)
    | None => Ok true
    end ;;
  if negb right_ok then Ok false else
  match left_data, right_data with
  | Some l, Some r =>
      left_index <- leaf_data_to_index self l ;;
      right_index <- leaf_data_to_index self r ;;
      if negb ((left_index <? index) && (index <? right_index))
      then Ok false else Ok true
  | _, _ => Ok true
  end.

(** The loop of [verify_proof], by recursion on the proof. *)
Fixpoint climb (proof : list string) (is_right : list bool) (current_hash : string)
  : result string :=
  match proof, is_right with
  | [], _ => Ok current_hash
  | _ :: _, [] => Raise index_out_of_range
  | p :: ps, flag :: fs =>
      h <- (if flag then hash_nodes current_hash p
            else hash_nodes p current_hash) ;;
      climb ps fs h
  end.

(** The inner loop of the constructor, by recursion on the level: the
    nodes are hashed two by two, a last node without partner with
    itself. *)
Fixpoint pair_up (level : list string) : result (list string) :=
  match level with
  | [] => Ok []
  | [l] => parent <- hash_nodes l l ;; Ok [parent]
  | l :: r :: rest =>
      parent <- hash_nodes l r ;;
      parents <- pair_up rest ;;
      Ok (parent :: parents)
  end.

(** The loop of [get_proof], by recursion on the levels it visits. *)
Fixpoint path (levels : list (list string)) (adjusted_index : Z)
  : result (list string * list bool) :=
  match levels with
  | [] => Ok ([], [])
  | nodes :: levels' =>
      let '(sibling_index, is_right_flag) :=
        if adjusted_index mod 2 =? 0
        then (adjusted_index + 1, true)
        else (adjusted_index - 1, false) in
      sibling <- getitem nodes sibling_index ;;
      '(proof, is_right) <- path levels' (adjusted_index / 2) ;;
      Ok (sibling :: proof, is_right_flag :: is_right)
  end.

(** The levels above [nodes], each obtained from the one below. *)
Fixpoint chain (nodes : list string) (uppers : list (list string)) : Prop :=
  match uppers with
  | [] => True
  | next :: rest => pair_up nodes = Ok next /\ chain next rest
  end.

End WithEngine.
End Merkle.

(** ** Definitions used to state the properties *)

Definition b (s : string) : bytes := list_byte_of_string s.

(** A 32-bit word. *)
Definition word (x : Z) : Prop := 0 <= x < 2 ^ 32.

Definition pack_overflow : exn := StructError "argument out of range".

(** Rotation of a 32-bit word to the left by [n] places, [0 <= n < 32],
    as arithmetic: the bits shifted out at the top come back at the
    bottom. *)
Definition spec_rotl (x n : Z) : Z := (x * 2 ^ n) mod 2 ^ 32 + x / 2 ^ (32 - n).

Definition spec_T (j : Z) : Z := if j <? 16 then 0x79CC4519 else 0x7A879D8A.

(** [SS1] as the specification writes it, with [T[j]] rotated by
    [j mod 32]. *)
Definition spec_SS1 (A E j : Z) : Z :=
  spec_rotl ((spec_rotl A 12 + E + spec_rotl (spec_T j) (j mod 32)) mod 2 ^ 32) 7.

(** A character of a rendered digest: a decimal digit or a lowercase
    letter from a to f. *)
Definition lower_hex (c : ascii) : bool :=
  let n := char_code c in
  ((48 <=? n) && (n <=? 57)) || ((97 <=? n) && (n <=? 102)).

(** A well-formed digest: 64 lowercase hexadecimal characters. *)
Definition well_formed_digest (d : string) : Prop :=
  List.length (chars d) = 64%nat /\ Forall (fun c => lower_hex c = true) (chars d).

Definition dv (c : ascii) : Z :=
  match digit_value c with Some d => d | None => 0 end.

(** Value of a digit string, most significant digit first. *)
Definition hex_value (cs : list ascii) : Z :=
  fold_left (fun acc c => 16 * acc + dv c) cs 0.

(** Value of a digit string, least significant digit first. *)
Fixpoint value_le (cs : list ascii) : Z :=
  match cs with
  | [] => 0
  | c :: cs' => dv c + 16 * value_le cs'
  end.

(** The property of the length-extension claim as a computation, as
    [verify_length_extension] and the tests run it: hash the prefix,
    forge from the digest and the length alone, hash the prefix
    followed by the forged message beyond the prefix, compare. *)
Definition extension_check (prefix suffix : bytes) : result bool :=
  h <- sm3_hash_optimized prefix ;;
  '(h2, synth) <- sm3_length_extension_attack h (len prefix) suffix ;;
  real <- sm3_hash_optimized (prefix ++ slice_from synth (len prefix)) ;;
  Ok (String.eqb real h2).

(** An engine that returns a digest, in hexadecimal text, for every
    message. *)
Definition engine_returns_digests (engine : bytes -> result string) : Prop :=
  forall m, exists d, engine m = Ok d /\ hex_text d.

(** A stand-in engine for exercising the tree module on its own: a
    polynomial checksum of the message, rendered like a digest. *)
Definition checksum (m : bytes) : Z :=
  fold_right (fun x acc => (byte_val x + 31 * acc) mod 2 ^ 32) 7 m.

Definition toy_engine (m : bytes) : result string :=
  Ok (render [checksum m; 0; 0; 0; 0; 0; 0; 0]).

Definition toy_leaves : list bytes := [b "a"; b "b"; b "c"].

(** The tree of a constructor call that returned. *)
Definition built (r : result MerkleTree) : MerkleTree :=
  match r with
  | Ok t => t
  | Raise _ =>
      {| leaf_hashes := []; leaf_count := 0; root := ""; tree := [];
         height := None; size := None |}
  end.

(** The tree the constructor builds from [toy_leaves] over the stand-in
    engine, and the tree it builds from no leaves. *)
Definition toy_tree : MerkleTree := built (Merkle.init toy_engine toy_leaves).

Definition empty_tree : MerkleTree := built (Merkle.init sm3_hash_optimized []).

Definition toy_proof : list string :=
  ["000000d900000000000000000000000000000000000000000000000000000000";
   "00567bb900000000000000000000000000000000000000000000000000000000"]%string.

Definition toy_root : string :=
  "928fc1c400000000000000000000000000000000000000000000000000000000".

(** A proof entry with one letter in upper case. *)
Definition toy_proof_upper : list string :=
  ["000000D900000000000000000000000000000000000000000000000000000000";
   "00567bb900000000000000000000000000000000000000000000000000000000"]%string.

Definition unwrap (r : result bytes) : bytes :=
  match r with Ok p => p | Raise _ => [] end.

(** ** Definitions used to state further properties *)

(** All eight working variables are 32-bit words. *)
Definition regs_words (r : regs) : Prop :=
  word (rA r) /\ word (rB r) /\ word (rC r) /\ word (rD r)
  /\ word (rE r) /\ word (rF r) /\ word (rG r) /\ word (rH r).

(** Value of a byte string, most significant byte first. *)
Definition be_value (bs : bytes) : Z :=
  fold_left (fun acc x => 256 * acc + byte_val x) bs 0.

(** Value of a state, first word most significant. *)
Definition state_value (V : list Z) : Z :=
  fold_left (fun acc w => 2 ^ 32 * acc + w) V 0.

(** A hexadecimal digit of either case. *)
Definition is_hex (c : ascii) : bool :=
  match digit_value c with Some _ => true | None => false end.

(** The lowercase spelling of a hexadecimal digit. *)
Definition lower_of (c : ascii) : ascii := hex_char (dv c).

(** The position of the sibling of position [a] in its level. *)
Definition sibling_of (a : Z) : Z := if a mod 2 =? 0 then a + 1 else a - 1.

(** The value a computation returns, or [d] when it raises. *)
Definition value_or {A} (d : A) (r : result A) : A :=
  match r with Ok a => a | Raise _ => d end.

(** Entry [j] of the expanded list [W] obeys the recurrence of the
    expansion loop, with the final mask dropped. *)
Definition expansion_at (W : list Z) (j : Z) : Prop :=
  exists w16 w9 w3 w13 w6 r3 r13 p,
    getitem W (j - 16) = Ok w16 /\ getitem W (j - 9) = Ok w9
    /\ getitem W (j - 3) = Ok w3 /\ getitem W (j - 13) = Ok w13
    /\ getitem W (j - 6) = Ok w6
    /\ rotate_left w3 15 = Ok r3 /\ rotate_left w13 7 = Ok r13
    /\ P1 (Z.lxor (Z.lxor w16 w9) r3) = Ok p
    /\ getitem W j = Ok (Z.lxor (Z.lxor p r13) w6).

(** Entry [j] of [W_prime] is [W[j] ^ W[j + 4]]. *)
Definition prime_at (W W_prime : list Z) (j : Z) : Prop :=
  exists a c,
    getitem W j = Ok a /\ getitem W (j + 4) = Ok c
    /\ getitem W_prime j = Ok (Z.lxor a c).

(** The comparison that the tests of the two engines make,
    [assertEqual(sm3_hash(msg), sm3_hash_optimized(msg))]: both
    digests are computed, then compared. *)
Definition engines_agree_check (m : bytes) : result bool :=
  basic <- sm3_hash m ;;
  optimized <- sm3_hash_optimized m ;;
  Ok (String.eqb basic optimized).

(** The eight working variables as a list. *)
Definition regs_list (r : regs) : list Z :=
  [rA r; rB r; rC r; rD r; rE r; rF r; rG r; rH r].

(** Bitwise majority and bitwise choice. *)
Definition majb (x y z : bool) : bool := (x && y) || (x && z) || (y && z).
Definition chooseb (x y z : bool) : bool := if x then y else z.

(** ** Tactics *)

Ltac raise_case := cbn [bind]; reflexivity.

Ltac bind_inv H :=
  match type of H with
  | bind ?c _ = Ok _ =>
      let a := fresh "a" in
      let E := fresh "E" in
      destruct c as [a|] eqn:E; [cbn [bind] in H | discriminate H]
  end.

(** * Properties *)

(** ** The error monad and the loops *)

Lemma bind_Ok {A B} (a : A) (k : A -> result B) : bind (Ok a) k = k a.
Proof. reflexivity. Qed.

Lemma Ok_inj {A} (a a' : A) : Ok a = Ok a' -> a = a'.
Proof. congruence. Qed.

Lemma foldM_app {S X} (f : S -> X -> result S) xs ys s :
  foldM f (xs ++ ys) s = (s' <- foldM f xs s ;; foldM f ys s').
Proof.
  revert s; induction xs as [|x xs IH]; intros s; simpl; [reflexivity|].
  destruct (f s x); simpl; auto.
Qed.

Lemma foldM_ext {S X} (f g : S -> X -> result S) xs s :
  (forall s x, In x xs -> f s x = g s x) -> foldM f xs s = foldM g xs s.
Proof.
  revert s; induction xs as [|x xs IH]; intros s H; simpl; [reflexivity|].
  rewrite (H s x (or_introl eq_refl)).
  destruct (g s x); simpl; auto.
  apply IH; intros; apply H; now right.
Qed.

Lemma range_from_app lo step n m :
  range_from lo step (n + m) =
  range_from lo step n ++ range_from (lo + Z.of_nat n * step) step m.
Proof.
  revert lo; induction n as [|n IH]; intros lo.
  - simpl. f_equal. lia.
  - cbn [Nat.add range_from app]. rewrite IH. do 3 f_equal. lia.
Qed.

Lemma range_from_length lo step n : List.length (range_from lo step n) = n.
Proof. revert lo; induction n; intros; simpl; auto. Qed.

Lemma in_range_from lo n j : In j (range_from lo 1 n) <-> lo <= j < lo + Z.of_nat n.
Proof.
  revert lo; induction n as [|n IH]; intros lo.
  - simpl; lia.
  - cbn [range_from In]. rewrite IH. lia.
Qed.

(** A counted loop whose body keeps an invariant runs to its end. *)
Lemma foldM_range_ok {St} (f : St -> Z -> result St) (P : Z -> St -> Prop) n :
  forall lo s,
    P lo s ->
    (forall j s, lo <= j < lo + Z.of_nat n -> P j s ->
                 exists s', f s j = Ok s' /\ P (j + 1) s') ->
    exists s', foldM f (range_from lo 1 n) s = Ok s' /\ P (lo + Z.of_nat n) s'.
Proof.
  induction n as [|n IH]; intros lo s HP Hstep.
  - exists s. split; [reflexivity|]. now replace (lo + Z.of_nat 0) with lo by lia.
  - destruct (Hstep lo s ltac:(lia) HP) as (s1 & E1 & HP1).
    destruct (IH (lo + 1) s1 HP1) as (s2 & E2 & HP2).
    + intros j s' Hj. apply Hstep. lia.
    + exists s2. cbn [range_from foldM]. rewrite E1, bind_Ok. split; [exact E2|].
      now replace (lo + Z.of_nat (S n)) with (lo + 1 + Z.of_nat n) by lia.
Qed.

(** ** List access *)

Lemma len_app {A} (l1 l2 : list A) : len (l1 ++ l2) = len l1 + len l2.
Proof. unfold len. rewrite length_app. lia. Qed.

Lemma len_nonneg {A} (l : list A) : 0 <= len l.
Proof. unfold len. lia. Qed.

Lemma getitem_nth {A} (l : list A) i :
  0 <= i < len l -> exists a, getitem l i = Ok a /\ nth_error l (Z.to_nat i) = Some a.
Proof.
  intros Hi. unfold getitem.
  destruct (i <? 0) eqn:E; [apply Z.ltb_lt in E; lia|]. rewrite E.
  destruct (nth_error l (Z.to_nat i)) as [a|] eqn:N; [eauto|].
  apply nth_error_None in N. unfold len in Hi. lia.
Qed.

Lemma getitem_app_l {A} (l r : list A) i :
  0 <= i < len l -> getitem (l ++ r) i = getitem l i.
Proof.
  intros Hi. unfold getitem.
  destruct (i <? 0) eqn:E; [apply Z.ltb_lt in E; lia|]. rewrite E.
  rewrite nth_error_app1; [reflexivity|]. unfold len in Hi. lia.
Qed.

(** ** Rotation *)

(** Within [0, 32] the rotation returns; the two shifts are those of
    the source. *)
Lemma rotate_left_Ok x n :
  0 <= n <= 32 ->
  rotate_left x n =
  Ok (Z.lor (Z.land (Z.shiftl x n) mask32) (Z.land (Z.shiftr x (32 - n)) mask32)).
Proof.
  intros Hn. unfold rotate_left, py_lshift, py_rshift.
  destruct (n <? 0) eqn:E1; [apply Z.ltb_lt in E1; lia|].
  destruct (32 - n <? 0) eqn:E2; [apply Z.ltb_lt in E2; lia|].
  reflexivity.
Qed.

(** Beyond 32 the right shift gets a negative count. *)
Lemma rotate_left_Raise x n : 32 < n -> rotate_left x n = Raise negative_shift.
Proof.
  intros Hn. unfold rotate_left, py_lshift, py_rshift.
  destruct (n <? 0) eqn:E1; [apply Z.ltb_lt in E1; lia|].
  destruct (32 - n <? 0) eqn:E2; [reflexivity|apply Z.ltb_ge in E2; lia].
Qed.

Lemma rotate_left_same x n : rotate_left x n = _rotate_left x n.
Proof.
  unfold rotate_left, _rotate_left.
  destruct (py_lshift x n) as [hi|]; [|reflexivity].
  destruct (py_rshift x (32 - n)) as [lo|]; [|reflexivity].
  cbn [bind]. now rewrite Z.land_lor_distr_l.
Qed.

Lemma rotate_left_total x n : 0 <= n <= 32 -> exists y, rotate_left x n = Ok y.
Proof. intros. rewrite rotate_left_Ok by assumption. eauto. Qed.

Lemma P0_same x : P0 x = _P0 x.
Proof. unfold P0, _P0. now rewrite !rotate_left_same. Qed.

Lemma P1_same x : P1 x = _P1 x.
Proof. unfold P1, _P1. now rewrite !rotate_left_same. Qed.

Lemma P0_total x : exists y, P0 x = Ok y.
Proof. unfold P0. rewrite !rotate_left_Ok by lia. cbn [bind]. eauto. Qed.

Lemma P1_total x : exists y, P1 x = Ok y.
Proof. unfold P1. rewrite !rotate_left_Ok by lia. cbn [bind]. eauto. Qed.

(** ** Words *)

Lemma mask32_ones : mask32 = Z.ones 32.
Proof. reflexivity. Qed.

Lemma land_mask32 x : Z.land x mask32 = x mod 2 ^ 32.
Proof. rewrite mask32_ones. apply Z.land_ones. lia. Qed.

Lemma land_mask32_word x : word (Z.land x mask32).
Proof. rewrite land_mask32. apply Z.mod_pos_bound. lia. Qed.

Lemma land_mask32_id x : word x -> Z.land x mask32 = x.
Proof. intros H. rewrite land_mask32. apply Z.mod_small. exact H. Qed.

Lemma word_testbit_high x n : word x -> 32 <= n -> Z.testbit x n = false.
Proof.
  intros Hx Hn. rewrite <- (Z.mod_small x (2 ^ 32)) by exact Hx.
  apply Z.mod_pow2_bits_high. lia.
Qed.

Lemma lxor_word a c : word a -> word c -> word (Z.lxor a c).
Proof.
  intros Ha Hc.
  assert (E : Z.land (Z.lxor a c) mask32 = Z.lxor a c).
  { rewrite mask32_ones. apply Z.bits_inj'. intros n Hn.
    rewrite Z.land_spec, Z.lxor_spec.
    destruct (Z.ltb_spec n 32).
    - rewrite Z.ones_spec_low by lia. apply andb_true_r.
    - rewrite (word_testbit_high a), (word_testbit_high c) by (assumption || lia).
      reflexivity. }
  rewrite <- E. apply land_mask32_word.
Qed.

Lemma getitem_Forall {A} (P : A -> Prop) l i a :
  Forall P l -> getitem l i = Ok a -> P a.
Proof.
  intros HF. unfold getitem.
  destruct ((if i <? 0 then i + len l else i) <? 0); [discriminate|].
  destruct (nth_error l _) as [x|] eqn:N; [|discriminate].
  intros [= <-]. rewrite Forall_forall in HF. eapply HF, nth_error_In, N.
Qed.

Lemma byte_val_bound c : 0 <= byte_val c < 256.
Proof.
  unfold byte_val. pose proof (Byte.to_N_bounded c). lia.
Qed.

Lemma le_value_bound bs : 0 <= le_value bs < 256 ^ len bs.
Proof.
  induction bs as [|c bs IH].
  - cbn. lia.
  - cbn [le_value]. pose proof (byte_val_bound c).
    replace (len (c :: bs)) with (Z.succ (len bs)) by (unfold len; cbn [List.length]; lia).
    rewrite Z.pow_succ_r by apply len_nonneg. lia.
Qed.

Lemma chunks_length {A} k n (bs : list A) : List.length (chunks k n bs) = n.
Proof. revert bs; induction n; intros; cbn [chunks List.length]; auto. Qed.

Lemma chunks_Forall {A} k n (bs : list A) :
  Forall (fun c => (List.length c <= k)%nat) (chunks k n bs).
Proof.
  revert bs; induction n; intros; cbn [chunks]; constructor; auto.
  rewrite length_firstn. lia.
Qed.

Lemma unpack_words B W : struct_unpack_16I B = Ok W -> len W = 16 /\ Forall word W.
Proof.
  unfold struct_unpack_16I. destruct (len B =? 64); [|discriminate].
  intros H%Ok_inj. subst W. split.
  - unfold len. rewrite length_map. change 16 with (Z.of_nat 16). f_equal.
  - apply Forall_map. eapply Forall_impl; [|apply chunks_Forall].
    intros c Hc. cbv beta in Hc. pose proof (le_value_bound c) as Hb.
    assert (256 ^ len c <= 256 ^ 4).
    { apply Z.pow_le_mono_r; unfold len; lia. }
    unfold word. change (2 ^ 32) with (256 ^ 4). lia.
Qed.

Lemma unpack_total B : len B = 64 -> exists W, struct_unpack_16I B = Ok W.
Proof.
  intros H. unfold struct_unpack_16I. rewrite H. cbn. eauto.
Qed.

(** ** Message expansion: appending against writing into a preallocated list *)

Lemma setitem_app {A} (l r : list A) x a :
  setitem (l ++ x :: r) (len l) a = Ok (l ++ a :: r).
Proof.
  unfold setitem. pose proof (len_nonneg l) as Hl.
  assert (E1 : (len l <? 0) = false) by (apply Z.ltb_ge; lia).
  assert (E2 : (len (l ++ x :: r) <=? len l) = false).
  { apply Z.leb_gt. unfold len. rewrite length_app. cbn [List.length]. lia. }
  rewrite E1. cbv iota. rewrite E1, E2. cbn [orb]. f_equal.
  unfold len. rewrite Nat2Z.id.
  rewrite firstn_app, firstn_all, Nat.sub_diag. cbn [firstn]. rewrite app_nil_r.
  f_equal.
  replace (S (List.length l)) with (1 + List.length l)%nat by lia.
  rewrite <- skipn_skipn, skipn_app, skipn_all, Nat.sub_diag. reflexivity.
Qed.

Lemma extension_step_inv W j W' :
  extension_step W j = Ok W' -> exists v, W' = W ++ [v] /\ word v.
Proof.
  unfold extension_step.
  destruct (getitem W (j - 16)); [|discriminate].
  destruct (getitem W (j - 9)); [|discriminate].
  destruct (getitem W (j - 3)); [|discriminate]. cbn [bind].
  destruct (rotate_left _ 15); [|discriminate]. cbn [bind].
  destruct (P1 _); [|discriminate]. cbn [bind].
  destruct (getitem W (j - 13)); [|discriminate]. cbn [bind].
  destruct (rotate_left _ 7); [|discriminate]. cbn [bind].
  destruct (getitem W (j - 6)); [|discriminate]. cbn [bind].
  intros H%Ok_inj. subst W'. eexists. split; [reflexivity|apply land_mask32_word].
Qed.

Lemma extension_step_sim W j rest :
  len W = j -> 16 <= j ->
  _extension_step (W ++ 0 :: rest) j = (W' <- extension_step W j ;; Ok (W' ++ rest)).
Proof.
  intros Hlen Hj. unfold _extension_step, extension_step.
  rewrite !getitem_app_l by lia.
  destruct (getitem_nth W (j - 16)) as (w16 & -> & _); [lia|].
  destruct (getitem_nth W (j - 9)) as (w9 & -> & _); [lia|].
  destruct (getitem_nth W (j - 3)) as (w3 & -> & _); [lia|].
  destruct (getitem_nth W (j - 13)) as (w13 & -> & _); [lia|].
  destruct (getitem_nth W (j - 6)) as (w6 & -> & _); [lia|].
  cbn [bind]. rewrite <- rotate_left_same.
  destruct (rotate_left w3 15) as [r3|]; [|reflexivity]. cbn [bind].
  rewrite <- P1_same.
  destruct (P1 _) as [p|]; [|reflexivity]. cbn [bind].
  rewrite <- rotate_left_same.
  destruct (rotate_left w13 7) as [r13|]; [|reflexivity]. cbn [bind].
  subst j. rewrite setitem_app, <- app_assoc. reflexivity.
Qed.

Lemma extension_loop_sim n : forall lo W rest,
  len W = lo -> 16 <= lo ->
  foldM _extension_step (range_from lo 1 n) (W ++ repeat 0 n ++ rest) =
  (W' <- foldM extension_step (range_from lo 1 n) W ;; Ok (W' ++ rest)).
Proof.
  induction n as [|n IH]; intros lo W rest Hlen Hlo; [reflexivity|].
  cbn [range_from foldM repeat app].
  rewrite extension_step_sim by assumption.
  destruct (extension_step W lo) as [W1|] eqn:E; [|reflexivity]. cbn [bind].
  destruct (extension_step_inv _ _ _ E) as (v & -> & _).
  apply IH; [|lia]. rewrite len_app. unfold len at 2. cbn. lia.
Qed.

Lemma extension_loop_words js : forall W W',
  Forall word W -> foldM extension_step js W = Ok W' -> Forall word W'.
Proof.
  induction js as [|j js IH]; intros W W' HW; cbn [foldM].
  - now intros <-%Ok_inj.
  - destruct (extension_step W j) as [W1|] eqn:E; [|discriminate]. cbn [bind].
    destruct (extension_step_inv _ _ _ E) as (v & -> & Hv).
    apply IH. apply Forall_app; split; [assumption|]. now constructor.
Qed.

Lemma prime_step_inv W acc j acc' :
  prime_step W acc j = Ok acc' -> exists v, acc' = acc ++ [v].
Proof.
  unfold prime_step.
  destruct (getitem W j); [|discriminate].
  destruct (getitem W (j + 4)); [|discriminate]. cbn [bind].
  intros H%Ok_inj. subst. eauto.
Qed.

Lemma prime_step_sim W acc j rest :
  Forall word W -> len acc = j ->
  _prime_step W (acc ++ 0 :: rest) j = (acc' <- prime_step W acc j ;; Ok (acc' ++ rest)).
Proof.
  intros HW Hlen. unfold _prime_step, prime_step.
  destruct (getitem W j) as [a|] eqn:Ea; [|reflexivity].
  destruct (getitem W (j + 4)) as [c|] eqn:Ec; [|reflexivity]. cbn [bind].
  rewrite land_mask32_id
    by (apply lxor_word; eapply getitem_Forall; eassumption).
  subst j. rewrite setitem_app, <- app_assoc. reflexivity.
Qed.

Lemma prime_loop_sim W n : forall lo acc rest,
  Forall word W -> len acc = lo ->
  foldM (_prime_step W) (range_from lo 1 n) (acc ++ repeat 0 n ++ rest) =
  (acc' <- foldM (prime_step W) (range_from lo 1 n) acc ;; Ok (acc' ++ rest)).
Proof.
  induction n as [|n IH]; intros lo acc rest HW Hlen; [reflexivity|].
  cbn [range_from foldM repeat app].
  rewrite prime_step_sim by assumption.
  destruct (prime_step W acc lo) as [acc1|] eqn:E; [|reflexivity]. cbn [bind].
  destruct (prime_step_inv _ _ _ _ E) as (v & ->).
  apply IH; [assumption|]. rewrite len_app. unfold len at 2. cbn. lia.
Qed.

Lemma message_extension_same B : message_extension B = _message_extension B.
Proof.
  unfold message_extension, _message_extension.
  destruct (struct_unpack_16I B) as [W0|] eqn:E0; [|cbn [bind]; reflexivity]. cbn [bind].
  destruct (unpack_words _ _ E0) as (Hlen & Hwords).
  change (range 16 68) with (range_from 16 1 52).
  change (range 0 64) with (range_from 0 1 64).
  rewrite <- (app_nil_r (repeat 0 52)).
  rewrite (extension_loop_sim 52 16 W0 []) by (assumption || lia).
  destruct (foldM extension_step _ W0) as [W|] eqn:E1; [|cbn [bind]; reflexivity]. cbn [bind].
  rewrite app_nil_r.
  pose proof (extension_loop_words _ _ _ Hwords E1) as HW.
  pose proof (prime_loop_sim W 64 0 [] [] HW eq_refl) as Hp.
  rewrite app_nil_r in Hp. cbn [app] in Hp. rewrite Hp.
  destruct (foldM (prime_step W) _ []) as [W'|]; [|cbn [bind]; reflexivity]. cbn [bind].
  now rewrite app_nil_r.
Qed.

(** ** Compression: the two round loops *)

Lemma FF_select x y z j :
  0 <= j -> FF x y z j = (if j <=? 15 then _FF1 else _FF2) x y z.
Proof.
  intros Hj. unfold FF. replace (0 <=? j) with true by (symmetry; apply Z.leb_le; lia).
  cbn [andb]. now destruct (j <=? 15).
Qed.

Lemma GG_select x y z j :
  0 <= j -> GG x y z j = (if j <=? 15 then _GG1 else _GG2) x y z.
Proof.
  intros Hj. unfold GG. replace (0 <=? j) with true by (symmetry; apply Z.leb_le; lia).
  cbn [andb]. now destruct (j <=? 15).
Qed.

(** One round of [_compression] is one round of [compression] followed
    by the two rotations it computes ahead. *)
Lemma round_sim W W' r rb rf j :
  0 <= j ->
  rotate_left (rB r) 9 = Ok rb -> rotate_left (rF r) 19 = Ok rf ->
  _round W W' (r, rb, rf) j =
  (r' <- round W W' r j ;;
   rb' <- rotate_left (rB r') 9 ;;
   rf' <- rotate_left (rF r') 19 ;;
   Ok (r', rb', rf')).
Proof.
  intros Hj Hrb Hrf. destruct r as [A B C D E F G H]. cbn [rB rF] in Hrb, Hrf.
  unfold _round, round, SS1_of. change (getitem _T j) with (getitem T j).
  destruct (getitem T j) as [Tj|]; [|raise_case]. cbn [bind].
  rewrite <- rotate_left_same.
  destruct (rotate_left A 12) as [a12|]; [|raise_case]. cbn [bind].
  rewrite <- rotate_left_same.
  destruct (rotate_left Tj j) as [t|]; [|raise_case]. cbn [bind].
  rewrite <- rotate_left_same.
  destruct (rotate_left _ 7) as [SS1|]; [|raise_case]. cbn [bind].
  destruct (getitem W' j) as [wp|]; [|raise_case]. cbn [bind].
  destruct (getitem W j) as [w|]; [|raise_case]. cbn [bind].
  rewrite Hrb, Hrf. cbn [bind].
  rewrite <- P0_same, <- FF_select, <- GG_select by assumption.
  destruct (P0 _) as [e|]; [|raise_case]. cbn [bind rB rF].
  now rewrite <- !rotate_left_same.
Qed.

Lemma round_loop_sim W W' js : forall r rb rf,
  Forall (fun j => 0 <= j) js ->
  rotate_left (rB r) 9 = Ok rb -> rotate_left (rF r) 19 = Ok rf ->
  ('(r', _, _) <- foldM (_round W W') js (r, rb, rf) ;; Ok r') =
  foldM (round W W') js r.
Proof.
  induction js as [|j js IH]; intros r rb rf Hjs Hrb Hrf; [reflexivity|].
  inversion Hjs as [|? ? Hj Hjs']; subst. cbn [foldM].
  rewrite round_sim by assumption.
  destruct (round W W' r j) as [r1|]; [|raise_case]. cbn [bind].
  destruct (rotate_left_total (rB r1) 9) as [rb1 Eb]; [lia|].
  destruct (rotate_left_total (rF r1) 19) as [rf1 Ef]; [lia|].
  rewrite Eb, Ef. cbn [bind]. now apply IH.
Qed.

Lemma range_from_nonneg n : forall lo, 0 <= lo -> Forall (fun j => 0 <= j) (range_from lo 1 n).
Proof.
  induction n as [|n IH]; intros lo Hlo; cbn [range_from]; constructor; auto.
  apply IH. lia.
Qed.

Lemma compression_same V B : compression V B = _compression V B.
Proof.
  unfold compression, _compression.
  pose proof (message_extension_same B) as Hme. rewrite <- Hme. clear Hme.
  destruct (message_extension B) as [[W W']|]; [|raise_case]. cbn [bind].
  destruct (unpack8 V) as [r|]; [|raise_case]. cbn [bind].
  rewrite <- !rotate_left_same.
  destruct (rotate_left_total (rB r) 9) as [rb Eb]; [lia|].
  destruct (rotate_left_total (rF r) 19) as [rf Ef]; [lia|].
  rewrite Eb, Ef. cbn [bind].
  rewrite <- (round_loop_sim W W' (range 0 64) r rb rf)
    by (assumption || apply range_from_nonneg; lia).
  destruct (foldM (_round W W') _ _) as [[[r' ?] ?]|]; raise_case.
Qed.

Lemma padding_same m : padding m = _padding m.
Proof.
  unfold padding, _padding.
  destruct (struct_pack_Q (len m * 8)) as [q|]; [|raise_case]. cbn [bind].
  rewrite <- !app_assoc. do 3 f_equal. f_equal.
  rewrite len_app. change (len [x80]) with 1. pose proof (len_nonneg m).
  set (n := len m) in *. clearbody n. do 2 f_equal.
  destruct ((448 - (n + 1) * 8 mod 512) / 8 <? 0) eqn:E;
    [apply Z.ltb_lt in E | apply Z.ltb_ge in E];
    Z.div_mod_to_equations; lia.
Qed.

Lemma sm3_hash_same m : sm3_hash m = sm3_hash_optimized m.
Proof.
  unfold sm3_hash, sm3_hash_optimized. rewrite padding_same.
  destruct (_padding m) as [p|]; [|raise_case]. cbn [bind].
  erewrite foldM_ext; [reflexivity|].
  intros; apply compression_same.
Qed.

(** ** Where the round loop stops *)

Lemma T_length : len T = 64.
Proof. reflexivity. Qed.

Lemma unpack8_total V : List.length V = 8%nat -> exists r, unpack8 V = Ok r.
Proof.
  intros H. do 8 (destruct V as [|? V]; [discriminate|]).
  destruct V; [|discriminate]. cbn. eauto.
Qed.

Lemma SS1_of_Raise A E Tj j : 32 < j -> SS1_of A E Tj j = Raise negative_shift.
Proof.
  intros Hj. unfold SS1_of.
  rewrite (rotate_left_Ok A 12) by lia. cbn [bind].
  now rewrite rotate_left_Raise by assumption.
Qed.

Lemma round_Raise W W' r j :
  32 < j < 64 -> round W W' r j = Raise negative_shift.
Proof.
  intros Hj. destruct r as [A B C D E F G H]. unfold round.
  destruct (getitem_nth T j) as (Tj & -> & _); [rewrite T_length; lia|].
  cbn [bind]. now rewrite SS1_of_Raise by lia.
Qed.

Lemma round_total W W' r j :
  len W = 68 -> len W' = 64 -> 0 <= j <= 32 -> exists r', round W W' r j = Ok r'.
Proof.
  intros HW HW' Hj. destruct r as [A B C D E F G H]. unfold round, SS1_of.
  destruct (getitem_nth T j) as (Tj & -> & _); [rewrite T_length; lia|].
  cbn [bind]. rewrite (rotate_left_Ok A 12) by lia. cbn [bind].
  rewrite (rotate_left_Ok Tj j) by lia. cbn [bind].
  rewrite (rotate_left_Ok _ 7) by lia. cbn [bind].
  destruct (getitem_nth W' j) as (wp & -> & _); [lia|].
  destruct (getitem_nth W j) as (w & -> & _); [lia|].
  cbn [bind]. rewrite (rotate_left_Ok B 9), (rotate_left_Ok F 19) by lia.
  cbn [bind].
  match goal with |- context [P0 ?x] => destruct (P0_total x) as [e ->] end.
  cbn [bind]. eauto.
Qed.

Lemma extension_step_total W j :
  len W = j -> 16 <= j -> exists W', extension_step W j = Ok W' /\ len W' = j + 1.
Proof.
  intros Hlen Hj. unfold extension_step.
  destruct (getitem_nth W (j - 16)) as (w16 & -> & _); [lia|].
  destruct (getitem_nth W (j - 9)) as (w9 & -> & _); [lia|].
  destruct (getitem_nth W (j - 3)) as (w3 & -> & _); [lia|].
  destruct (getitem_nth W (j - 13)) as (w13 & -> & _); [lia|].
  destruct (getitem_nth W (j - 6)) as (w6 & -> & _); [lia|].
  cbn [bind]. rewrite (rotate_left_Ok w3 15) by lia. cbn [bind].
  match goal with |- context [P1 ?x] => destruct (P1_total x) as [p ->] end.
  cbn [bind]. rewrite (rotate_left_Ok w13 7) by lia. cbn [bind].
  eexists. split; [reflexivity|]. rewrite len_app. change (len [_]) with 1. lia.
Qed.

Lemma prime_step_total W acc j :
  len W = 68 -> len acc = j -> 0 <= j < 64 ->
  exists acc', prime_step W acc j = Ok acc' /\ len acc' = j + 1.
Proof.
  intros HW Hlen Hj. unfold prime_step.
  destruct (getitem_nth W j) as (a & -> & _); [lia|].
  destruct (getitem_nth W (j + 4)) as (c & -> & _); [lia|].
  cbn [bind]. eexists. split; [reflexivity|].
  rewrite len_app. change (len [_]) with 1. lia.
Qed.

(** A block of 64 bytes always expands. *)
Lemma message_extension_total B :
  len B = 64 ->
  exists W W', message_extension B = Ok (W, W') /\ len W = 68 /\ len W' = 64.
Proof.
  intros HB. unfold message_extension.
  destruct (unpack_total B HB) as [W0 E0]. rewrite E0. cbn [bind].
  destruct (unpack_words _ _ E0) as (Hlen & _).
  change (range 16 68) with (range_from 16 1 52).
  change (range 0 64) with (range_from 0 1 64).
  destruct (foldM_range_ok extension_step (fun j W => len W = j) 52 16 W0 Hlen)
    as (W & -> & HW).
  { intros j W Hj HP. cbv beta in HP. apply extension_step_total; lia. }
  cbn [bind].
  destruct (foldM_range_ok (prime_step W) (fun j acc => len acc = j) 64 0 [] eq_refl)
    as (W' & -> & HW').
  { intros j acc Hj HP. cbv beta in HP. apply prime_step_total; lia. }
  cbn [bind]. exists W, W'. repeat split; assumption.
Qed.

(** The round loop never gets past round 33: rounds 0 to 32 return,
    round 33 rotates [Tj] by 33. *)
Lemma rounds_Raise W W' r :
  len W = 68 -> len W' = 64 ->
  foldM (round W W') (range 0 64) r = Raise negative_shift.
Proof.
  intros HW HW'.
  change (range 0 64) with (range_from 0 1 (33 + 31)).
  rewrite range_from_app, foldM_app.
  destruct (foldM_range_ok (round W W') (fun _ _ => True) 33 0 r I) as (r1 & -> & _).
  { intros j s Hj _. destruct (round_total W W' s j) as [s' Es]; try lia. eauto. }
  cbn [bind]. change (range_from (0 + Z.of_nat 33 * 1) 1 31) with (33 :: range_from 34 1 30).
  cbn [foldM]. now rewrite round_Raise by lia.
Qed.

Lemma compression_Raise V B :
  len B = 64 -> List.length V = 8%nat -> compression V B = Raise negative_shift.
Proof.
  intros HB HV. unfold compression.
  destruct (message_extension_total B HB) as (W & W' & -> & HW & HW').
  cbn [bind]. destruct (unpack8_total V HV) as [r ->]. cbn [bind].
  now rewrite rounds_Raise.
Qed.

(** ** Padding and the block loop *)

Lemma le_bytes_length n z : List.length (le_bytes n z) = n.
Proof. revert z; induction n; intros; cbn [le_bytes List.length]; auto. Qed.

Lemma struct_pack_Q_Ok n :
  0 <= n < 2 ^ 64 -> struct_pack_Q n = Ok (le_bytes 8 n).
Proof.
  intros Hn. unfold struct_pack_Q.
  destruct (n <? 0) eqn:E1; [apply Z.ltb_lt in E1; lia|].
  destruct (2 ^ 64 <=? n) eqn:E2; [apply Z.leb_le in E2; lia|]. reflexivity.
Qed.

Lemma struct_pack_Q_Raise n : 2 ^ 64 <= n -> struct_pack_Q n = Raise pack_overflow.
Proof.
  intros Hn. unfold struct_pack_Q.
  destruct (2 ^ 64 <=? n) eqn:E2; [|apply Z.leb_gt in E2; lia].
  now rewrite orb_true_r.
Qed.

(** The padded message is a positive whole number of blocks. *)
Lemma _padding_shape m :
  len m * 8 < 2 ^ 64 ->
  exists p, _padding m = Ok p /\ 64 <= len p /\ len p mod 64 = 0.
Proof.
  intros Hm. pose proof (len_nonneg m) as Hn. unfold _padding.
  rewrite struct_pack_Q_Ok by lia. cbn [bind]. eexists. split; [reflexivity|].
  rewrite !len_app. change (len [x80]) with 1.
  replace (len (le_bytes 8 (len m * 8))) with 8
    by (unfold len; now rewrite le_bytes_length).
  replace (len (repeat x00 (Z.to_nat ((55 - len m) mod 64))))
    with (Z.of_nat (Z.to_nat ((55 - len m) mod 64)))
    by (unfold len; now rewrite repeat_length).
  set (n := len m) in *. clearbody n.
  rewrite Z2Nat.id by (apply Z.mod_pos_bound; lia).
  split; Z.div_mod_to_equations; lia.
Qed.

Lemma slice_block {A} (l : list A) : 64 <= len l -> len (slice l 0 (0 + 64)) = 64.
Proof.
  intros Hl. unfold slice, clip. cbn [Z.ltb Z.compare Z.add].
  rewrite Z.min_r, Z.min_r by lia. cbn [Z.to_nat Pos.to_nat Pos.iter_op].
  cbn [skipn]. unfold len in *. rewrite length_firstn. lia.
Qed.

Lemma IV_length : List.length IV = 8%nat.
Proof. reflexivity. Qed.

(** The block loop of [sm3_hash] stops in its first block. *)
Lemma block_loop_Raise p :
  64 <= len p ->
  foldM (fun V i => compression V (slice p i (i + 64)))
    (range_step 0 (len p) 64) IV = Raise negative_shift.
Proof.
  intros Hp. unfold range_step.
  destruct (Z.to_nat ((len p - 0 + 64 - 1) / 64)) as [|k] eqn:E.
  - exfalso. assert (1 <= (len p - 0 + 64 - 1) / 64)
      by (apply Z.div_le_lower_bound; lia). lia.
  - cbn [range_from foldM].
    now rewrite compression_Raise by (apply slice_block, Hp || apply IV_length).
Qed.

Lemma sm3_hash_optimized_Raise m :
  sm3_hash_optimized m =
  Raise (if len m * 8 <? 2 ^ 64 then negative_shift else pack_overflow).
Proof.
  destruct (len m * 8 <? 2 ^ 64) eqn:E.
  - apply Z.ltb_lt in E. rewrite <- sm3_hash_same. unfold sm3_hash.
    rewrite padding_same.
    destruct (_padding_shape m E) as (p & -> & Hp & _). cbn [bind].
    now rewrite block_loop_Raise.
  - apply Z.ltb_ge in E. unfold sm3_hash_optimized, _padding.
    now rewrite struct_pack_Q_Raise.
Qed.

Lemma sm3_hash_Raise m :
  sm3_hash m = Raise (if len m * 8 <? 2 ^ 64 then negative_shift else pack_overflow).
Proof. rewrite sm3_hash_same. apply sm3_hash_optimized_Raise. Qed.

(** ** The rotation of the specification *)

Lemma rotate_left_value x n :
  word x -> 0 <= n <= 32 ->
  rotate_left x n = Ok ((x * 2 ^ n) mod 2 ^ 32 + x / 2 ^ (32 - n)).
Proof.
  intros Hx Hn. rewrite rotate_left_Ok by assumption. f_equal.
  assert (Hlo : word (Z.shiftr x (32 - n))).
  { rewrite Z.shiftr_div_pow2 by lia. unfold word in *. split.
    - apply Z.div_pos; lia.
    - apply Z.le_lt_trans with x; [|lia].
      apply Z.div_le_upper_bound; [lia|]. assert (1 <= 2 ^ (32 - n)) by lia. nia. }
  rewrite (land_mask32_id (Z.shiftr x (32 - n))) by assumption.
  assert (Hdisj : Z.land (Z.land (Z.shiftl x n) mask32) (Z.shiftr x (32 - n)) = 0).
  { apply Z.bits_inj'. intros k Hk.
    rewrite Z.bits_0, !Z.land_spec, Z.shiftl_spec, Z.shiftr_spec by lia.
    destruct (Z.ltb_spec k n).
    - now rewrite Z.testbit_neg_r by lia.
    - rewrite (word_testbit_high x (k + (32 - n))) by (assumption || lia).
      apply andb_false_r. }
  rewrite <- Z.lxor_lor, <- Z.add_nocarry_lxor by exact Hdisj.
  now rewrite land_mask32, Z.shiftl_mul_pow2, Z.shiftr_div_pow2 by lia.
Qed.

(** Up to 32 places the source's rotation is the specification's
    rotation by the count reduced modulo 32. *)
Lemma rotate_left_spec x n :
  word x -> 0 <= n <= 32 -> rotate_left x n = Ok (spec_rotl x (n mod 32)).
Proof.
  intros Hx Hn. rewrite rotate_left_value by assumption. f_equal. unfold spec_rotl.
  destruct (Z.eq_dec n 32) as [->|Hne].
  - change (32 mod 32) with 0. change (32 - 32) with 0. change (32 - 0) with 32.
    rewrite Z.mod_mul by lia. change (2 ^ 0) with 1.
    rewrite Z.div_1_r, Z.mul_1_r, (Z.mod_small x), (Z.div_small x) by exact Hx. lia.
  - now rewrite (Z.mod_small n 32) by lia.
Qed.


Lemma T_spec j : 0 <= j < 64 -> getitem T j = Ok (spec_T j).
Proof.
  intros Hj.
  assert (H : Forall (fun j => getitem T j = Ok (spec_T j)) (range 0 64))
    by (repeat constructor).
  rewrite Forall_forall in H. apply H.
  change (range 0 64) with (range_from 0 1 64). apply in_range_from. lia.
Qed.

Lemma spec_T_word j : word (spec_T j).
Proof. unfold spec_T, word. destruct (j <? 16); lia. Qed.

(** In rounds 0 to 32 the source computes the [SS1] of the
    specification. *)
Lemma SS1_rounds_0_to_32 (A E j : Z) :
  word A -> 0 <= j <= 32 ->
  (Tj <- getitem T j ;; SS1_of A E Tj j) = Ok (spec_SS1 A E j).
Proof.
  intros HA Hj. rewrite T_spec by lia. cbn [bind]. unfold SS1_of, spec_SS1.
  rewrite (rotate_left_spec A 12) by (assumption || lia). cbn [bind].
  rewrite (rotate_left_spec (spec_T j) j) by (apply spec_T_word || lia). cbn [bind].
  rewrite (rotate_left_spec _ 7) by (apply land_mask32_word || lia).
  now rewrite land_mask32.
Qed.

(** ** The hash engine: claims *)

(** C2 (the code departs from it).  The claim says [hash] returns a
    digest for every byte sequence.  In the source neither engine ever
    returns: on every message of fewer than 2^61 bytes the first block
    raises [ValueError] (negative shift count) in round 33, and on a
    longer one [struct.pack] raises first. *)
Theorem hash_never_returns (m : bytes) :
  sm3_hash m = Raise (if len m * 8 <? 2 ^ 64 then negative_shift else pack_overflow)
  /\ sm3_hash_optimized m =
     Raise (if len m * 8 <? 2 ^ 64 then negative_shift else pack_overflow).
Proof. split; [apply sm3_hash_Raise | apply sm3_hash_optimized_Raise]. Qed.

(** C3 (the code departs from it).  The claim has [T[j]] rotated by
    [j mod 32] in every round.  The source rotates by [j] itself: in
    each of the rounds 33 to 63, whatever the registers and the
    schedule, computing [SS1] raises [ValueError] in both engines. *)
Theorem SS1_raises_from_round_33 (W W_prime : list Z) (r : regs) (rb rf : Z) :
  Forall (fun j =>
            (Tj <- getitem T j ;; SS1_of (rA r) (rE r) Tj j) = Raise negative_shift
            /\ round W W_prime r j = Raise negative_shift
            /\ _round W W_prime (r, rb, rf) j = Raise negative_shift)
    (range 33 64).
Proof.
  apply Forall_forall. intros j Hj.
  change (range 33 64) with (range_from 33 1 31) in Hj. apply in_range_from in Hj.
  assert (Hj' : 32 < j < 64) by lia. clear Hj.
  destruct (getitem_nth T j) as (Tj & ET & _); [rewrite T_length; lia|].
  split; [|split].
  - rewrite ET. cbn [bind]. apply SS1_of_Raise. lia.
  - apply round_Raise. exact Hj'.
  - destruct r as [A B C D E F G H]. unfold _round.
    change (getitem _T j) with (getitem T j). rewrite ET. cbn [bind].
    rewrite <- rotate_left_same, (rotate_left_Ok A 12) by lia. cbn [bind].
    now rewrite <- rotate_left_same, rotate_left_Raise by lia.
Qed.

(** C5 (the code departs from it).  Neither test vector is produced:
    on the empty message and on ["abc"] both engines raise
    [ValueError] instead of returning a digest. *)
Theorem test_vectors_raise :
  sm3_hash (b "") = Raise negative_shift
  /\ sm3_hash (b "abc") = Raise negative_shift
  /\ sm3_hash_optimized (b "") = Raise negative_shift
  /\ sm3_hash_optimized (b "abc") = Raise negative_shift.
Proof. repeat split; vm_compute; reflexivity. Qed.

(** The two engines have the same outcome on every input: [sm3_hash]
    and [sm3_hash_optimized] on every message (the outcome is an
    exception, see [sm3_hash_Raise]), and their parts on every
    argument: the rotation, the padding, the message expansion, the
    compression of a block, and the round loop cut after any number of
    rounds. *)
Theorem implementations_agree :
  (forall m, sm3_hash m = sm3_hash_optimized m)
  /\ (forall x n, rotate_left x n = _rotate_left x n)
  /\ (forall m, padding m = _padding m)
  /\ (forall B, message_extension B = _message_extension B)
  /\ (forall V B, compression V B = _compression V B)
  /\ (forall W W_prime r k,
        foldM (round W W_prime) (range 0 k) r =
        (rotate_B <- _rotate_left (rB r) 9 ;;
         rotate_F <- _rotate_left (rF r) 19 ;;
         '(r', _, _) <- foldM (_round W W_prime) (range 0 k) (r, rotate_B, rotate_F) ;;
         Ok r')).
Proof.
  split; [exact sm3_hash_same|].
  split; [exact rotate_left_same|].
  split; [exact padding_same|].
  split; [exact message_extension_same|].
  split; [exact compression_same|].
  intros W W' r k. rewrite <- !rotate_left_same.
  destruct (rotate_left_total (rB r) 9) as [rb Eb]; [lia|].
  destruct (rotate_left_total (rF r) 19) as [rf Ef]; [lia|].
  rewrite Eb, Ef. cbn [bind]. symmetry.
  apply round_loop_sim; try assumption. apply range_from_nonneg. lia.
Qed.

(** C6 (the code departs from it).  The claim says that the two
    engines return equal digests on every message.  They return none:
    the comparison [sm3_hash(m) == sm3_hash_optimized(m)] raises on
    every message, already while the first digest is computed, as on
    the one-byte message of the source's own test, and so never comes
    out true. *)
Theorem engines_never_compared :
  (forall m,
     engines_agree_check m =
     Raise (if len m * 8 <? 2 ^ 64 then negative_shift else pack_overflow))
  /\ engines_agree_check (b "a") = Raise negative_shift
  /\ (forall m verdict, engines_agree_check m <> Ok verdict).
Proof.
  assert (H : forall m,
             engines_agree_check m =
             Raise (if len m * 8 <? 2 ^ 64 then negative_shift else pack_overflow)).
  { intros m. unfold engines_agree_check. rewrite sm3_hash_Raise.
    cbn [bind]. reflexivity. }
  split; [exact H|]. split; [vm_compute; reflexivity|].
  intros m verdict. rewrite H. discriminate.
Qed.

(** ** Digests as text *)

Lemma lower_hex_facts c :
  lower_hex c = true ->
  is_space c = false /\ Ascii.eqb c "+" = false /\ Ascii.eqb c "-" = false
  /\ Ascii.eqb c "x" = false /\ Ascii.eqb c "X" = false /\ Ascii.eqb c "_" = false
  /\ digit_value c = Some (dv c) /\ 0 <= dv c < 16 /\ hex_char (dv c) = c.
Proof.
  destruct c as [[] [] [] [] [] [] [] []]; vm_compute; intros H;
    try discriminate H; repeat split; discriminate.
Qed.

Lemma hex_char_lower d : 0 <= d < 16 -> lower_hex (hex_char d) = true /\ dv (hex_char d) = d.
Proof.
  intros Hd.
  assert (H : Forall (fun d => lower_hex (hex_char d) = true /\ dv (hex_char d) = d)
                (range 0 16)) by (repeat constructor).
  rewrite Forall_forall in H. apply H.
  change (range 0 16) with (range_from 0 1 16). apply in_range_from. lia.
Qed.

Lemma hex_value_app cs c : hex_value (cs ++ [c]) = 16 * hex_value cs + dv c.
Proof. unfold hex_value. now rewrite fold_left_app. Qed.

Lemma hex_value_rev cs : hex_value (rev cs) = value_le cs.
Proof.
  induction cs as [|c cs IH]; [reflexivity|].
  cbn [rev value_le]. rewrite hex_value_app, IH. lia.
Qed.

Lemma value_le_bound cs :
  Forall (fun c => lower_hex c = true) cs -> 0 <= value_le cs < 16 ^ len cs.
Proof.
  induction 1 as [|c cs Hc _ IH]; [cbn; lia|].
  destruct (lower_hex_facts c Hc) as (_ & _ & _ & _ & _ & _ & _ & Hd & _).
  cbn [value_le].
  replace (len (c :: cs)) with (Z.succ (len cs)) by (unfold len; cbn [List.length]; lia).
  rewrite Z.pow_succ_r by apply len_nonneg. lia.
Qed.

(** Digit strings of one length with one value are the same string. *)
Lemma value_le_inj cs : forall cs',
  Forall (fun c => lower_hex c = true) cs ->
  Forall (fun c => lower_hex c = true) cs' ->
  List.length cs = List.length cs' -> value_le cs = value_le cs' -> cs = cs'.
Proof.
  induction cs as [|c cs IH]; intros [|c' cs'] H H' Hlen Hval;
    try discriminate Hlen; [reflexivity|].
  inversion H as [|? ? Hc Hcs]; inversion H' as [|? ? Hc' Hcs']; subst.
  destruct (lower_hex_facts c Hc) as (_ & _ & _ & _ & _ & _ & _ & Hd & Hch).
  destruct (lower_hex_facts c' Hc') as (_ & _ & _ & _ & _ & _ & _ & Hd' & Hch').
  cbn [value_le] in Hval.
  assert (dv c = dv c' /\ value_le cs = value_le cs') as [E1 E2] by lia.
  f_equal.
  - rewrite <- Hch, <- Hch'. now f_equal.
  - apply IH; auto.
Qed.

Lemma hex_value_inj cs cs' :
  Forall (fun c => lower_hex c = true) cs ->
  Forall (fun c => lower_hex c = true) cs' ->
  List.length cs = List.length cs' -> hex_value cs = hex_value cs' -> cs = cs'.
Proof.
  intros H H' Hlen Hval.
  rewrite <- (rev_involutive cs), <- (rev_involutive cs') in Hval |- *.
  rewrite !hex_value_rev in Hval. f_equal.
  apply value_le_inj; try (apply Forall_rev; assumption); [|assumption].
  now rewrite !length_rev.
Qed.

(** The digits that [hex_le] produces, given enough fuel. *)
Lemma hex_le_spec fuel : forall x,
  0 <= x < 16 ^ Z.of_nat fuel ->
  Forall (fun c => lower_hex c = true) (hex_le fuel x) /\ value_le (hex_le fuel x) = x.
Proof.
  induction fuel as [|fuel IH]; intros x Hx.
  - cbn in Hx. assert (x = 0) by lia. subst x. cbn. split; auto.
  - cbn [hex_le]. destruct (Z.leb_spec x 0).
    + assert (x = 0) by lia. subst x. cbn. split; auto.
    + rewrite Nat2Z.inj_succ, Z.pow_succ_r in Hx by lia.
      destruct (IH (x / 16)) as (F & V);
        [split; [apply Z.div_pos; lia | apply Z.div_lt_upper_bound; lia]|].
      destruct (hex_char_lower (x mod 16)) as [Hl Hv];
        [apply Z.mod_pos_bound; lia|].
      split.
      * constructor; assumption.
      * cbn [value_le]. rewrite Hv, V. pose proof (Z.div_mod x 16). lia.
Qed.

Lemma hex_le_length fuel : forall x n,
  0 <= x < 16 ^ Z.of_nat n -> (List.length (hex_le fuel x) <= n)%nat.
Proof.
  induction fuel as [|fuel IH]; intros x n Hx; [cbn; lia|].
  cbn [hex_le]. destruct (Z.leb_spec x 0); [cbn; lia|].
  destruct n as [|n]; [cbn in Hx; lia|].
  rewrite Nat2Z.inj_succ, Z.pow_succ_r in Hx by lia.
  cbn [List.length]. apply le_n_S, IH.
  split; [apply Z.div_pos; lia | apply Z.div_lt_upper_bound; lia].
Qed.

Lemma hex_spec x n :
  0 <= x < 16 ^ Z.of_nat n -> (0 < n)%nat ->
  Forall (fun c => lower_hex c = true) (hex x)
  /\ hex_value (hex x) = x
  /\ (List.length (hex x) <= n)%nat.
Proof.
  intros Hx Hn. unfold hex. destruct (Z.leb_spec x 0).
  - assert (x = 0) by lia. subst x. repeat split; [repeat constructor | cbn; lia].
  - destruct (hex_le_spec (S (Z.to_nat (Z.log2 x))) x) as (F & V).
    { split; [lia|]. rewrite Nat2Z.inj_succ, Z2Nat.id by apply Z.log2_nonneg.
      destruct (Z.log2_spec x ltac:(lia)) as [_ Hlt].
      apply Z.lt_le_trans with (2 ^ Z.succ (Z.log2 x)); [exact Hlt|].
      apply Z.pow_le_mono_l. lia. }
    repeat split.
    + apply Forall_rev, F.
    + now rewrite hex_value_rev.
    + rewrite length_rev. now apply hex_le_length.
Qed.

Lemma hex_value_zeros k cs : hex_value (repeat "0"%char k ++ cs) = hex_value cs.
Proof.
  unfold hex_value. rewrite fold_left_app. f_equal.
  induction k as [|k IH]; [reflexivity|]. cbn [repeat fold_left].
  change (16 * 0 + dv "0") with 0. exact IH.
Qed.

(** A word renders as exactly eight lowercase digits that spell it. *)
Lemma fmt_08x_word x :
  word x ->
  List.length (fmt_08x x) = 8%nat
  /\ Forall (fun c => lower_hex c = true) (fmt_08x x)
  /\ hex_value (fmt_08x x) = x.
Proof.
  intros Hx. unfold fmt_08x.
  destruct (Z.ltb_spec x 0); [unfold word in Hx; lia|].
  destruct (hex_spec x 8) as (F & V & L); [exact Hx | lia |].
  unfold zfill. repeat split.
  - rewrite length_app, repeat_length. lia.
  - apply Forall_app. split; [|exact F].
    apply Forall_forall. intros c Hc. apply repeat_spec in Hc. now subst c.
  - now rewrite hex_value_zeros.
Qed.

Lemma lstrip_nonspace cs :
  Forall (fun c => is_space c = false) cs -> lstrip cs = cs.
Proof. destruct 1 as [|c cs Hc _]; [reflexivity|]. cbn [lstrip]. now rewrite Hc. Qed.

Lemma strip_nonspace cs :
  Forall (fun c => is_space c = false) cs -> strip cs = cs.
Proof.
  intros H. unfold strip.
  rewrite (lstrip_nonspace cs H), lstrip_nonspace by (apply Forall_rev, H).
  apply rev_involutive.
Qed.

Lemma scan_digits_hex cs : forall acc,
  Forall (fun c => lower_hex c = true) cs ->
  scan_digits cs acc false = Some (fold_left (fun acc c => 16 * acc + dv c) cs acc).
Proof.
  induction cs as [|c cs IH]; intros acc H; [reflexivity|].
  inversion H as [|? ? Hc Hcs]; subst.
  destruct (lower_hex_facts c Hc) as (_ & _ & _ & _ & _ & Hu & Hd & _).
  cbn [scan_digits fold_left]. rewrite Hu, Hd. now apply IH.
Qed.

(** [int(s, 16)] on lowercase hexadecimal digits is their value. *)
Lemma py_int16_hex cs :
  cs <> [] -> Forall (fun c => lower_hex c = true) cs ->
  py_int16 (string_of_list_ascii cs) = Ok (hex_value cs).
Proof.
  intros Hne H. unfold py_int16, chars.
  rewrite list_ascii_of_string_of_list_ascii, strip_nonspace
    by (eapply Forall_impl; [|exact H]; intros c Hc; apply (lower_hex_facts c Hc)).
  destruct cs as [|c cs]; [contradiction|].
  inversion H as [|? ? Hc Hcs]; subst.
  destruct (lower_hex_facts c Hc) as (_ & Hp & Hm & _ & _ & Hu & _).
  rewrite Hp, Hm. cbn [orb].
  assert (Hpre : match c :: cs with
                 | z :: x :: r =>
                     if Ascii.eqb z "0" && (Ascii.eqb x "x" || Ascii.eqb x "X")
                     then match r with
                          | u :: r' => if Ascii.eqb u "_" then r' else r
                          | [] => r
                          end
                     else c :: cs
                 | _ => c :: cs
                 end = c :: cs).
  { destruct cs as [|x r]; [reflexivity|].
    inversion Hcs as [|? ? Hx _]; subst.
    destruct (lower_hex_facts x Hx) as (_ & _ & _ & Hx1 & Hx2 & _).
    rewrite Hx1, Hx2. cbn [orb]. now rewrite andb_false_r. }
  rewrite Hpre, Hu. now rewrite scan_digits_hex.
Qed.

Lemma concat_chunks {A} k n : forall l : list A,
  List.length l = (n * k)%nat ->
  List.concat (chunks k n l) = l
  /\ Forall (fun c => List.length c = k) (chunks k n l).
Proof.
  induction n as [|n IH]; intros l Hl.
  - destruct l; [|discriminate]. cbn. auto.
  - cbn [chunks List.concat]. destruct (IH (skipn k l)) as [E F].
    { rewrite length_skipn. lia. }
    split.
    + rewrite E. apply firstn_skipn.
    + constructor; [|exact F]. rewrite length_firstn. lia.
Qed.

Lemma concat_blocks_length {A} k (blocks : list (list A)) :
  Forall (fun c => List.length c = k) blocks ->
  List.length (List.concat blocks) = (List.length blocks * k)%nat.
Proof.
  induction 1 as [|c blocks Hc _ IH]; [reflexivity|].
  cbn [List.concat List.length]. rewrite length_app. lia.
Qed.

(** The slice that [parse_hash] takes for a word is the block at that
    place. *)
Lemma str_slice_block pre l post i :
  len pre = i -> List.length l = 8%nat ->
  str_slice (string_of_list_ascii (pre ++ l ++ post)) i (i + 8) = string_of_list_ascii l.
Proof.
  intros Hpre Hl. unfold str_slice, chars. rewrite list_ascii_of_string_of_list_ascii.
  f_equal. unfold slice, clip. pose proof (len_nonneg pre).
  assert (Hlen : len (pre ++ l ++ post) = i + 8 + len post).
  { rewrite !len_app. unfold len at 2. lia. }
  destruct (Z.ltb_spec i 0); [lia|]. destruct (Z.ltb_spec (i + 8) 0); [lia|].
  pose proof (len_nonneg post).
  rewrite !Z.min_r by lia.
  replace (Z.to_nat (i + 8) - Z.to_nat i)%nat with 8%nat by lia.
  replace (Z.to_nat i) with (List.length pre) by (unfold len in Hpre; lia).
  rewrite skipn_app, skipn_all, Nat.sub_diag. cbn [skipn app].
  rewrite <- Hl, firstn_app, firstn_all, Nat.sub_diag. cbn [firstn]. apply app_nil_r.
Qed.

Lemma parse_loop blocks xs :
  Forall2 (fun l x => List.length l = 8%nat /\ py_int16 (string_of_list_ascii l) = Ok x)
    blocks xs ->
  forall pre acc i,
    len pre = i * 8 ->
    foldM (fun V i =>
             x <- py_int16 (str_slice (string_of_list_ascii (pre ++ List.concat blocks))
                              (i * 8) ((i + 1) * 8)) ;;
             Ok (V ++ [x]))
      (range_from i 1 (List.length blocks)) acc = Ok (acc ++ xs).
Proof.
  induction 1 as [|l x blocks xs [Hl Hx] _ IH]; intros pre acc i Hpre.
  - cbn. now rewrite app_nil_r.
  - cbn [List.length range_from foldM List.concat].
    replace ((i + 1) * 8) with (i * 8 + 8) by lia.
    rewrite str_slice_block, Hx by assumption. cbn [bind].
    rewrite app_assoc.
    replace (acc ++ x :: xs) with ((acc ++ [x]) ++ xs) by now rewrite <- app_assoc.
    apply IH. rewrite len_app. unfold len at 2. lia.
Qed.

Lemma parse_hash_concat blocks xs :
  List.length blocks = 8%nat ->
  Forall2 (fun l x => List.length l = 8%nat /\ py_int16 (string_of_list_ascii l) = Ok x)
    blocks xs ->
  parse_hash (string_of_list_ascii (List.concat blocks)) = Ok xs.
Proof.
  intros H8 HF. unfold parse_hash, chars.
  rewrite list_ascii_of_string_of_list_ascii.
  assert (Hlen : len (List.concat blocks) = 64).
  { unfold len. rewrite (concat_blocks_length 8), H8; [reflexivity|].
    clear H8. induction HF as [|? ? ? ? [? _]]; constructor; auto. }
  rewrite Hlen. cbn [Z.eqb Pos.eqb negb].
  pose proof (parse_loop blocks xs HF [] [] 0 eq_refl) as Hloop.
  rewrite H8 in Hloop. exact Hloop.
Qed.

Lemma string_length_of_list cs : String.length (string_of_list_ascii cs) = List.length cs.
Proof. induction cs as [|c cs IH]; cbn; congruence. Qed.

Lemma render_blocks V :
  Forall word V ->
  Forall2 (fun l x => List.length l = 8%nat /\ py_int16 (string_of_list_ascii l) = Ok x)
    (map fmt_08x V) V.
Proof.
  induction 1 as [|x V Hx _ IH]; cbn [map]; constructor; [|exact IH].
  destruct (fmt_08x_word x Hx) as (L & F & Val). split; [exact L|].
  rewrite py_int16_hex, Val; [reflexivity | | exact F].
  intros E. rewrite E in L. discriminate L.
Qed.

Lemma parse_render V :
  List.length V = 8%nat -> Forall word V -> parse_hash (render V) = Ok V.
Proof.
  intros H8 HV. unfold render. apply parse_hash_concat.
  - now rewrite length_map.
  - apply render_blocks, HV.
Qed.

Lemma render_length V :
  List.length V = 8%nat -> Forall word V -> String.length (render V) = 64%nat.
Proof.
  intros H8 HV. unfold render.
  rewrite string_length_of_list, (concat_blocks_length 8), length_map, H8; [reflexivity|].
  apply Forall_map. eapply Forall_impl; [|exact HV].
  intros x Hx. apply (fmt_08x_word x Hx).
Qed.

Lemma hex_value_word cs :
  List.length cs = 8%nat -> Forall (fun c => lower_hex c = true) cs -> word (hex_value cs).
Proof.
  intros L F. rewrite <- (rev_involutive cs), hex_value_rev.
  pose proof (value_le_bound (rev cs) (Forall_rev F)) as Hb.
  unfold len in Hb. rewrite length_rev, L in Hb. exact Hb.
Qed.

(** Rendering the value of eight lowercase digits gives them back. *)
Lemma fmt_08x_hex_value cs :
  List.length cs = 8%nat -> Forall (fun c => lower_hex c = true) cs ->
  fmt_08x (hex_value cs) = cs.
Proof.
  intros L F.
  destruct (fmt_08x_word (hex_value cs) (hex_value_word cs L F)) as (L' & F' & V').
  apply hex_value_inj; congruence.
Qed.

Lemma render_parse d :
  well_formed_digest d ->
  exists V, parse_hash d = Ok V /\ List.length V = 8%nat /\ Forall word V /\ render V = d.
Proof.
  intros [L F]. set (blocks := chunks 8 8 (chars d)).
  destruct (concat_chunks 8 8 (chars d) L) as [Ecat Flen]. fold blocks in Ecat, Flen.
  assert (Fhex : Forall (Forall (fun c => lower_hex c = true)) blocks).
  { apply Forall_forall. intros l Hl. apply Forall_forall. intros c Hc.
    rewrite Forall_forall in F. apply F. rewrite <- Ecat. apply in_concat. eauto. }
  assert (Hlen : List.length blocks = 8%nat) by apply chunks_length.
  clearbody blocks.
  exists (map hex_value blocks). repeat split.
  - rewrite <- (string_of_list_ascii_of_string d). fold (chars d). rewrite <- Ecat.
    apply parse_hash_concat; [exact Hlen|].
    clear Hlen Ecat.
    induction blocks as [|l blocks IH]; cbn [map]; constructor.
    + inversion Flen; inversion Fhex; subst. split; [assumption|].
      apply py_int16_hex; [|assumption]. intros ->. discriminate.
    + inversion Flen; inversion Fhex; subst. now apply IH.
  - now rewrite length_map.
  - apply Forall_map. clear Hlen Ecat.
    induction blocks as [|l blocks IH]; constructor;
      inversion Flen; inversion Fhex; subst; [now apply hex_value_word | now apply IH].
  - unfold render. rewrite map_map.
    rewrite <- (string_of_list_ascii_of_string d). fold (chars d). rewrite <- Ecat.
    f_equal. f_equal. clear Hlen Ecat.
    induction blocks as [|l blocks IH]; [reflexivity|]. cbn [map].
    inversion Flen; inversion Fhex; subst.
    rewrite fmt_08x_hex_value by assumption. f_equal. now apply IH.
Qed.

(** C10.  Rendering a state and parsing a digest are inverse to each
    other: a state of eight 32-bit words renders to 64 characters that
    parse back to it, and a digest of 64 lowercase hexadecimal
    characters parses to a state of eight words that renders to the
    same digest. *)
Theorem digest_roundtrip (V : list Z) (d : string) :
  List.length V = 8%nat -> Forall word V -> well_formed_digest d ->
  parse_hash (render V) = Ok V
  /\ String.length (render V) = 64%nat
  /\ exists V', parse_hash d = Ok V' /\ List.length V' = 8%nat
                /\ Forall word V' /\ render V' = d.
Proof.
  intros H8 HV Hd. split; [|split].
  - now apply parse_render.
  - now apply render_length.
  - now apply render_parse.
Qed.

Lemma digest_roundtrip_witness :
  parse_hash (render IV) = Ok IV
  /\ String.length (render IV) = 64%nat
  /\ exists V', parse_hash RFC6962_EMPTY_ROOT = Ok V' /\ List.length V' = 8%nat
                /\ Forall word V' /\ render V' = RFC6962_EMPTY_ROOT.
Proof.
  apply (digest_roundtrip IV RFC6962_EMPTY_ROOT).
  - reflexivity.
  - repeat constructor; unfold word; lia.
  - split; [reflexivity | repeat constructor].
Defined.

(** ** The Merkle tree *)

Section MerkleFacts.

Variable engine : bytes -> result string.

(** What the constructor leaves in the object when it returns. *)
Lemma init_fields leaves t :
  Merkle.init engine leaves = Ok t ->
  leaf_count t = len leaves
  /\ (len leaves = 0 ->
      root t = RFC6962_EMPTY_ROOT /\ tree t = [] /\ height t = None /\ size t = None)
  /\ (0 < len leaves ->
      height t = Some (Z.log2_up (len leaves))
      /\ size t = Some (2 ^ Z.log2_up (len leaves))).
Proof.
  unfold Merkle.init. intros H. bind_inv H.
  destruct (len leaves =? 0) eqn:E0.
  - apply Z.eqb_eq in E0. apply Ok_inj in H. subst t. cbn. repeat split; auto; lia.
  - apply Z.eqb_neq in E0. pose proof (len_nonneg leaves).
    unfold ceil_log2 in H. destruct (len leaves <=? 0) eqn:E1;
      [apply Z.leb_le in E1; lia|]. cbn [bind] in H.
    bind_inv H. bind_inv H. destruct a1 as [tr cur]. bind_inv H. bind_inv H.
    apply Ok_inj in H. subst t. cbn. repeat split; auto; lia.
Qed.

Lemma getitem_middle {A} (l r : list A) a : getitem (l ++ a :: r) (len l) = Ok a.
Proof.
  unfold getitem. pose proof (len_nonneg l).
  destruct (Z.ltb_spec (len l) 0); [lia|].
  destruct (Z.ltb_spec (len l) 0); [lia|].
  unfold len. rewrite Nat2Z.id, nth_error_app2, Nat.sub_diag by lia. reflexivity.
Qed.

Lemma getitem_end {A} (l : list A) : getitem l (len l) = Raise index_out_of_range.
Proof.
  unfold getitem. pose proof (len_nonneg l).
  destruct (Z.ltb_spec (len l) 0); [lia|].
  destruct (Z.ltb_spec (len l) 0); [lia|].
  unfold len. rewrite Nat2Z.id.
  now replace (nth_error l (List.length l)) with (@None A)
    by (symmetry; apply nth_error_None; lia).
Qed.

Lemma verify_loop_climb proof : forall is_right pre_p pre_f cur,
  len pre_p = len pre_f ->
  foldM (fun current_hash i =>
           flag <- getitem (pre_f ++ is_right) i ;;
           p <- getitem (pre_p ++ proof) i ;;
           if flag : bool
           then Merkle.hash_nodes engine current_hash p
           else Merkle.hash_nodes engine p current_hash)
    (range_from (len pre_p) 1 (List.length proof)) cur
  = Merkle.climb engine proof is_right cur.
Proof.
  induction proof as [|p ps IH]; intros is_right pre_p pre_f cur Hpre; [reflexivity|].
  cbn [List.length range_from foldM Merkle.climb]. rewrite Hpre at 1.
  destruct is_right as [|flag fs].
  - now rewrite app_nil_r, getitem_end.
  - rewrite getitem_middle, getitem_middle. cbn [bind].
    destruct (if flag then _ else _) as [h|]; [|reflexivity]. cbn [bind].
    specialize (IH fs (pre_p ++ [p]) (pre_f ++ [flag]) h).
    rewrite <- !app_assoc in IH. cbn [app] in IH.
    rewrite !len_app in IH. change (len [p]) with 1 in IH. apply IH.
    change (len [flag]) with 1. lia.
Qed.

Lemma verify_proof_climb leaf_data proof is_right root :
  Merkle.verify_proof engine leaf_data proof is_right root =
  (h0 <- Merkle.hash_leaf engine leaf_data ;;
   h <- Merkle.climb engine proof is_right h0 ;;
   Ok (String.eqb h root)).
Proof.
  unfold Merkle.verify_proof.
  destruct (Merkle.hash_leaf engine leaf_data) as [h0|]; [|reflexivity]. cbn [bind].
  pose proof (verify_loop_climb proof is_right [] [] h0 eq_refl) as H.
  cbn [app] in H. unfold range. rewrite Z.sub_0_r. unfold len at 1.
  rewrite Nat2Z.id. change (len []) with 0 in H. now rewrite H.
Qed.

Hypothesis engine_ok : engine_returns_digests engine.

Lemma hash_leaf_ok data : exists d, Merkle.hash_leaf engine data = Ok d /\ hex_text d.
Proof. apply engine_ok. Qed.

Lemma hash_nodes_ok l r :
  hex_text l -> hex_text r -> exists d, Merkle.hash_nodes engine l r = Ok d /\ hex_text d.
Proof.
  intros [lb El] [rb Er]. unfold Merkle.hash_nodes. rewrite El, Er. cbn [bind].
  apply engine_ok.
Qed.

Lemma climb_ok proof : forall is_right cur,
  hex_text cur -> Forall hex_text proof -> len proof <= len is_right ->
  exists h, Merkle.climb engine proof is_right cur = Ok h /\ hex_text h.
Proof.
  induction proof as [|p ps IH]; intros is_right cur Hcur HF Hlen.
  - cbn. eauto.
  - inversion HF as [|? ? Hp Hps]; subst.
    destruct is_right as [|flag fs]; [unfold len in Hlen; cbn in Hlen; lia|].
    cbn [Merkle.climb].
    assert (Hstep : exists d,
               (if flag then Merkle.hash_nodes engine cur p
                else Merkle.hash_nodes engine p cur) = Ok d /\ hex_text d)
      by (destruct flag; apply hash_nodes_ok; assumption).
    destruct Hstep as (d & -> & Hd). cbn [bind].
    apply IH; try assumption. unfold len in *. cbn [List.length] in Hlen. lia.
Qed.

(** A shorter [is_right] stops the loop with [IndexError]. *)
Lemma climb_short proof : forall is_right cur,
  hex_text cur -> Forall hex_text proof -> len is_right < len proof ->
  Merkle.climb engine proof is_right cur = Raise index_out_of_range.
Proof.
  induction proof as [|p ps IH]; intros is_right cur Hcur HF Hlen.
  - unfold len in Hlen. cbn in Hlen. lia.
  - inversion HF as [|? ? Hp Hps]; subst.
    destruct is_right as [|flag fs]; [reflexivity|]. cbn [Merkle.climb].
    assert (Hstep : exists d,
               (if flag then Merkle.hash_nodes engine cur p
                else Merkle.hash_nodes engine p cur) = Ok d /\ hex_text d)
      by (destruct flag; apply hash_nodes_ok; assumption).
    destruct Hstep as (d & -> & Hd). cbn [bind].
    apply IH; try assumption. unfold len in *. cbn [List.length] in Hlen. lia.
Qed.

Lemma fromhex_chars_Raise fuel : forall cs e, fromhex_chars fuel cs = Raise e -> e = non_hex.
Proof.
  induction fuel as [|fuel IH]; intros cs e; cbn [fromhex_chars]; [discriminate|].
  destruct cs as [|c cs]; [discriminate|].
  destruct (is_ascii_space c); [apply IH|].
  destruct (digit_value c); [|congruence].
  destruct cs as [|c' cs]; [congruence|].
  destruct (digit_value c'); [|congruence].
  destruct (fromhex_chars fuel cs) eqn:E; cbn [bind]; [discriminate|].
  intros [= <-]. eapply IH, E.
Qed.

Lemma not_hex_text s : ~ hex_text s -> fromhex s = Raise non_hex.
Proof.
  intros H. destruct (fromhex s) as [bs|e] eqn:E.
  - exfalso. apply H. now exists bs.
  - f_equal. unfold fromhex in E. eapply fromhex_chars_Raise, E.
Qed.

(** A proof entry that is not hexadecimal text stops the loop with
    [ValueError]. *)
Lemma climb_non_hex proof : forall is_right cur k p,
  hex_text cur -> nth_error proof k = Some p -> ~ hex_text p ->
  Forall hex_text (firstn k proof) -> (k < List.length is_right)%nat ->
  Merkle.climb engine proof is_right cur = Raise non_hex.
Proof.
  induction proof as [|q qs IH]; intros is_right cur k p Hcur Hk Hp HF Hlen.
  - destruct k; discriminate Hk.
  - destruct is_right as [|flag fs]; [cbn in Hlen; lia|]. cbn [Merkle.climb].
    destruct k as [|k].
    + cbn in Hk. assert (q = p) by congruence. subst q.
      destruct Hcur as [cb Ecb]. unfold Merkle.hash_nodes.
      destruct flag; rewrite ?Ecb, (not_hex_text p Hp); reflexivity.
    + cbn [firstn] in HF. inversion HF as [|? ? Hq Hqs]; subst.
      assert (Hstep : exists d,
                 (if flag then Merkle.hash_nodes engine cur q
                  else Merkle.hash_nodes engine q cur) = Ok d /\ hex_text d)
        by (destruct flag; apply hash_nodes_ok; assumption).
      destruct Hstep as (d & -> & Hd). cbn [bind].
      apply (IH fs d k p); try assumption. cbn in Hlen. lia.
Qed.

End MerkleFacts.

(** ** The stand-in engine returns digests *)

Lemma lower_hex_no_space c : lower_hex c = true -> is_ascii_space c = false.
Proof.
  destruct c as [[] [] [] [] [] [] [] []]; vm_compute; intros H;
    try discriminate H; reflexivity.
Qed.

Lemma fromhex_chars_lower n : forall cs fuel,
  List.length cs = (2 * n)%nat -> Forall (fun c => lower_hex c = true) cs ->
  (2 * n < fuel)%nat -> exists bs, fromhex_chars fuel cs = Ok bs.
Proof.
  induction n as [|n IH]; intros cs fuel Hlen HF Hfuel.
  - destruct cs; [|discriminate]. destruct fuel; cbn; eauto.
  - destruct cs as [|c [|c' cs]]; try (cbn in Hlen; lia).
    destruct fuel as [|fuel]; [lia|].
    inversion HF as [|? ? Hc HF']; subst. inversion HF' as [|? ? Hc' HF'']; subst.
    cbn [fromhex_chars]. rewrite (lower_hex_no_space c Hc).
    destruct (lower_hex_facts c Hc) as (_ & _ & _ & _ & _ & _ & -> & _).
    destruct (lower_hex_facts c' Hc') as (_ & _ & _ & _ & _ & _ & -> & _).
    destruct (IH cs fuel) as [bs ->]; [cbn in Hlen; lia | assumption | lia |].
    cbn [bind]. eauto.
Qed.

Lemma render_hex_text V :
  List.length V = 8%nat -> Forall word V -> hex_text (render V).
Proof.
  intros H8 HV. unfold hex_text, fromhex, render, chars.
  rewrite list_ascii_of_string_of_list_ascii.
  apply (fromhex_chars_lower 32).
  - rewrite (concat_blocks_length 8), length_map, H8; [reflexivity|].
    apply Forall_map. eapply Forall_impl; [|exact HV].
    intros x Hx. apply (fmt_08x_word x Hx).
  - apply Forall_concat, Forall_map. eapply Forall_impl; [|exact HV].
    intros x Hx. apply (fmt_08x_word x Hx).
  - rewrite (concat_blocks_length 8), length_map, H8; [lia|].
    apply Forall_map. eapply Forall_impl; [|exact HV].
    intros x Hx. apply (fmt_08x_word x Hx).
Qed.

Lemma checksum_word m : word (checksum m).
Proof.
  destruct m as [|x m]; cbn [checksum fold_right]; unfold word; [lia|].
  apply Z.mod_pos_bound. lia.
Qed.

Lemma toy_engine_ok : engine_returns_digests toy_engine.
Proof.
  intros m. eexists. split; [reflexivity|].
  apply render_hex_text; [reflexivity|].
  constructor; [apply checksum_word|]. repeat constructor; unfold word; lia.
Qed.

(** ** The tree: claims *)

(** The size law over any engine.  For every engine and every tree the
    constructor returns from [n] leaves: if [n > 0], the height [h] is
    the least exponent with [n <= 2^h], the size is [2^h], and the size
    is [n] itself when [n] is a power of two; if [n = 0], the root is
    the canonical empty root, there are no levels, and [height] and
    [size] are left unset, so that reading the height raises
    [AttributeError]. *)
Theorem tree_size_law (engine : bytes -> result string) (leaves : list bytes)
  (t : MerkleTree) :
  Merkle.init engine leaves = Ok t ->
  (0 < len leaves ->
     exists h, height t = Some h /\ size t = Some (2 ^ h)
               /\ 0 <= h /\ len leaves <= 2 ^ h
               /\ (h = 0 \/ 2 ^ (h - 1) < len leaves)
               /\ (forall k, 0 <= k -> len leaves = 2 ^ k -> size t = Some (len leaves)))
  /\ (len leaves = 0 ->
        root t = RFC6962_EMPTY_ROOT /\ tree t = []
        /\ height t = None /\ size t = None
        /\ attr "height" (height t) = Raise (AttributeError "height")).
Proof.
  intros H. destruct (init_fields engine leaves t H) as (_ & Hempty & Hfull). split.
  - intros Hn. destruct (Hfull Hn) as [Hh Hs].
    exists (Z.log2_up (len leaves)). split; [exact Hh|]. split; [exact Hs|].
    pose proof (Z.log2_up_nonneg (len leaves)) as Hnn.
    split; [exact Hnn|].
    destruct (Z.eq_dec (len leaves) 1) as [E1|N1].
    + rewrite E1. cbn. repeat split; try lia.
      intros k Hk Hpow. rewrite Hs, E1. reflexivity.
    + destruct (Z.log2_up_spec (len leaves)) as [Hlo Hhi]; [lia|].
      split; [exact Hhi|]. split; [right; exact Hlo|].
      intros k Hk Hpow. rewrite Hs. f_equal.
      rewrite Hpow at 1. now rewrite Z.log2_up_pow2.
  - intros Hn. destruct (Hempty Hn) as (Hr & Ht & Hh & Hs).
    repeat split; try assumption. now rewrite Hh.
Qed.

Lemma tree_size_law_witness :
  (exists h, height toy_tree = Some h /\ size toy_tree = Some (2 ^ h)
             /\ 0 <= h /\ len toy_leaves <= 2 ^ h
             /\ (h = 0 \/ 2 ^ (h - 1) < len toy_leaves))
  /\ (root empty_tree = RFC6962_EMPTY_ROOT /\ tree empty_tree = []
      /\ height empty_tree = None /\ size empty_tree = None).
Proof.
  split.
  - destruct (tree_size_law toy_engine toy_leaves toy_tree) as [H _];
      [vm_compute; reflexivity|].
    destruct H as (h & Hh & Hs & H0 & Hle & Hmin & _); [vm_compute; reflexivity|].
    exists h. repeat split; assumption.
  - destruct (tree_size_law sm3_hash_optimized [] empty_tree) as [_ H];
      [reflexivity|].
    destruct H as (Hr & Htr & Hh & Hs & _); [reflexivity|].
    repeat split; assumption.
Defined.

(** On the empty list the tree is built and its root is the canonical
    empty root, but its height is not 0: the attribute is unset and
    reading it raises. *)
Lemma empty_tree_height_unset :
  (t <- Merkle.init sm3_hash_optimized [] ;; Ok (root t)) = Ok RFC6962_EMPTY_ROOT
  /\ (t <- Merkle.init sm3_hash_optimized [] ;; attr "height" (height t))
     = Raise (AttributeError "height")
  /\ (t <- Merkle.init sm3_hash_optimized [] ;; attr "height" (height t)) <> Ok 0.
Proof. repeat split; discriminate. Qed.

(** [verify_proof] over an engine that returns digests: it returns a
    boolean whenever every proof entry is
    hexadecimal text and [is_right] is at least as long as the proof;
    when it returns [true] for a root it returns [false] for every
    other root; a shorter [is_right] raises [IndexError] and a proof
    entry that is not hexadecimal text raises [ValueError]. *)
Theorem verify_proof_outcomes (engine : bytes -> result string)
  (leaf_data : bytes) (proof : list string) (is_right : list bool) (root : string) :
  engine_returns_digests engine ->
  (Forall hex_text proof -> len proof <= len is_right ->
     exists verdict, Merkle.verify_proof engine leaf_data proof is_right root = Ok verdict)
  /\ (Merkle.verify_proof engine leaf_data proof is_right root = Ok true ->
      forall root', root' <> root ->
        Merkle.verify_proof engine leaf_data proof is_right root' = Ok false)
  /\ (Forall hex_text proof -> len is_right < len proof ->
      Merkle.verify_proof engine leaf_data proof is_right root
      = Raise index_out_of_range)
  /\ (forall k p, nth_error proof k = Some p -> ~ hex_text p ->
        Forall hex_text (firstn k proof) -> (k < List.length is_right)%nat ->
        Merkle.verify_proof engine leaf_data proof is_right root = Raise non_hex).
Proof.
  intros Hengine.
  destruct (hash_leaf_ok engine Hengine leaf_data) as (h0 & E0 & Hh0).
  repeat split.
  - intros HF Hlen. rewrite verify_proof_climb, E0. cbn [bind].
    destruct (climb_ok engine Hengine proof is_right h0 Hh0 HF Hlen) as (h & -> & _).
    cbn [bind]. eauto.
  - intros Ht root' Hne. rewrite verify_proof_climb, E0 in *. cbn [bind] in *.
    destruct (Merkle.climb engine proof is_right h0) as [h|]; [|discriminate]. cbn [bind] in *.
    apply Ok_inj, String.eqb_eq in Ht. subst h. f_equal.
    apply String.eqb_neq. congruence.
  - intros HF Hlen. rewrite verify_proof_climb, E0. cbn [bind].
    now rewrite (climb_short engine Hengine proof is_right h0 Hh0 HF Hlen).
  - intros k p Hk Hp HF Hlen. rewrite verify_proof_climb, E0. cbn [bind].
    now rewrite (climb_non_hex engine Hengine proof is_right h0 k p Hh0 Hk Hp HF Hlen).
Qed.

Lemma verify_proof_outcomes_witness :
  (exists verdict,
      Merkle.verify_proof toy_engine (b "c") toy_proof [true; false] toy_root = Ok verdict)
  /\ Merkle.verify_proof toy_engine (b "c") toy_proof [true; false] RFC6962_EMPTY_ROOT
     = Ok false
  /\ Merkle.verify_proof toy_engine (b "c") toy_proof [true] toy_root
     = Raise index_out_of_range
  /\ Merkle.verify_proof toy_engine (b "c") ["zz"%string] [true] toy_root = Raise non_hex.
Proof.
  assert (Hhex : Forall hex_text toy_proof)
    by (repeat constructor; eexists; vm_compute; reflexivity).
  split; [|split; [|split]].
  - apply (verify_proof_outcomes toy_engine (b "c") toy_proof [true; false] toy_root
             toy_engine_ok); [exact Hhex | vm_compute; discriminate].
  - apply (verify_proof_outcomes toy_engine (b "c") toy_proof [true; false] toy_root
             toy_engine_ok); [vm_compute; reflexivity | discriminate].
  - apply (verify_proof_outcomes toy_engine (b "c") toy_proof [true] toy_root
             toy_engine_ok); [exact Hhex | vm_compute; reflexivity].
  - destruct (verify_proof_outcomes toy_engine (b "c") ["zz"%string] [true] toy_root
                toy_engine_ok) as (_ & _ & _ & H).
    apply (H 0%nat "zz"%string);
      [reflexivity | intros [bs E]; vm_compute in E; discriminate E
       | constructor | cbn; lia].
Defined.

(** [toy_proof] and [toy_root] are the proof of the third leaf and the
    root of [toy_tree]. *)
Lemma toy_tree_proof :
  Merkle.get_proof toy_tree 2 = Ok (toy_proof, [true; false])
  /\ root toy_tree = toy_root
  /\ nth_error toy_leaves 2 = Some (b "c").
Proof. repeat split; vm_compute; reflexivity. Qed.

(** Changing the case of a letter of a proof entry changes nothing,
    whatever the engine: [bytes.fromhex] reads both cases. *)
Lemma verify_proof_entry_case engine leaf_data is_right root :
  Merkle.verify_proof engine leaf_data toy_proof_upper is_right root
  = Merkle.verify_proof engine leaf_data toy_proof is_right root.
Proof.
  rewrite !verify_proof_climb.
  destruct (Merkle.hash_leaf engine leaf_data) as [h0|]; [|reflexivity]. cbn [bind].
  unfold toy_proof_upper, toy_proof. cbn [Merkle.climb].
  destruct is_right as [|flag fs]; [reflexivity|].
  assert (E : forall x,
             Merkle.hash_nodes engine x
               "000000D900000000000000000000000000000000000000000000000000000000"
             = Merkle.hash_nodes engine x
                 "000000d900000000000000000000000000000000000000000000000000000000"
             /\ Merkle.hash_nodes engine
                  "000000D900000000000000000000000000000000000000000000000000000000" x
                = Merkle.hash_nodes engine
                    "000000d900000000000000000000000000000000000000000000000000000000" x).
  { intros x. unfold Merkle.hash_nodes. split.
    - destruct (fromhex x); [|reflexivity]. reflexivity.
    - reflexivity. }
  destruct flag; [rewrite (proj1 (E h0)) | rewrite (proj2 (E h0))]; reflexivity.
Qed.

(** [verify_proof] raises.  On the source as it is, it raises because
    the engine raises in the leaf hash.  And whatever the engine, here
    the stand-in one: a proof entry that is
    not hexadecimal raises [ValueError], an [is_right] shorter than the
    proof raises [IndexError], and a proof entry changed in the case of
    one letter is still accepted. *)
Lemma verify_proof_throws :
  Merkle.verify_proof sm3_hash_optimized (b "c") ["zz"%string] [true] toy_root
  = Raise negative_shift
  /\ Merkle.verify_proof toy_engine (b "c") ["zz"%string] [true] toy_root = Raise non_hex
  /\ Merkle.verify_proof toy_engine (b "c") toy_proof [true] toy_root
     = Raise index_out_of_range
  /\ Merkle.verify_proof toy_engine (b "c") toy_proof [true; false] toy_root = Ok true
  /\ Merkle.verify_proof toy_engine (b "c") toy_proof_upper [true; false] toy_root = Ok true
  /\ toy_proof_upper <> toy_proof.
Proof. repeat split; try (vm_compute; reflexivity). discriminate. Qed.

(** ** The tree on the engine of the repository *)

Lemma real_hash_leaf_Raise data : exists e, Merkle.hash_leaf sm3_hash_optimized data = Raise e.
Proof.
  unfold Merkle.hash_leaf. rewrite sm3_hash_optimized_Raise. eauto.
Qed.

Lemma real_init_Raise leaf leaves :
  exists e, Merkle.init sm3_hash_optimized (leaf :: leaves) = Raise e.
Proof.
  unfold Merkle.init. cbn [mapM].
  destruct (real_hash_leaf_Raise leaf) as [e ->]. cbn [bind]. eauto.
Qed.

Lemma real_verify_proof_Raise leaf_data proof is_right root :
  exists e, Merkle.verify_proof sm3_hash_optimized leaf_data proof is_right root = Raise e.
Proof.
  unfold Merkle.verify_proof.
  destruct (real_hash_leaf_Raise leaf_data) as [e ->]. cbn [bind]. eauto.
Qed.

(** C7 (the code departs from it).  The claim says that [verify_proof]
    never throws and answers [False] to a tampered leaf, proof or
    root.  On the engine of the repository it answers nothing: it
    raises on every input, in the hash of the leaf, before it looks at
    the proof or the root; so also on the tampered leaf and on the
    tampered root of the source's own test, which expects [False]. *)
Theorem verify_proof_never_answers :
  (forall leaf_data proof is_right root,
     Merkle.verify_proof sm3_hash_optimized leaf_data proof is_right root =
     Raise (if len (RFC6962_LEAF_PREFIX ++ leaf_data) * 8 <? 2 ^ 64
            then negative_shift else pack_overflow))
  /\ (forall leaf_data proof is_right root verdict,
        Merkle.verify_proof sm3_hash_optimized leaf_data proof is_right root
        <> Ok verdict)
  /\ Merkle.verify_proof sm3_hash_optimized (b "a_tampered") [] []
       "0000000000000000000000000000000000000000000000000000000000000000"
     = Raise negative_shift
  /\ Merkle.verify_proof sm3_hash_optimized (b "a")
       ["0000000000000000000000000000000000000000000000000000000000000000"%string]
       [true]
       "0000000000000000000000000000000000000000000000000000000000000000"
     = Raise negative_shift.
Proof.
  assert (H : forall leaf_data proof is_right root,
             Merkle.verify_proof sm3_hash_optimized leaf_data proof is_right root =
             Raise (if len (RFC6962_LEAF_PREFIX ++ leaf_data) * 8 <? 2 ^ 64
                    then negative_shift else pack_overflow)).
  { intros leaf_data proof is_right root.
    unfold Merkle.verify_proof, Merkle.hash_leaf.
    rewrite sm3_hash_optimized_Raise. cbn [bind]. reflexivity. }
  split; [exact H|].
  split; [intros leaf_data proof is_right root verdict; rewrite H; discriminate|].
  split; vm_compute; reflexivity.
Qed.

(** C9 (the code departs from it).  The claim gives the empty tree the
    height 0 and every other tree the size [2^ceil(log2(n))].  The
    constructor returns early on the empty list, before the lines that
    set [height] and [size]: reading either raises [AttributeError],
    in [get_non_existence_proof] too, which reads [size] unguarded.
    And on the engine of the repository no tree with a leaf is built,
    so no size can be read: the constructor raises on every non-empty
    list, as on the lists of the source's own tests, which expect the
    sizes 4 and 4. *)
Theorem tree_size_never_read :
  (t <- Merkle.init sm3_hash_optimized [] ;; Ok (root t)) = Ok RFC6962_EMPTY_ROOT
  /\ (t <- Merkle.init sm3_hash_optimized [] ;; attr "height" (height t))
     = Raise (AttributeError "height")
  /\ (t <- Merkle.init sm3_hash_optimized [] ;; attr "size" (size t))
     = Raise (AttributeError "size")
  /\ (t <- Merkle.init sm3_hash_optimized [] ;; Merkle.get_non_existence_proof t 0)
     = Raise (AttributeError "size")
  /\ (forall leaf leaves,
        exists e, Merkle.init sm3_hash_optimized (leaf :: leaves) = Raise e)
  /\ Merkle.init sm3_hash_optimized [b "a"; b "b"; b "c"; b "d"] = Raise negative_shift
  /\ Merkle.init sm3_hash_optimized [b "x"; b "y"; b "z"] = Raise negative_shift.
Proof.
  do 4 (split; [reflexivity|]).
  split; [exact real_init_Raise|].
  split; vm_compute; reflexivity.
Qed.

(** C4 (the code departs from it).  On the engine of the repository no
    tree with a leaf can be built and no proof can be checked: the
    constructor raises on every non-empty list, as on the four leaves
    of the source's own test, and [verify_proof] raises on every
    input. *)
Theorem tree_round_trip_raises :
  (forall leaf leaves, exists e, Merkle.init sm3_hash_optimized (leaf :: leaves) = Raise e)
  /\ Merkle.init sm3_hash_optimized [b "leaf1"; b "leaf2"; b "leaf3"; b "leaf4"]
     = Raise negative_shift
  /\ (forall leaf_data proof is_right root,
        exists e,
          Merkle.verify_proof sm3_hash_optimized leaf_data proof is_right root = Raise e).
Proof.
  split; [exact real_init_Raise|]. split; [vm_compute; reflexivity|].
  exact real_verify_proof_Raise.
Qed.

(** C8 (the code departs from it).  On the engine of the repository the
    tree of the source's own absence test (five leaves, index 5) is
    never built, and [verify_non_existence] raises whenever it is given
    a left neighbour to check. *)
Theorem absence_proof_raises :
  Merkle.init sm3_hash_optimized [b "0"; b "1"; b "2"; b "3"; b "4"] = Raise negative_shift
  /\ (forall leaf leaves, exists e, Merkle.init sm3_hash_optimized (leaf :: leaves) = Raise e)
  /\ (forall self index left_data left_proof left_is_right
             right_data right_proof right_is_right,
        exists e,
          Merkle.verify_non_existence sm3_hash_optimized self index
            (Some left_data) left_proof left_is_right
            right_data right_proof right_is_right = Raise e).
Proof.
  split; [vm_compute; reflexivity|]. split; [exact real_init_Raise|].
  intros. unfold Merkle.verify_non_existence.
  destruct (real_verify_proof_Raise left_data left_proof left_is_right (root self))
    as [e ->].
  cbn [bind]. eauto.
Qed.

(** ** The forger *)

Lemma collect_length {X} (f : Z -> result X) js : forall acc V,
  foldM (fun V i => x <- f i ;; Ok (V ++ [x])) js acc = Ok V ->
  List.length V = (List.length acc + List.length js)%nat.
Proof.
  induction js as [|j js IH]; intros acc V; cbn [foldM].
  - intros <-%Ok_inj. cbn. lia.
  - destruct (f j) as [x|]; [|discriminate]. cbn [bind].
    intros H%IH. rewrite length_app in H. cbn [List.length] in *. lia.
Qed.

Lemma parse_hash_length h V : parse_hash h = Ok V -> List.length V = 8%nat.
Proof.
  unfold parse_hash. destruct (negb _); [discriminate|].
  intros H%collect_length. exact H.
Qed.

(** Resuming the block loop from any state of eight words stops in the
    first block as well. *)
Lemma resumed_loop_Raise p V :
  64 <= len p -> List.length V = 8%nat ->
  foldM (fun V i => _compression V (slice p i (i + 64)))
    (range_step 0 (len p) 64) V = Raise negative_shift.
Proof.
  intros Hp HV. unfold range_step.
  destruct (Z.to_nat ((len p - 0 + 64 - 1) / 64)) as [|k] eqn:E.
  - exfalso. assert (1 <= (len p - 0 + 64 - 1) / 64)
      by (apply Z.div_le_lower_bound; lia). lia.
  - cbn [range_from foldM].
    now rewrite <- compression_same, compression_Raise by (apply slice_block, Hp || exact HV).
Qed.

Lemma _padding_cases m :
  (exists p, _padding m = Ok p /\ 64 <= len p /\ len p mod 64 = 0)
  \/ _padding m = Raise pack_overflow.
Proof.
  destruct (Z.ltb_spec (len m * 8) (2 ^ 64)).
  - left. now apply _padding_shape.
  - right. unfold _padding. now rewrite struct_pack_Q_Raise.
Qed.

(** The forger never returns either, whatever digest, length and
    suffix it is given. *)
Lemma attack_Raise h L suffix :
  exists e, sm3_length_extension_attack h L suffix = Raise e.
Proof.
  unfold sm3_length_extension_attack.
  destruct (parse_hash h) as [V|] eqn:EV; [|cbn [bind]; eauto]. cbn [bind].
  destruct (_padding (repeat "X"%byte (Z.to_nat L))) as [pp|]; [|cbn [bind]; eauto].
  cbn [bind].
  destruct (_padding_cases suffix) as [(ps & -> & Hps & _) | ->]; [|cbn [bind]; eauto].
  cbn [bind]. rewrite resumed_loop_Raise by (assumption || eapply parse_hash_length, EV).
  cbn [bind]. eauto.
Qed.

Lemma byte_val_of_Z z : byte_val (byte_of_Z z) = z mod 256.
Proof.
  unfold byte_val, byte_of_Z.
  pose proof (Z.mod_pos_bound z 256 ltac:(lia)) as Hb.
  destruct (Byte.of_N (Z.to_N (z mod 256))) as [c|] eqn:E.
  - apply Byte.to_of_N in E. rewrite E. lia.
  - apply Byte.of_N_None_iff in E. lia.
Qed.

Lemma le_value_le_bytes n : forall z, le_value (le_bytes n z) = z mod 256 ^ Z.of_nat n.
Proof.
  induction n as [|n IH]; intros z.
  - cbn. now rewrite Z.mod_1_r.
  - cbn [le_bytes le_value]. rewrite byte_val_of_Z, IH.
    rewrite Nat2Z.inj_succ, Z.pow_succ_r by lia.
    rewrite Z.rem_mul_r by lia. reflexivity.
Qed.

Lemma _padding_Ok_inv m p :
  _padding m = Ok p ->
  len m * 8 < 2 ^ 64
  /\ p = m ++ [x80] ++ repeat x00 (Z.to_nat ((55 - len m) mod 64))
           ++ le_bytes 8 (len m * 8).
Proof.
  unfold _padding. pose proof (len_nonneg m).
  destruct (Z.ltb_spec (len m * 8) (2 ^ 64)).
  - rewrite struct_pack_Q_Ok by lia. cbn [bind]. intros <-%Ok_inj. auto.
  - rewrite struct_pack_Q_Raise by lia. discriminate.
Qed.

Lemma slice_from_app {A} (l r : list A) : slice_from (l ++ r) (len l) = r.
Proof.
  unfold slice_from, clip. pose proof (len_nonneg l). pose proof (len_nonneg r).
  destruct (Z.ltb_spec (len l) 0); [lia|].
  rewrite Z.min_r by (rewrite len_app; lia).
  unfold len. rewrite Nat2Z.id, skipn_app, skipn_all, Nat.sub_diag. reflexivity.
Qed.

(** The blocks the forger compresses are not the blocks the engine
    compresses after the prefix: the forger pads the suffix as a
    message of its own, so its last block carries the bit length of the
    suffix, while the real padding carries the bit length of prefix,
    glue and suffix together. *)
Lemma forged_blocks_differ prefix suffix p0 pm ps :
  _padding prefix = Ok p0 ->
  _padding (p0 ++ suffix) = Ok pm ->
  _padding suffix = Ok ps ->
  slice_from pm (len p0) <> ps.
Proof.
  intros H0 Hm Hs.
  destruct (_padding_cases prefix) as [(p0' & E0 & Hlen0 & Hmod0) | E0];
    [|congruence].
  assert (p0' = p0) by congruence. subst p0'. clear E0 H0.
  apply _padding_Ok_inv in Hm. destruct Hm as [Hbm ->].
  apply _padding_Ok_inv in Hs. destruct Hs as [Hbs ->].
  pose proof (len_nonneg suffix) as Hs0. rewrite len_app in *.
  rewrite <- app_assoc, slice_from_app.
  intros Heq. do 2 apply app_inv_head in Heq.
  replace ((55 - (len p0 + len suffix)) mod 64) with ((55 - len suffix) mod 64) in Heq
    by (Z.div_mod_to_equations; lia).
  apply app_inv_head in Heq.
  apply (f_equal le_value) in Heq. rewrite !le_value_le_bytes in Heq.
  change (256 ^ Z.of_nat 8) with (2 ^ 64) in Heq.
  rewrite !Z.mod_small in Heq by lia. lia.
Qed.

(** C1 (the code departs from it).  The check of the claim never
    comes out true: on the pair of the source's own test, and on every
    pair, hashing the prefix raises; the forger itself raises on every
    input; and the blocks it would compress are not those the engine
    compresses after the prefix. *)
Theorem length_extension_raises :
  extension_check (b "") (b "append") = Raise negative_shift
  /\ (forall prefix suffix, exists e, extension_check prefix suffix = Raise e)
  /\ (forall h L suffix, exists e, sm3_length_extension_attack h L suffix = Raise e)
  /\ (forall prefix suffix p0 pm ps,
        _padding prefix = Ok p0 -> _padding (p0 ++ suffix) = Ok pm ->
        _padding suffix = Ok ps -> slice_from pm (len p0) <> ps).
Proof.
  split; [vm_compute; reflexivity|].
  split; [|split; [exact attack_Raise | exact forged_blocks_differ]].
  intros prefix suffix. unfold extension_check.
  rewrite sm3_hash_optimized_Raise. cbn [bind]. eauto.
Qed.

Lemma length_extension_raises_witness :
  let p0 := unwrap (_padding (b "")) in
  let pm := unwrap (_padding (p0 ++ b "append")) in
  let ps := unwrap (_padding (b "append")) in
  slice_from pm (len p0) <> ps.
Proof.
  intros p0 pm ps.
  destruct length_extension_raises as (_ & _ & _ & H).
  apply (H (b "") (b "append") p0 pm ps); vm_compute; reflexivity.
Defined.

(** ** The tree over any engine: levels and paths *)

Lemma list_pair_ind {A} (P : list A -> Prop) :
  P [] -> (forall a, P [a]) -> (forall a c r, P r -> P (a :: c :: r)) ->
  forall l, P l.
Proof.
  intros H0 H1 H2.
  assert (H : forall l, P l /\ forall a, P (a :: l)).
  { induction l as [|x l [IH1 IH2]]; split; auto. }
  intros l. apply H.
Qed.

Lemma getitem_cons {A} (x : A) l i : 0 < i -> getitem (x :: l) i = getitem l (i - 1).
Proof.
  intros Hi. unfold getitem.
  destruct (Z.ltb_spec i 0); [lia|]. destruct (Z.ltb_spec (i - 1) 0); [lia|].
  destruct (Z.ltb_spec i 0); [lia|]. destruct (Z.ltb_spec (i - 1) 0); [lia|].
  replace (Z.to_nat i) with (S (Z.to_nat (i - 1))) by lia. reflexivity.
Qed.

Lemma getitem_Ok_range {A} (l : list A) i a :
  0 <= i -> getitem l i = Ok a -> i < len l.
Proof.
  intros Hi. unfold getitem. destruct (Z.ltb_spec i 0); [lia|].
  destruct (Z.ltb_spec i 0); [lia|].
  destruct (nth_error l (Z.to_nat i)) eqn:E; [|discriminate]. intros _.
  assert (Z.to_nat i < List.length l)%nat by (apply nth_error_Some; congruence).
  unfold len. lia.
Qed.

Lemma last_cons_default {A} (l : list A) : forall a d, last (a :: l) d = last l a.
Proof.
  induction l as [|y l IH]; intros a d; [reflexivity|].
  change (last (a :: y :: l) d) with (last (y :: l) d). now rewrite !IH.
Qed.

Section TreeStructure.

Variable engine : bytes -> result string.

(** The index loop of the constructor pairs the nodes up. *)
Lemma build_loop_pair_up : forall l pre acc,
  foldM (fun next_level i =>
           left <- getitem (pre ++ l) i ;;
           right <- (if i + 1 <? len (pre ++ l)
                     then getitem (pre ++ l) (i + 1) else Ok left) ;;
           parent <- Merkle.hash_nodes engine left right ;;
           Ok (next_level ++ [parent]))
    (range_from (len pre) 2 (Nat.div2 (S (List.length l)))) acc
  = (parents <- Merkle.pair_up engine l ;; Ok (acc ++ parents)).
Proof.
  induction l as [|a|a c r IH] using list_pair_ind; intros pre acc.
  - cbn. now rewrite app_nil_r.
  - cbn [List.length Nat.div2 range_from foldM Merkle.pair_up].
    rewrite getitem_middle. cbn [bind].
    destruct (Z.ltb_spec (len pre + 1) (len (pre ++ [a])));
      [rewrite len_app in *; change (len [a]) with 1 in *; lia|].
    cbn [bind]. destruct (Merkle.hash_nodes engine a a); reflexivity.
  - cbn [List.length Nat.div2 range_from foldM Merkle.pair_up].
    rewrite getitem_middle. cbn [bind].
    destruct (Z.ltb_spec (len pre + 1) (len (pre ++ a :: c :: r))) as [_|Hge].
    2:{ rewrite len_app in Hge. pose proof (len_nonneg r).
        replace (len (a :: c :: r)) with (2 + len r) in Hge
          by (unfold len; cbn [List.length]; lia). lia. }
    replace (getitem (pre ++ a :: c :: r) (len pre + 1)) with (Ok c).
    2:{ replace (pre ++ a :: c :: r) with ((pre ++ [a]) ++ c :: r)
          by now rewrite <- app_assoc.
        replace (len pre + 1) with (len (pre ++ [a]))
          by (rewrite len_app; reflexivity).
        now rewrite getitem_middle. }
    cbn [bind]. destruct (Merkle.hash_nodes engine a c) as [parent|]; [|reflexivity].
    cbn [bind].
    replace (len pre + 2) with (len (pre ++ [a; c]))
      by (rewrite len_app; reflexivity).
    replace (pre ++ a :: c :: r) with ((pre ++ [a; c]) ++ r)
      by now rewrite <- app_assoc.
    rewrite IH.
    destruct (Merkle.pair_up engine r) as [parents|]; [|reflexivity]. cbn [bind].
    now rewrite <- app_assoc.
Qed.

Lemma build_level_pair_up cur :
  Merkle.build_level engine cur = Merkle.pair_up engine cur.
Proof.
  unfold Merkle.build_level, range_step.
  replace (Z.to_nat ((len cur - 0 + 2 - 1) / 2)) with (Nat.div2 (S (List.length cur))).
  - pose proof (build_loop_pair_up cur [] []) as H. cbn [app] in H.
    change (len []) with 0 in H. rewrite H.
    destruct (Merkle.pair_up engine cur); reflexivity.
  - unfold len. rewrite Nat.div2_div.
    replace (Z.of_nat (List.length cur) - 0 + 2 - 1) with (Z.of_nat (S (List.length cur))) by lia.
    rewrite <- (Nat2Z.id (S (List.length cur) / 2)). f_equal.
    now rewrite Nat2Z.inj_div.
Qed.

(** Each parent is the hash of the pair below it. *)
Lemma pair_up_spec : forall l parents,
  Merkle.pair_up engine l = Ok parents ->
  (Nat.Even (List.length l) -> 2 * len parents = len l)
  /\ forall j, 0 <= j -> 2 * j + 1 < len l ->
       exists a c p, getitem l (2 * j) = Ok a /\ getitem l (2 * j + 1) = Ok c
                     /\ Merkle.hash_nodes engine a c = Ok p /\ getitem parents j = Ok p.
Proof.
  induction l as [|a|a c r IH] using list_pair_ind; intros parents H.
  - apply Ok_inj in H. subst parents. split; [reflexivity|].
    intros j Hj Hlt. unfold len in Hlt. cbn [List.length] in Hlt. lia.
  - split.
    + intros [k Hk]. cbn [List.length] in Hk. lia.
    + intros j Hj Hlt. unfold len in Hlt. cbn [List.length] in Hlt. lia.
  - cbn [Merkle.pair_up] in H. bind_inv H. bind_inv H. apply Ok_inj in H. subst parents.
    destruct (IH a1 eq_refl) as [Hlen Hpairs]. split.
    + intros Hev.
      assert (Hr : Nat.Even (List.length r)).
      { destruct Hev as [k Hk]. cbn [List.length] in Hk. exists (k - 1)%nat. lia. }
      specialize (Hlen Hr). unfold len in *. cbn [List.length]. lia.
    + intros j Hj Hlt. destruct (Z.eq_dec j 0) as [->|Hne].
      * exists a, c, a0. repeat split; auto.
      * destruct (Hpairs (j - 1)) as (x & y & p & Hx & Hy & Hp & Hq).
        { lia. }
        { unfold len in *. cbn [List.length] in Hlt. lia. }
        exists x, y, p. repeat split; auto.
        -- rewrite getitem_cons, getitem_cons by lia.
           now replace (2 * j - 1 - 1) with (2 * (j - 1)) by lia.
        -- rewrite getitem_cons, getitem_cons by lia.
           now replace (2 * j + 1 - 1 - 1) with (2 * (j - 1) + 1) by lia.
        -- now rewrite getitem_cons by lia.
Qed.

(** The index loop of [get_proof] follows the recursion on the levels. *)
Lemma proof_loop_path : forall levels pre post adjusted_index proof is_right,
  ('(_, p, f) <-
     foldM (fun '(adjusted_index, proof, is_right) level =>
              let '(sibling_index, is_right_flag) :=
                if adjusted_index mod 2 =? 0
                then (adjusted_index + 1, true)
                else (adjusted_index - 1, false) in
              nodes <- getitem (pre ++ levels ++ post) level ;;
              sibling <- getitem nodes sibling_index ;;
              Ok (adjusted_index / 2, proof ++ [sibling],
                  is_right ++ [is_right_flag]))
       (range_from (len pre) 1 (List.length levels))
       (adjusted_index, proof, is_right) ;;
   Ok (p, f))
  = ('(p, f) <- Merkle.path levels adjusted_index ;; Ok (proof ++ p, is_right ++ f)).
Proof.
  induction levels as [|nodes levels IH]; intros pre post a proof is_right.
  - cbn. now rewrite !app_nil_r.
  - cbn [List.length range_from foldM Merkle.path app].
    rewrite getitem_middle. cbn [bind].
    destruct (a mod 2 =? 0).
    + destruct (getitem nodes (a + 1)) as [sibling|]; [|reflexivity]. cbn [bind].
      specialize (IH (pre ++ [nodes]) post (a / 2) (proof ++ [sibling]) (is_right ++ [true])).
      rewrite <- app_assoc in IH. cbn [app] in IH.
      replace (len (pre ++ [nodes])) with (len pre + 1) in IH
        by (rewrite len_app; reflexivity).
      rewrite IH. destruct (Merkle.path levels (a / 2)) as [[p f]|]; [|reflexivity].
      cbn [bind]. now rewrite <- !app_assoc.
    + destruct (getitem nodes (a - 1)) as [sibling|]; [|reflexivity]. cbn [bind].
      specialize (IH (pre ++ [nodes]) post (a / 2) (proof ++ [sibling]) (is_right ++ [false])).
      rewrite <- app_assoc in IH. cbn [app] in IH.
      replace (len (pre ++ [nodes])) with (len pre + 1) in IH
        by (rewrite len_app; reflexivity).
      rewrite IH. destruct (Merkle.path levels (a / 2)) as [[p f]|]; [|reflexivity].
      cbn [bind]. now rewrite <- !app_assoc.
Qed.

(** Climbing from a node along its path through levels built one from
    the other arrives at the node on top. *)
Lemma chain_climb : forall uppers L i x,
  Merkle.chain engine L uppers ->
  len L = 2 ^ Z.of_nat (List.length uppers) ->
  0 <= i -> getitem L i = Ok x ->
  exists p f top0,
    Merkle.path (removelast (L :: uppers)) i = Ok (p, f)
    /\ Merkle.climb engine p f x = Ok top0
    /\ getitem (last uppers L) 0 = Ok top0.
Proof.
  induction uppers as [|L1 rest IH]; intros L i x Hchain Hlen Hi Hx.
  - pose proof (getitem_Ok_range _ _ _ Hi Hx) as Hlt.
    cbn in Hlen. assert (i = 0) by lia. subst i.
    exists [], [], x. repeat split. exact Hx.
  - destruct Hchain as [Hpair Hchain].
    pose proof (getitem_Ok_range _ _ _ Hi Hx) as Hlt.
    cbn [List.length] in Hlen. rewrite Nat2Z.inj_succ, Z.pow_succ_r in Hlen by lia.
    set (k := 2 ^ Z.of_nat (List.length rest)) in *.
    assert (Hk : 0 < k) by (apply Z.pow_pos_nonneg; lia).
    destruct (pair_up_spec L L1 Hpair) as [Hhalf Hpairs].
    assert (HL1 : len L1 = k).
    { assert (Hev : Nat.Even (List.length L)).
      { exists (Z.to_nat k). unfold len in Hlen. lia. }
      specialize (Hhalf Hev). lia. }
    destruct (Hpairs (i / 2)) as (a & c & p & Ha & Hc & Hp & Hq).
    { apply Z.div_pos; lia. }
    { Z.div_mod_to_equations. lia. }
    destruct (IH L1 (i / 2) p Hchain HL1) as (p' & f' & top0 & Hpath & Hclimb & Htop);
      [apply Z.div_pos; lia | exact Hq |].
    change (removelast (L :: L1 :: rest)) with (L :: removelast (L1 :: rest)).
    rewrite last_cons_default.
    cbn [Merkle.path]. destruct (Z.eqb_spec (i mod 2) 0) as [Hev|Hodd].
    + assert (Ei : i = 2 * (i / 2)) by (Z.div_mod_to_equations; lia).
      replace (i + 1) with (2 * (i / 2) + 1) by lia. rewrite Hc. cbn [bind].
      rewrite Hpath. cbn [bind].
      exists (c :: p'), (true :: f'), top0. repeat split; [|exact Htop].
      cbn [Merkle.climb]. rewrite Ei, Ha in Hx. apply Ok_inj in Hx. subst x.
      rewrite Hp. exact Hclimb.
    + assert (Ei : i = 2 * (i / 2) + 1) by (Z.div_mod_to_equations; lia).
      replace (i - 1) with (2 * (i / 2)) by lia. rewrite Ha. cbn [bind].
      rewrite Hpath. cbn [bind].
      exists (a :: p'), (false :: f'), top0. repeat split; [|exact Htop].
      cbn [Merkle.climb]. rewrite Ei, Hc in Hx. apply Ok_inj in Hx. subst x.
      rewrite Hp. exact Hclimb.
Qed.

(** The outer loop of the constructor stacks the levels, each built
    from the one below. *)
Lemma level_loop_chain {X} (js : list X) : forall tr cur tr' cur',
  foldM (fun '(tree, current_level) (_ : X) =>
           next_level <- Merkle.build_level engine current_level ;;
           Ok (tree ++ [next_level], next_level))
    js (tr, cur) = Ok (tr', cur') ->
  exists uppers,
    tr' = tr ++ uppers /\ Merkle.chain engine cur uppers
    /\ List.length uppers = List.length js.
Proof.
  induction js as [|j js IH]; intros tr cur tr' cur' H.
  - cbn in H. apply Ok_inj in H. injection H as <- <-.
    exists []. rewrite app_nil_r. repeat split.
  - cbn [foldM] in H. rewrite build_level_pair_up in H.
    destruct (Merkle.pair_up engine cur) as [next|] eqn:E; [|discriminate H].
    cbn [bind] in H. destruct (IH _ _ _ _ H) as (ups & -> & Hchain & Hlen).
    exists (next :: ups). rewrite <- app_assoc. repeat split; auto.
    cbn [List.length]. now rewrite Hlen.
Qed.

Lemma mapM_Ok {X Y} (f : X -> result Y) : forall xs ys,
  mapM f xs = Ok ys ->
  List.length ys = List.length xs
  /\ forall i x, nth_error xs i = Some x ->
       exists y, f x = Ok y /\ nth_error ys i = Some y.
Proof.
  induction xs as [|x xs IH]; intros ys H.
  - apply Ok_inj in H. subst ys. split; [reflexivity|]. intros [|i] y Hy; discriminate Hy.
  - cbn [mapM] in H. bind_inv H. bind_inv H. apply Ok_inj in H. subst ys.
    destruct (IH a0 eq_refl) as [Hlen Hnth]. split; [cbn; now rewrite Hlen|].
    intros [|i] z Hz; cbn in Hz.
    + assert (z = x) by congruence. subst z. eauto.
    + destruct (Hnth i z Hz) as (y & Hy1 & Hy2). eauto.
Qed.

Lemma nth_error_last {A} (l : list A) : forall x,
  nth_error (x :: l) (List.length l) = Some (last l x).
Proof.
  induction l as [|y l IH]; intros x; [reflexivity|].
  cbn [List.length nth_error]. now rewrite IH, last_cons_default.
Qed.

Lemma getitem_last {A} (x : A) l : getitem (x :: l) (-1) = Ok (last l x).
Proof.
  unfold getitem. cbn [Z.ltb Z.compare].
  replace (-1 + len (x :: l)) with (len l) by (unfold len; cbn [List.length]; lia).
  pose proof (len_nonneg l). destruct (Z.ltb_spec (len l) 0); [lia|].
  unfold len. now rewrite Nat2Z.id, nth_error_last.
Qed.

Lemma getitem_nth_error {A} (l : list A) i a :
  nth_error l i = Some a -> getitem l (Z.of_nat i) = Ok a.
Proof.
  intros H. unfold getitem.
  destruct (Z.ltb_spec (Z.of_nat i) 0); [lia|].
  destruct (Z.ltb_spec (Z.of_nat i) 0); [lia|].
  now rewrite Nat2Z.id, H.
Qed.

Lemma get_proof_path t L0 uppers index :
  tree t = L0 :: uppers -> height t = Some (Z.of_nat (List.length uppers)) ->
  0 <= index < leaf_count t ->
  Merkle.get_proof t index = Merkle.path (removelast (L0 :: uppers)) index.
Proof.
  intros Htree Hheight Hidx. unfold Merkle.get_proof.
  destruct (Z.ltb_spec index 0); [lia|].
  destruct (Z.leb_spec (leaf_count t) index); [lia|]. cbn [orb].
  rewrite Hheight. cbn [attr bind]. rewrite Htree.
  unfold range. rewrite Z.sub_0_r, Nat2Z.id.
  assert (Hne : L0 :: uppers <> []) by discriminate.
  pose proof (app_removelast_last L0 Hne) as Hsplit.
  assert (Hlen : List.length (removelast (L0 :: uppers)) = List.length uppers).
  { apply (f_equal (@List.length _)) in Hsplit.
    rewrite length_app in Hsplit. cbn [List.length] in Hsplit. lia. }
  pose proof (proof_loop_path (removelast (L0 :: uppers)) []
                [last (L0 :: uppers) L0] index [] []) as Hloop.
  cbn [app] in Hloop. rewrite <- Hsplit, Hlen in Hloop. change (len []) with 0 in Hloop.
  rewrite Hloop. destruct (Merkle.path _ index) as [[p f]|]; reflexivity.
Qed.

(** What the constructor has built when it returns from a non-empty
    list: the padded leaf level, the levels above it, and the root on
    top. *)
Lemma init_structure leaves t :
  Merkle.init engine leaves = Ok t -> 0 < len leaves ->
  exists L0 uppers,
    tree t = L0 :: uppers /\ Merkle.chain engine L0 uppers
    /\ height t = Some (Z.of_nat (List.length uppers))
    /\ size t = Some (len L0)
    /\ len L0 = 2 ^ Z.of_nat (List.length uppers)
    /\ leaf_count t = len leaves
    /\ getitem (last uppers L0) 0 = Ok (root t)
    /\ (forall i leaf, nth_error leaves i = Some leaf ->
          exists d, Merkle.hash_leaf engine leaf = Ok d
                    /\ getitem L0 (Z.of_nat i) = Ok d).
Proof.
  unfold Merkle.init. intros H Hn. bind_inv H.
  destruct (Z.eqb_spec (len leaves) 0) as [|_]; [lia|].
  unfold ceil_log2 in H. destruct (Z.leb_spec (len leaves) 0); [lia|].
  cbn [bind] in H.
  set (h := Z.log2_up (len leaves)) in *.
  assert (Hh : 0 <= h) by apply Z.log2_up_nonneg.
  assert (Hle : len leaves <= 2 ^ h).
  { destruct (Z.eq_dec (len leaves) 1) as [E1|N1].
    - rewrite E1. assert (0 < 2 ^ h) by (apply Z.pow_pos_nonneg; lia). lia.
    - apply Z.log2_up_spec. lia. }
  destruct (mapM_Ok _ _ _ E) as [Hlh Hnth].
  bind_inv H. rename a0 into L0. bind_inv H. destruct a0 as [tr cur].
  bind_inv H. bind_inv H. apply Ok_inj in H. subst t. cbn.
  destruct (level_loop_chain _ _ _ _ _ E1) as (uppers & -> & Hchain & Hlen).
  unfold range in Hlen. rewrite range_from_length, Z.sub_0_r in Hlen.
  assert (Hup : Z.of_nat (List.length uppers) = h) by lia.
  assert (HL0 : len L0 = 2 ^ h /\ exists pad, L0 = a ++ pad).
  { destruct (Z.ltb_spec (len leaves) (2 ^ h)).
    - bind_inv E0. apply Ok_inj in E0. subst L0. split; [|eauto].
      rewrite len_app. unfold len. rewrite repeat_length, Hlh. unfold len in *. lia.
    - apply Ok_inj in E0. subst L0. split; [|exists []; now rewrite app_nil_r].
      unfold len in *. lia. }
  destruct HL0 as [HL0 [pad Hpad]].
  exists L0, uppers. cbn [app] in *. rewrite Hup.
  repeat split; auto.
  - now rewrite HL0.
  - rewrite getitem_last in E2. apply Ok_inj in E2. now subst a0.
  - intros i leaf Hleaf. destruct (Hnth i leaf Hleaf) as (d & Hd & Hnd).
    exists d. split; [exact Hd|]. apply getitem_nth_error. subst L0.
    rewrite nth_error_app1; [exact Hnd|]. apply nth_error_Some. congruence.
Qed.

(** Over any engine: whenever the constructor returns, the proof of
    every leaf is produced and verifies against the root. *)
Lemma generic_round_trip leaves t i leaf :
  Merkle.init engine leaves = Ok t -> nth_error leaves i = Some leaf ->
  exists p f,
    Merkle.get_proof t (Z.of_nat i) = Ok (p, f)
    /\ Merkle.verify_proof engine leaf p f (root t) = Ok true.
Proof.
  intros Hinit Hleaf.
  assert (Hi : (i < List.length leaves)%nat) by (apply nth_error_Some; congruence).
  destruct (init_structure leaves t Hinit) as
    (L0 & uppers & Htree & Hchain & Hheight & _ & HL0 & Hcount & Hroot & Hleaves);
    [unfold len; lia|].
  destruct (Hleaves i leaf Hleaf) as (d & Hd & Hget).
  destruct (chain_climb uppers L0 (Z.of_nat i) d Hchain HL0 ltac:(lia) Hget)
    as (p & f & top0 & Hpath & Hclimb & Htop).
  exists p, f. split.
  - rewrite (get_proof_path t L0 uppers) by (auto; rewrite Hcount; unfold len; lia).
    exact Hpath.
  - rewrite verify_proof_climb, Hd. cbn [bind]. rewrite Hclimb. cbn [bind].
    f_equal. apply String.eqb_eq. congruence.
Qed.

Lemma find_below_down n : forall k hi,
  1 <= n -> n - 1 <= hi -> hi - (n - 1) < Z.of_nat k ->
  find (fun i => i <? n) (range_from hi (-1) k) = Some (n - 1).
Proof.
  induction k as [|k IH]; intros hi Hn Hhi Hk; [lia|].
  cbn [range_from find]. destruct (Z.ltb_spec hi n).
  - f_equal. lia.
  - apply IH; lia.
Qed.

(** Over any engine: on a tree built from at least one leaf,
    [get_non_existence_proof] raises the out-of-range error outside
    [0, size), the exists error on [0, leaf_count), and between
    [leaf_count] and [size] it returns the last leaf as left
    neighbour with its proof and no right neighbour;
    [verify_non_existence] accepts what it returns. *)
Lemma generic_absence leaves t index :
  Merkle.init engine leaves = Ok t -> 0 < len leaves ->
  exists sz,
    size t = Some sz /\ len leaves <= sz
    /\ (index < 0 \/ sz <= index ->
        Merkle.get_non_existence_proof t index
        = Raise (IndexError "index out of range"))
    /\ (0 <= index < len leaves ->
        Merkle.get_non_existence_proof t index
        = Raise (ValueError "a leaf exists at this index"))
    /\ (len leaves <= index < sz ->
        exists leaf p f,
          nth_error leaves (Z.to_nat (len leaves - 1)) = Some leaf
          /\ Merkle.get_proof t (len leaves - 1) = Ok (p, f)
          /\ Merkle.get_non_existence_proof t index
             = Ok (Some (len leaves - 1), p, f, None, [], [])
          /\ Merkle.verify_non_existence engine t index (Some leaf) p f None [] []
             = Ok true).
Proof.
  intros Hinit Hn.
  destruct (init_fields engine leaves t Hinit) as (Hcount & _ & Hfull).
  destruct (Hfull Hn) as [_ Hsize].
  set (sz := 2 ^ Z.log2_up (len leaves)) in *.
  assert (Hle : len leaves <= sz).
  { destruct (Z.eq_dec (len leaves) 1) as [E1|N1].
    - rewrite E1. assert (0 < sz) by (apply Z.pow_pos_nonneg;
        [lia | apply Z.log2_up_nonneg]). lia.
    - apply Z.log2_up_spec. lia. }
  exists sz. split; [exact Hsize|]. split; [exact Hle|].
  unfold Merkle.get_non_existence_proof. rewrite Hsize, Hcount. cbn [attr bind].
  split; [|split].
  - intros Hout.
    destruct (Z.ltb_spec index 0); [reflexivity|]. cbn [bind].
    destruct (Z.leb_spec sz index); [reflexivity|lia].
  - intros Hin.
    destruct (Z.ltb_spec index 0); [lia|]. cbn [bind].
    destruct (Z.leb_spec sz index); [lia|].
    destruct (Z.ltb_spec index (len leaves)); [reflexivity|lia].
  - intros Hgap.
    destruct (nth_error leaves (Z.to_nat (len leaves - 1))) as [leaf|] eqn:Hleaf.
    2:{ apply nth_error_None in Hleaf. unfold len in *. lia. }
    destruct (generic_round_trip leaves t _ leaf Hinit Hleaf) as (p & f & Hproof & Hverify).
    rewrite Z2Nat.id in Hproof by lia.
    exists leaf, p, f. split; [reflexivity|]. split; [exact Hproof|].
    destruct (Z.ltb_spec index 0); [lia|]. cbn [bind].
    destruct (Z.leb_spec sz index); [lia|].
    destruct (Z.ltb_spec index (len leaves)); [lia|].
    split.
    + unfold range_down. rewrite find_below_down by lia.
      rewrite Hproof. cbn [bind].
      unfold range. replace (Z.to_nat (len leaves - (index + 1))) with 0%nat by lia.
      reflexivity.
    + unfold Merkle.verify_non_existence. rewrite Hverify. reflexivity.
Qed.

Lemma mapM_total {X Y} (f : X -> result Y) (P : Y -> Prop) xs :
  (forall x, exists y, f x = Ok y /\ P y) ->
  exists ys, mapM f xs = Ok ys /\ Forall P ys.
Proof.
  intros Hf. induction xs as [|x xs (ys & E & F)]; [cbn; eauto|].
  destruct (Hf x) as (y & Ey & Py). cbn [mapM]. rewrite Ey, E. cbn [bind]. eauto.
Qed.

Hypothesis engine_ok : engine_returns_digests engine.

Lemma pair_up_total : forall l,
  Forall hex_text l ->
  exists parents, Merkle.pair_up engine l = Ok parents /\ Forall hex_text parents.
Proof.
  induction l as [|a|a c r IH] using list_pair_ind; intros HF.
  - cbn. eauto.
  - inversion HF as [|? ? Ha _]; subst. cbn [Merkle.pair_up].
    destruct (hash_nodes_ok engine engine_ok a a Ha Ha) as (p & -> & Hp).
    cbn [bind]. eauto.
  - inversion HF as [|? ? Ha HF']; subst. inversion HF' as [|? ? Hc Hr]; subst.
    cbn [Merkle.pair_up].
    destruct (hash_nodes_ok engine engine_ok a c Ha Hc) as (p & -> & Hp).
    destruct (IH Hr) as (ps & -> & Hps). cbn [bind]. eauto.
Qed.

Lemma level_loop_total {X} (js : list X) : forall tr cur,
  Forall hex_text cur ->
  exists tr' cur',
    foldM (fun '(tree, current_level) (_ : X) =>
             next_level <- Merkle.build_level engine current_level ;;
             Ok (tree ++ [next_level], next_level))
      js (tr, cur) = Ok (tr', cur').
Proof.
  induction js as [|j js IH]; intros tr cur HF; [cbn; eauto|].
  cbn [foldM]. rewrite build_level_pair_up.
  destruct (pair_up_total cur HF) as (next & -> & Hnext). cbn [bind].
  apply IH, Hnext.
Qed.

Lemma chain_top_length : forall uppers L,
  Merkle.chain engine L uppers -> len L = 2 ^ Z.of_nat (List.length uppers) ->
  len (last uppers L) = 1.
Proof.
  induction uppers as [|L1 rest IH]; intros L Hchain Hlen; [exact Hlen|].
  destruct Hchain as [Hpair Hchain]. rewrite last_cons_default. apply IH; [exact Hchain|].
  cbn [List.length] in Hlen. rewrite Nat2Z.inj_succ, Z.pow_succ_r in Hlen by lia.
  destruct (pair_up_spec L L1 Hpair) as [Hhalf _].
  assert (Hev : Nat.Even (List.length L)).
  { exists (Z.to_nat (2 ^ Z.of_nat (List.length rest))).
    assert (0 < 2 ^ Z.of_nat (List.length rest)) by (apply Z.pow_pos_nonneg; lia).
    unfold len in Hlen. lia. }
  specialize (Hhalf Hev). lia.
Qed.

(** Over an engine that returns digests the constructor returns a
    tree for every list of leaves. *)
Lemma init_total leaves : exists t, Merkle.init engine leaves = Ok t.
Proof.
  unfold Merkle.init.
  destruct (mapM_total (Merkle.hash_leaf engine) hex_text leaves
              (hash_leaf_ok engine engine_ok)) as (lh & Elh & Flh).
  rewrite Elh. cbn [bind].
  destruct (Z.eqb_spec (len leaves) 0) as [|Hne]; [eauto|].
  pose proof (len_nonneg leaves) as Hn.
  unfold ceil_log2. destruct (Z.leb_spec (len leaves) 0); [lia|]. cbn [bind].
  set (h := Z.log2_up (len leaves)).
  assert (Hh : 0 <= h) by apply Z.log2_up_nonneg.
  assert (Hle : len leaves <= 2 ^ h).
  { destruct (Z.eq_dec (len leaves) 1) as [E1|N1].
    - rewrite E1. assert (0 < 2 ^ h) by (apply Z.pow_pos_nonneg; lia). lia.
    - apply Z.log2_up_spec. lia. }
  destruct (mapM_Ok _ _ _ Elh) as [Hlen _].
  assert (HL0 : exists L0,
             (if len leaves <? 2 ^ h
              then empty_hash <- Merkle.hash_leaf engine [] ;;
                   Ok (lh ++ repeat empty_hash (Z.to_nat (2 ^ h - len leaves)))
              else Ok lh) = Ok L0
             /\ Forall hex_text L0 /\ len L0 = 2 ^ h).
  { destruct (Z.ltb_spec (len leaves) (2 ^ h)).
    - destruct (hash_leaf_ok engine engine_ok []) as (e & -> & He). cbn [bind].
      eexists. split; [reflexivity|]. split.
      + apply Forall_app. split; [exact Flh|].
        apply Forall_forall. intros x Hx. apply repeat_spec in Hx. now subst x.
      + rewrite len_app. unfold len in *. rewrite repeat_length. lia.
    - exists lh. repeat split; [exact Flh|]. unfold len in *. lia. }
  destruct HL0 as (L0 & -> & FL0 & HlenL0). cbn [bind].
  destruct (level_loop_total (range 0 h) [L0] L0 FL0) as (tr & cur & Eloop).
  rewrite Eloop. cbn [bind].
  destruct (level_loop_chain _ _ _ _ _ Eloop) as (uppers & -> & Hchain & Hup).
  unfold range in Hup. rewrite range_from_length, Z.sub_0_r in Hup.
  cbn [app]. rewrite getitem_last. cbn [bind].
  assert (Htop : len (last uppers L0) = 1).
  { apply chain_top_length; [exact Hchain|]. rewrite HlenL0. f_equal. lia. }
  destruct (getitem_nth (last uppers L0) 0) as (r & -> & _); [lia|].
  cbn [bind]. eauto.
Qed.

End TreeStructure.

(** * Further properties of the code *)

(** ** Padding *)

Lemma le_value_le_bytes_small n z :
  0 <= z < 256 ^ Z.of_nat n -> le_value (le_bytes n z) = z.
Proof. intros Hz. rewrite le_value_le_bytes. now apply Z.mod_small. Qed.

Lemma padding_Ok m :
  len m * 8 < 2 ^ 64 ->
  padding m = Ok (m ++ [x80] ++ repeat x00 (Z.to_nat ((55 - len m) mod 64))
                    ++ le_bytes 8 (len m * 8)).
Proof.
  intros Hm. rewrite padding_same. unfold _padding. pose proof (len_nonneg m).
  now rewrite struct_pack_Q_Ok by lia.
Qed.

(** X1.  [padding] and [_padding] lay the message out as: the message,
    the byte 0x80, fewer than 64 zero bytes, and the bit length in
    eight little-endian bytes; the whole is [64 * ((len + 72) // 64)]
    bytes, a whole number of blocks.  From 2^61 bytes on, both raise
    [struct.error] instead. *)
Theorem padding_layout (m : bytes) :
  (len m * 8 < 2 ^ 64
   /\ exists k p,
        0 <= k < 64
        /\ p = m ++ [x80] ++ repeat x00 (Z.to_nat k) ++ le_bytes 8 (len m * 8)
        /\ padding m = Ok p /\ _padding m = Ok p
        /\ len p = 64 * ((len m + 72) / 64)
        /\ le_value (le_bytes 8 (len m * 8)) = len m * 8)
  \/ (2 ^ 64 <= len m * 8
      /\ padding m = Raise pack_overflow /\ _padding m = Raise pack_overflow).
Proof.
  pose proof (len_nonneg m) as Hn.
  destruct (Z.ltb_spec (len m * 8) (2 ^ 64)) as [Hlt|Hge]; [left|right].
  - split; [exact Hlt|]. exists ((55 - len m) mod 64). eexists.
    split; [apply Z.mod_pos_bound; lia|]. split; [reflexivity|].
    split; [now apply padding_Ok|]. split; [rewrite <- padding_same; now apply padding_Ok|].
    split.
    + rewrite !len_app. change (len [x80]) with 1.
      replace (len (le_bytes 8 (len m * 8))) with 8
        by (unfold len; now rewrite le_bytes_length).
      replace (len (repeat x00 (Z.to_nat ((55 - len m) mod 64))))
        with ((55 - len m) mod 64)
        by (unfold len; rewrite repeat_length, Z2Nat.id;
            [reflexivity | apply Z.mod_pos_bound; lia]).
      set (n := len m) in *. clearbody n. Z.div_mod_to_equations. lia.
    + apply le_value_le_bytes_small. change (256 ^ Z.of_nat 8) with (2 ^ 64). lia.
  - split; [exact Hge|]. rewrite padding_same. unfold _padding.
    rewrite struct_pack_Q_Raise by exact Hge. auto.
Qed.

Lemma app_eq_same_length {A} (l1 l2 r1 r2 : list A) :
  l1 ++ r1 = l2 ++ r2 -> List.length r1 = List.length r2 -> l1 = l2 /\ r1 = r2.
Proof.
  intros E Hr.
  assert (Hl : List.length l1 = List.length l2).
  { apply (f_equal (@List.length A)) in E. rewrite !length_app in E. lia. }
  clear Hr. revert l2 E Hl.
  induction l1 as [|a l1 IH]; intros [|a2 l2] E Hl; try discriminate.
  - now split.
  - cbn [app] in E. inversion E as [[Ea E']]. subst a2.
    destruct (IH l2 E') as [-> ->]; [cbn [List.length] in Hl; lia|]. now split.
Qed.

Lemma app_eq_same_prefix_length {A} (l1 l2 r1 r2 : list A) :
  l1 ++ r1 = l2 ++ r2 -> List.length l1 = List.length l2 -> l1 = l2 /\ r1 = r2.
Proof.
  intros E Hl. apply app_eq_same_length; [exact E|].
  apply (f_equal (@List.length A)) in E. rewrite !length_app in E. lia.
Qed.

Lemma _padding_length_of p m : _padding m = Ok p -> exists pre, p = pre ++ le_bytes 8 (len m * 8)
  /\ pre = m ++ [x80] ++ repeat x00 (Z.to_nat ((55 - len m) mod 64)) /\ len m * 8 < 2 ^ 64.
Proof.
  intros H. apply _padding_Ok_inv in H. destruct H as [Hb ->].
  eexists. split; [|split; [reflexivity | exact Hb]]. now rewrite <- !app_assoc.
Qed.

(** X2.  Padding is injective: two different messages never have the
    same padded form, because the padded form ends in the length of
    the message and begins with the message. *)
Theorem padding_injective (m m' p p' : bytes) :
  m <> m' -> padding m = Ok p -> padding m' = Ok p' -> p <> p'.
Proof.
  intros Hne H H' Heq. subst p'. rewrite padding_same in H, H'.
  destruct (_padding_length_of _ _ H) as (pre & Ep & Epre & Hb).
  destruct (_padding_length_of _ _ H') as (pre' & Ep' & Epre' & Hb').
  rewrite Ep in Ep'.
  destruct (app_eq_same_length _ _ _ _ Ep') as [_ Eq];
    [now rewrite !le_bytes_length|].
  apply (f_equal le_value) in Eq.
  pose proof (len_nonneg m). pose proof (len_nonneg m').
  rewrite !le_value_le_bytes_small in Eq
    by (change (256 ^ Z.of_nat 8) with (2 ^ 64); lia).
  assert (Hlen : len m = len m') by lia.
  apply Hne. rewrite Epre, Epre', Hlen in Ep'.
  rewrite <- !app_assoc in Ep'.
  apply app_eq_same_prefix_length in Ep'; [apply Ep'|]. unfold len in Hlen. lia.
Qed.

Lemma padding_injective_witness :
  unwrap (padding (b "abc")) <> unwrap (padding (b "abd")).
Proof.
  apply (padding_injective (b "abc") (b "abd")).
  - discriminate.
  - vm_compute. reflexivity.
  - vm_compute. reflexivity.
Defined.

(** X3.  The padding that follows a message depends on its length
    alone: the padding that the forger rebuilds from a placeholder of
    the same length, put behind the real message, is the padded real
    message. *)
Theorem padding_rebuilt_from_length (prefix p : bytes) :
  _padding prefix = Ok p ->
  exists placeholder_padded,
    _padding (repeat "X"%byte (Z.to_nat (len prefix))) = Ok placeholder_padded
    /\ prefix ++ slice_from placeholder_padded (len prefix) = p
    /\ len placeholder_padded = len p.
Proof.
  intros H. apply _padding_Ok_inv in H. destruct H as [Hb ->].
  set (ph := repeat "X"%byte (Z.to_nat (len prefix))).
  assert (Hph : len ph = len prefix).
  { unfold ph, len. now rewrite repeat_length, Nat2Z.id. }
  eexists. split.
  - unfold _padding. rewrite Hph, struct_pack_Q_Ok by (pose proof (len_nonneg prefix); lia).
    cbn [bind]. reflexivity.
  - split.
    + rewrite <- Hph. rewrite slice_from_app. reflexivity.
    + rewrite !len_app, Hph. reflexivity.
Qed.

Lemma padding_rebuilt_from_length_witness :
  exists placeholder_padded,
    _padding (repeat "X"%byte (Z.to_nat (len (b "secret_key=")))) = Ok placeholder_padded
    /\ b "secret_key=" ++ slice_from placeholder_padded (len (b "secret_key="))
       = unwrap (_padding (b "secret_key="))
    /\ len placeholder_padded = len (unwrap (_padding (b "secret_key="))).
Proof.
  apply (padding_rebuilt_from_length (b "secret_key=")).
  vm_compute. reflexivity.
Defined.

(** ** Rotation and the Boolean functions, bit by bit *)

Lemma word_of_bits v : (forall k, 32 <= k -> Z.testbit v k = false) -> word v.
Proof.
  intros H. assert (E : Z.land v mask32 = v).
  { rewrite mask32_ones. apply Z.bits_inj'. intros n Hn. rewrite Z.land_spec.
    destruct (Z.ltb_spec n 32).
    - rewrite Z.ones_spec_low by lia. apply andb_true_r.
    - rewrite H by lia. reflexivity. }
  rewrite <- E. apply land_mask32_word.
Qed.

Lemma word_eq_bits a c :
  word a -> word c ->
  (forall k, 0 <= k < 32 -> Z.testbit a k = Z.testbit c k) -> a = c.
Proof.
  intros Ha Hc H. apply Z.bits_inj'. intros n Hn. destruct (Z.ltb_spec n 32).
  - apply H; lia.
  - now rewrite !word_testbit_high by (assumption || lia).
Qed.

Lemma rotate_left_bits x n :
  word x -> 0 <= n <= 32 ->
  exists y, rotate_left x n = Ok y /\ word y
    /\ forall k, 0 <= k < 32 -> Z.testbit y k = Z.testbit x ((k - n) mod 32).
Proof.
  intros Hx Hn. rewrite rotate_left_Ok by assumption. eexists.
  split; [reflexivity|]. split.
  - apply word_of_bits. intros k Hk.
    rewrite Z.lor_spec, !Z.land_spec, mask32_ones, Z.ones_spec_high by lia.
    now rewrite !andb_false_r.
  - intros k Hk.
    rewrite Z.lor_spec, !Z.land_spec, mask32_ones, Z.ones_spec_low, !andb_true_r by lia.
    rewrite Z.shiftl_spec, Z.shiftr_spec by lia.
    destruct (Z.ltb_spec k n).
    + rewrite (Z.testbit_neg_r x (k - n)) by lia. cbn [orb].
      f_equal. Z.div_mod_to_equations. lia.
    + rewrite (word_testbit_high x (k + (32 - n))) by (assumption || lia).
      rewrite orb_false_r. f_equal. Z.div_mod_to_equations. lia.
Qed.

(** X4.  On a 32-bit word [rotate_left] and [_rotate_left] return for
    a count from 0 to 32: the result is the word whose bit [k] is bit
    [(k - n) mod 32] of the argument.  For a negative count, and for a
    count from 33 to 63 as the later rounds of the compression pass
    it, both raise [ValueError] (negative shift count): the count is
    not reduced modulo 32. *)
Theorem rotate_left_outcome (x n : Z) :
  word x ->
  (0 <= n <= 32 ->
   exists y, rotate_left x n = Ok y /\ _rotate_left x n = Ok y /\ word y
     /\ forall k, 0 <= k < 32 -> Z.testbit y k = Z.testbit x ((k - n) mod 32))
  /\ (n < 0 \/ 32 < n < 64 ->
      rotate_left x n = Raise negative_shift
      /\ _rotate_left x n = Raise negative_shift).
Proof.
  intros Hx. split.
  - intros Hn. destruct (rotate_left_bits x n Hx Hn) as (y & E & Hy & Hb).
    exists y. rewrite <- rotate_left_same. auto.
  - intros Hn. rewrite <- rotate_left_same.
    assert (E : rotate_left x n = Raise negative_shift).
    { destruct Hn as [Hn|Hn]; [|apply rotate_left_Raise; lia].
      unfold rotate_left, py_lshift.
      destruct (n <? 0) eqn:E1; [reflexivity | apply Z.ltb_ge in E1; lia]. }
    now rewrite E.
Qed.

Lemma rotate_left_outcome_witness :
  (exists y, rotate_left 0x80000001 1 = Ok y /\ _rotate_left 0x80000001 1 = Ok y
     /\ word y
     /\ forall k, 0 <= k < 32 ->
          Z.testbit y k = Z.testbit 0x80000001 ((k - 1) mod 32))
  /\ rotate_left 0x80000001 33 = Raise negative_shift
  /\ _rotate_left 0x80000001 33 = Raise negative_shift.
Proof.
  assert (Hw : word 0x80000001) by (unfold word; lia).
  split.
  - apply (rotate_left_outcome 0x80000001 1 Hw). lia.
  - apply (rotate_left_outcome 0x80000001 33 Hw). lia.
Defined.

(** X5.  Rotations compose by adding their counts, as long as the sum
    stays within 32; rotating by [a] and then by [32 - a] gives the
    word back. *)
Theorem rotate_left_compose (x a c y z : Z) :
  word x -> 0 <= a -> 0 <= c -> a + c <= 32 ->
  rotate_left x a = Ok y -> rotate_left y c = Ok z ->
  rotate_left x (a + c) = Ok z /\ (a + c = 32 -> z = x).
Proof.
  intros Hx Ha Hc Hac Ey Ez.
  destruct (rotate_left_bits x a Hx) as (y' & Ey' & Hy & By); [lia|].
  rewrite Ey in Ey'. apply Ok_inj in Ey'. subst y'.
  destruct (rotate_left_bits y c Hy) as (z' & Ez' & Hz & Bz); [lia|].
  rewrite Ez in Ez'. apply Ok_inj in Ez'. subst z'.
  destruct (rotate_left_bits x (a + c) Hx) as (s & Es & Hs & Bs); [lia|].
  assert (Hbits : forall k, 0 <= k < 32 ->
            Z.testbit z k = Z.testbit x ((k - (a + c)) mod 32)).
  { intros k Hk. rewrite Bz by exact Hk.
    rewrite By by (apply Z.mod_pos_bound; lia).
    rewrite Zminus_mod_idemp_l. f_equal. f_equal. lia. }
  split.
  - rewrite Es. f_equal. apply word_eq_bits; [assumption..|].
    intros k Hk. now rewrite Bs, Hbits.
  - intros E32. apply word_eq_bits; [assumption..|].
    intros k Hk. rewrite Hbits by exact Hk. f_equal. rewrite E32.
    Z.div_mod_to_equations. lia.
Qed.

Lemma rotate_left_compose_witness :
  rotate_left 0x12345678 32 = Ok (value_or 0 (rotate_left (value_or 0 (rotate_left 0x12345678 12)) 20))
  /\ (12 + 20 = 32 ->
      value_or 0 (rotate_left (value_or 0 (rotate_left 0x12345678 12)) 20) = 0x12345678).
Proof.
  apply (rotate_left_compose 0x12345678 12 20
           (value_or 0 (rotate_left 0x12345678 12))).
  - unfold word. lia.
  - lia.
  - lia.
  - lia.
  - vm_compute. reflexivity.
  - vm_compute. reflexivity.
Defined.

Lemma lnot_bit x k : 0 <= k -> Z.testbit (Z.lnot x) k = negb (Z.testbit x k).
Proof. intros Hk. now apply Z.lnot_spec. Qed.

(** X6.  On 32-bit words [FF] and [GG] give 32-bit words (the
    unbounded complement [~x] in [GG] never escapes, as it is and-ed
    with a word).  In rounds 0 to 15 both are the bitwise exclusive or
    of the three arguments; in every other round [FF] is the bitwise
    majority and [GG] the bitwise choice of [y] or [z] by [x]. *)
Theorem FF_GG_bitwise (x y z j k : Z) :
  word x -> word y -> word z -> 0 <= k ->
  word (FF x y z j) /\ word (GG x y z j)
  /\ Z.testbit (FF x y z j) k =
     (if (0 <=? j) && (j <=? 15)
      then xorb (xorb (Z.testbit x k) (Z.testbit y k)) (Z.testbit z k)
      else majb (Z.testbit x k) (Z.testbit y k) (Z.testbit z k))
  /\ Z.testbit (GG x y z j) k =
     (if (0 <=? j) && (j <=? 15)
      then xorb (xorb (Z.testbit x k) (Z.testbit y k)) (Z.testbit z k)
      else chooseb (Z.testbit x k) (Z.testbit y k) (Z.testbit z k)).
Proof.
  intros Hx Hy Hz Hk. unfold FF, GG.
  destruct ((0 <=? j) && (j <=? 15)).
  - split; [|split; [|split]];
      try (apply lxor_word; [apply lxor_word|]; assumption);
      now rewrite !Z.lxor_spec.
  - split; [|split; [|split]].
    + apply word_of_bits. intros n Hn.
      rewrite !Z.lor_spec, !Z.land_spec.
      now rewrite (word_testbit_high x), (word_testbit_high y), (word_testbit_high z)
        by (assumption || lia).
    + apply word_of_bits. intros n Hn.
      rewrite !Z.lor_spec, !Z.land_spec.
      rewrite (word_testbit_high x), (word_testbit_high z) by (assumption || lia).
      now rewrite andb_false_r.
    + rewrite !Z.lor_spec, !Z.land_spec. reflexivity.
    + rewrite !Z.lor_spec, !Z.land_spec, lnot_bit by exact Hk.
      unfold chooseb. now destruct (Z.testbit x k), (Z.testbit y k), (Z.testbit z k).
Qed.

Lemma FF_GG_bitwise_witness :
  word (FF 0xF0F0F0F0 0xCCCCCCCC 0xAAAAAAAA 16)
  /\ word (GG 0xF0F0F0F0 0xCCCCCCCC 0xAAAAAAAA 16)
  /\ Z.testbit (FF 0xF0F0F0F0 0xCCCCCCCC 0xAAAAAAAA 16) 5 =
     (if (0 <=? 16) && (16 <=? 15)
      then xorb (xorb (Z.testbit 0xF0F0F0F0 5) (Z.testbit 0xCCCCCCCC 5))
             (Z.testbit 0xAAAAAAAA 5)
      else majb (Z.testbit 0xF0F0F0F0 5) (Z.testbit 0xCCCCCCCC 5)
             (Z.testbit 0xAAAAAAAA 5))
  /\ Z.testbit (GG 0xF0F0F0F0 0xCCCCCCCC 0xAAAAAAAA 16) 5 =
     (if (0 <=? 16) && (16 <=? 15)
      then xorb (xorb (Z.testbit 0xF0F0F0F0 5) (Z.testbit 0xCCCCCCCC 5))
             (Z.testbit 0xAAAAAAAA 5)
      else chooseb (Z.testbit 0xF0F0F0F0 5) (Z.testbit 0xCCCCCCCC 5)
             (Z.testbit 0xAAAAAAAA 5)).
Proof.
  apply (FF_GG_bitwise 0xF0F0F0F0 0xCCCCCCCC 0xAAAAAAAA 16 5);
    unfold word; lia.
Defined.

Lemma P_bits x n1 n2 :
  word x -> 0 <= n1 <= 32 -> 0 <= n2 <= 32 ->
  exists p,
    (a <- rotate_left x n1 ;; c <- rotate_left x n2 ;; Ok (Z.lxor (Z.lxor x a) c)) = Ok p
    /\ word p
    /\ forall k, 0 <= k < 32 ->
         Z.testbit p k =
         xorb (xorb (Z.testbit x k) (Z.testbit x ((k - n1) mod 32)))
              (Z.testbit x ((k - n2) mod 32)).
Proof.
  intros Hx H1 H2.
  destruct (rotate_left_bits x n1 Hx H1) as (a & Ea & Ha & Ba).
  destruct (rotate_left_bits x n2 Hx H2) as (c & Ec & Hc & Bc).
  rewrite Ea. cbn [bind]. rewrite Ec. cbn [bind]. eexists. split; [reflexivity|].
  split; [apply lxor_word; [apply lxor_word|]; assumption|].
  intros k Hk. now rewrite !Z.lxor_spec, Ba, Bc.
Qed.

(** X7.  [P0] and [P1] never raise on a word and give a word: bit [k]
    of [P0(x)] is the exclusive or of bits [k], [k - 9] and [k - 17]
    of [x], and bit [k] of [P1(x)] that of bits [k], [k - 15] and
    [k - 23], positions taken modulo 32.  ([_P0] and [_P1] give the
    same.) *)
Theorem P0_P1_bitwise (x k : Z) :
  word x -> 0 <= k < 32 ->
  exists p0 p1,
    P0 x = Ok p0 /\ _P0 x = Ok p0 /\ P1 x = Ok p1 /\ _P1 x = Ok p1
    /\ word p0 /\ word p1
    /\ Z.testbit p0 k =
       xorb (xorb (Z.testbit x k) (Z.testbit x ((k - 9) mod 32)))
            (Z.testbit x ((k - 17) mod 32))
    /\ Z.testbit p1 k =
       xorb (xorb (Z.testbit x k) (Z.testbit x ((k - 15) mod 32)))
            (Z.testbit x ((k - 23) mod 32)).
Proof.
  intros Hx Hk.
  destruct (P_bits x 9 17 Hx) as (p0 & E0 & W0 & B0); [lia..|].
  destruct (P_bits x 15 23 Hx) as (p1 & E1 & W1 & B1); [lia..|].
  exists p0, p1. rewrite <- P0_same, <- P1_same.
  change (P0 x = Ok p0) in E0. change (P1 x = Ok p1) in E1.
  rewrite E0, E1. do 6 (split; [assumption || reflexivity|]).
  split; [apply B0 | apply B1]; exact Hk.
Qed.

Lemma P0_P1_bitwise_witness :
  exists p0 p1,
    P0 0x00000001 = Ok p0 /\ _P0 0x00000001 = Ok p0
    /\ P1 0x00000001 = Ok p1 /\ _P1 0x00000001 = Ok p1
    /\ word p0 /\ word p1
    /\ Z.testbit p0 9 =
       xorb (xorb (Z.testbit 0x00000001 9) (Z.testbit 0x00000001 ((9 - 9) mod 32)))
            (Z.testbit 0x00000001 ((9 - 17) mod 32))
    /\ Z.testbit p1 9 =
       xorb (xorb (Z.testbit 0x00000001 9) (Z.testbit 0x00000001 ((9 - 15) mod 32)))
            (Z.testbit 0x00000001 ((9 - 23) mod 32)).
Proof.
  apply (P0_P1_bitwise 0x00000001 9).
  - unfold word. lia.
  - lia.
Defined.

(** ** The message expansion *)

Lemma extension_step_at W j W1 :
  Forall word W -> len W = j -> 16 <= j ->
  extension_step W j = Ok W1 ->
  exists v, W1 = W ++ [v] /\ word v /\ expansion_at (W ++ [v]) j.
Proof.
  intros HW Hlen Hj. unfold extension_step.
  destruct (getitem_nth W (j - 16)) as (w16 & E16 & _); [lia|].
  destruct (getitem_nth W (j - 9)) as (w9 & E9 & _); [lia|].
  destruct (getitem_nth W (j - 3)) as (w3 & E3 & _); [lia|].
  destruct (getitem_nth W (j - 13)) as (w13 & E13 & _); [lia|].
  destruct (getitem_nth W (j - 6)) as (w6 & E6 & _); [lia|].
  pose proof (getitem_Forall _ _ _ _ HW E16) as H16.
  pose proof (getitem_Forall _ _ _ _ HW E9) as H9.
  pose proof (getitem_Forall _ _ _ _ HW E3) as H3.
  pose proof (getitem_Forall _ _ _ _ HW E13) as H13.
  pose proof (getitem_Forall _ _ _ _ HW E6) as H6.
  cbv beta in H16, H9, H3, H13, H6.
  destruct (rotate_left_bits w3 15 H3) as (r3 & Er3 & Hr3 & _); [lia|].
  destruct (rotate_left_bits w13 7 H13) as (r13 & Er13 & Hr13 & _); [lia|].
  assert (Hx : word (Z.lxor (Z.lxor w16 w9) r3))
    by (apply lxor_word; [apply lxor_word|]; assumption).
  destruct (P_bits _ 15 23 Hx) as (p & Ep & Hp & _); [lia..|].
  change (P1 (Z.lxor (Z.lxor w16 w9) r3) = Ok p) in Ep.
  rewrite E16, E9, E3. cbn [bind]. rewrite Er3. cbn [bind]. rewrite Ep. cbn [bind].
  rewrite E13. cbn [bind]. rewrite Er13. cbn [bind]. rewrite E6. cbn [bind].
  intros H%Ok_inj. subst W1.
  assert (Hv : word (Z.lxor (Z.lxor p r13) w6))
    by (apply lxor_word; [apply lxor_word|]; assumption).
  rewrite (land_mask32_id _ Hv).
  eexists. split; [reflexivity|]. split; [exact Hv|].
  exists w16, w9, w3, w13, w6, r3, r13, p.
  rewrite !getitem_app_l by lia.
  do 8 (split; [assumption|]).
  rewrite <- Hlen. apply getitem_middle.
Qed.

Lemma expansion_at_app W ext j :
  16 <= j < len W -> expansion_at W j -> expansion_at (W ++ ext) j.
Proof.
  intros Hj (w16 & w9 & w3 & w13 & w6 & r3 & r13 & p & H).
  exists w16, w9, w3, w13, w6, r3, r13, p.
  rewrite !getitem_app_l by lia. exact H.
Qed.

Lemma extension_loop_at n : forall lo W W',
  Forall word W -> len W = lo -> 16 <= lo ->
  foldM extension_step (range_from lo 1 n) W = Ok W' ->
  (exists ext, W' = W ++ ext)
  /\ forall j, lo <= j < lo + Z.of_nat n -> expansion_at W' j.
Proof.
  induction n as [|n IH]; intros lo W W' HW Hlen Hlo; cbn [range_from foldM].
  - intros H%Ok_inj. subst W'. split; [exists []; now rewrite app_nil_r|].
    intros j Hj. lia.
  - destruct (extension_step W lo) as [W1|] eqn:E; [|discriminate]. cbn [bind].
    intros Hrest.
    destruct (extension_step_at _ _ _ HW Hlen Hlo E) as (v & -> & Hv & Hat).
    assert (Hlen1 : len (W ++ [v]) = lo + 1)
      by (rewrite len_app; change (len [v]) with 1; lia).
    destruct (IH (lo + 1) (W ++ [v]) W') as ((ext & ->) & Hall); try assumption.
    { apply Forall_app; split; [assumption|]. now constructor. }
    { lia. }
    split.
    + exists (v :: ext). now rewrite <- app_assoc.
    + intros j Hj. destruct (Z.eq_dec j lo) as [->|Hne].
      * apply expansion_at_app; [lia | exact Hat].
      * apply Hall. lia.
Qed.

Lemma prime_loop_at W n : forall lo acc acc',
  Forall word W -> len acc = lo -> 0 <= lo ->
  foldM (prime_step W) (range_from lo 1 n) acc = Ok acc' ->
  (exists ext, acc' = acc ++ ext)
  /\ forall j, lo <= j < lo + Z.of_nat n -> prime_at W acc' j.
Proof.
  induction n as [|n IH]; intros lo acc acc' HW Hlen Hlo; cbn [range_from foldM].
  - intros H%Ok_inj. subst acc'. split; [exists []; now rewrite app_nil_r|].
    intros j Hj. lia.
  - unfold prime_step at 1.
    destruct (getitem W lo) as [a|] eqn:Ea; [|discriminate].
    destruct (getitem W (lo + 4)) as [c|] eqn:Ec; [|discriminate]. cbn [bind].
    rewrite land_mask32_id
      by (apply lxor_word; eapply getitem_Forall; eassumption).
    intros Hrest.
    assert (Hlen1 : len (acc ++ [Z.lxor a c]) = lo + 1)
      by (rewrite len_app; change (len [Z.lxor a c]) with 1; lia).
    destruct (IH (lo + 1) _ acc' HW Hlen1 ltac:(lia) Hrest) as ((ext & ->) & Hall).
    split.
    + exists (Z.lxor a c :: ext). now rewrite <- app_assoc.
    + intros j Hj. destruct (Z.eq_dec j lo) as [->|Hne].
      * exists a, c. split; [exact Ea|]. split; [exact Ec|].
        rewrite <- app_assoc. cbn [app]. rewrite <- Hlen. apply getitem_middle.
      * apply Hall. lia.
Qed.

Lemma prime_loop_words W js : forall acc acc',
  Forall word acc -> foldM (prime_step W) js acc = Ok acc' -> Forall word acc'.
Proof.
  induction js as [|j js IH]; intros acc acc' Hacc; cbn [foldM].
  - now intros <-%Ok_inj.
  - unfold prime_step at 1.
    destruct (getitem W j) as [a|]; [|discriminate].
    destruct (getitem W (j + 4)) as [c|]; [|discriminate]. cbn [bind].
    apply IH. apply Forall_app; split; [assumption|].
    constructor; [apply land_mask32_word | constructor].
Qed.

(** X8.  [message_extension] and [_message_extension] fail with
    [struct.error] exactly on a block that is not 64 bytes long.  On a
    block of 64 bytes both return the same pair: [W] has 68 words and
    [W_prime] 64, all of 32 bits; the first 16 entries of [W] are the
    block read as little-endian words of four bytes; every later entry
    obeys the recurrence
    [W[j] = P1(W[j-16] ^ W[j-9] ^ rotl(W[j-3], 15)) ^ rotl(W[j-13], 7) ^ W[j-6]];
    and [W_prime[j] = W[j] ^ W[j+4]]. *)
Theorem message_extension_schedule (B : bytes) :
  (len B = 64
   /\ exists W W',
        message_extension B = Ok (W, W') /\ _message_extension B = Ok (W, W')
        /\ len W = 68 /\ len W' = 64 /\ Forall word W /\ Forall word W'
        /\ firstn 16 W = map le_value (chunks 4 16 B)
        /\ (forall j, 16 <= j < 68 -> expansion_at W j)
        /\ (forall j, 0 <= j < 64 -> prime_at W W' j))
  \/ (len B <> 64
      /\ message_extension B = Raise (StructError "unpack requires a buffer of 64 bytes")
      /\ _message_extension B = Raise (StructError "unpack requires a buffer of 64 bytes")).
Proof.
  pose proof (message_extension_same B) as Hsame. rewrite <- Hsame. clear Hsame.
  destruct (Z.eq_dec (len B) 64) as [HB|HB]; [left|right].
  - split; [exact HB|].
    destruct (message_extension_total B HB) as (W & W' & E & HlW & HlW').
    exists W, W'. split; [exact E|]. split; [exact E|].
    split; [exact HlW|]. split; [exact HlW'|].
    revert E. unfold message_extension.
    destruct (struct_unpack_16I B) as [W0|] eqn:E0; [|discriminate]. cbn [bind].
    destruct (unpack_words _ _ E0) as (Hlen0 & HW0).
    change (range 16 68) with (range_from 16 1 52).
    change (range 0 64) with (range_from 0 1 64).
    destruct (foldM extension_step (range_from 16 1 52) W0) as [W1|] eqn:E1;
      [|discriminate]. cbn [bind].
    destruct (foldM (prime_step W1) (range_from 0 1 64) []) as [W2|] eqn:E2;
      [|discriminate]. cbn [bind].
    intros H%Ok_inj. inversion H; subst W1 W2. clear H.
    pose proof (extension_loop_words _ _ _ HW0 E1) as HW.
    destruct (extension_loop_at 52 16 W0 W HW0 Hlen0 ltac:(lia) E1)
      as ((ext & Eext) & Hrec).
    destruct (prime_loop_at W 64 0 [] W' HW eq_refl ltac:(lia) E2) as (_ & Hpr).
    split; [exact HW|]. split; [exact (prime_loop_words _ _ _ _ (Forall_nil _) E2)|].
    split; [|split].
    + rewrite Eext, firstn_app.
      replace (16 - List.length W0)%nat with 0%nat by (unfold len in Hlen0; lia).
      rewrite firstn_O, app_nil_r, firstn_all2 by (unfold len in Hlen0; lia).
      revert E0. unfold struct_unpack_16I. rewrite HB. cbn [Z.eqb Pos.eqb].
      now intros <-%Ok_inj.
    + intros j Hj. apply Hrec. lia.
    + intros j Hj. apply Hpr. lia.
  - split; [exact HB|]. unfold message_extension, struct_unpack_16I.
    destruct (Z.eqb_spec (len B) 64); [contradiction|]. cbn [bind]. auto.
Qed.

(** ** One round, and the outcomes of the compression function *)

Lemma rotate_left_word x n y : rotate_left x n = Ok y -> word y.
Proof.
  unfold rotate_left.
  destruct (py_lshift x n) as [hi|]; [|discriminate].
  destruct (py_rshift x (32 - n)) as [lo|]; [|discriminate]. cbn [bind].
  intros H%Ok_inj. subst y. apply word_of_bits. intros k Hk.
  rewrite Z.lor_spec, !Z.land_spec, mask32_ones, Z.ones_spec_high by lia.
  now rewrite !andb_false_r.
Qed.

(** X9.  In each of the rounds 0 to 32 the loop body of [compression]
    returns, whatever the expanded words are, and keeps the eight
    working variables 32-bit words: [A], [C], [E] and [G] move on to
    [B], [D], [F] and [H], and [B] rotated by 9 and [F] rotated by 19
    become [C] and [G]. *)
Theorem round_keeps_words (W W' : list Z) (r : regs) (j : Z) :
  len W = 68 -> len W' = 64 -> 0 <= j <= 32 -> regs_words r ->
  exists r',
    round W W' r j = Ok r' /\ regs_words r'
    /\ rB r' = rA r /\ rD r' = rC r /\ rF r' = rE r /\ rH r' = rG r
    /\ rotate_left (rB r) 9 = Ok (rC r')
    /\ rotate_left (rF r) 19 = Ok (rG r').
Proof.
  intros HW HW' Hj Hr. destruct r as [A B C D E F G H].
  destruct Hr as (HA & HB & HC & HD & HE & HF & HG & HH). cbn [rA rB rC rD rE rF rG rH] in *.
  unfold round, SS1_of.
  destruct (getitem_nth T j) as (Tj & -> & _); [rewrite T_length; lia|].
  cbn [bind]. rewrite (rotate_left_Ok A 12) by lia. cbn [bind].
  rewrite (rotate_left_Ok Tj j) by lia. cbn [bind].
  rewrite (rotate_left_Ok _ 7) by lia. cbn [bind].
  destruct (getitem_nth W' j) as (wp & -> & _); [lia|].
  destruct (getitem_nth W j) as (w & -> & _); [lia|].
  cbn [bind].
  destruct (rotate_left_total B 9) as [c Ec]; [lia|].
  destruct (rotate_left_total F 19) as [g Eg]; [lia|].
  rewrite Ec, Eg. cbn [bind].
  match goal with |- context [P0 ?x] =>
    destruct (P_bits x 9 17 (land_mask32_word _)) as (e & Ee & He & _); [lia..|];
    change (P0 x = Ok e) in Ee; rewrite Ee
  end.
  cbn [bind]. eexists. split; [reflexivity|]. cbn [rA rB rC rD rE rF rG rH].
  split.
  - unfold regs_words. cbn [rA rB rC rD rE rF rG rH].
    split; [apply land_mask32_word|]. split; [exact HA|].
    split; [exact (rotate_left_word _ _ _ Ec)|]. split; [exact HC|].
    split; [exact He|]. split; [exact HE|].
    split; [exact (rotate_left_word _ _ _ Eg)|]. exact HG.
  - repeat split; reflexivity.
Qed.

Lemma round_keeps_words_witness :
  exists r',
    round (repeat 0 68) (repeat 0 64) (Regs 1 2 3 4 5 6 7 8) 32 = Ok r'
    /\ regs_words r'
    /\ rB r' = 1 /\ rD r' = 3 /\ rF r' = 5 /\ rH r' = 7
    /\ rotate_left 2 9 = Ok (rC r')
    /\ rotate_left 6 19 = Ok (rG r').
Proof.
  apply (round_keeps_words (repeat 0 68) (repeat 0 64) (Regs 1 2 3 4 5 6 7 8) 32).
  - reflexivity.
  - reflexivity.
  - lia.
  - unfold regs_words, word. cbn [rA rB rC rD rE rF rG rH]. lia.
Defined.

Lemma unpack8_Raise V :
  List.length V <> 8%nat ->
  unpack8 V = Raise (ValueError "wrong number of values to unpack").
Proof.
  intros H. do 8 (destruct V as [|? V]; [reflexivity|]).
  destruct V; [|reflexivity]. now contradiction H.
Qed.

(** X10.  [compression] and [_compression] never return.  They look at
    the block first: [struct.error] unless it has 64 bytes; then at
    the state: [ValueError] (unpacking) unless it has eight items; and
    with both of the right size the round loop raises [ValueError]
    (negative shift count). *)
Theorem compression_outcome (V : list Z) (B : bytes) :
  _compression V B = compression V B
  /\ compression V B =
     Raise (if negb (len B =? 64)
            then StructError "unpack requires a buffer of 64 bytes"
            else if negb (Nat.eqb (List.length V) 8)
                 then ValueError "wrong number of values to unpack"
                 else negative_shift).
Proof.
  split; [symmetry; apply compression_same|].
  destruct (Z.eqb_spec (len B) 64) as [HB|HB]; cbn [negb].
  - destruct (Nat.eqb_spec (List.length V) 8) as [HV|HV]; cbn [negb].
    + now apply compression_Raise.
    + unfold compression.
      destruct (message_extension_total B HB) as (W & W' & -> & _).
      cbn [bind]. now rewrite unpack8_Raise.
  - unfold compression, message_extension, struct_unpack_16I.
    destruct (Z.eqb_spec (len B) 64); [contradiction|]. reflexivity.
Qed.

(** ** Digest text of either case *)

Lemma is_hex_facts c :
  is_hex c = true ->
  is_space c = false /\ is_ascii_space c = false
  /\ Ascii.eqb c "+" = false /\ Ascii.eqb c "-" = false
  /\ Ascii.eqb c "x" = false /\ Ascii.eqb c "X" = false /\ Ascii.eqb c "_" = false
  /\ digit_value c = Some (dv c) /\ 0 <= dv c < 16
  /\ lower_hex (lower_of c) = true /\ dv (lower_of c) = dv c.
Proof.
  destruct c as [[] [] [] [] [] [] [] []]; vm_compute; intros H;
    try discriminate H; repeat split; discriminate.
Qed.

Lemma lower_hex_is_hex c : lower_hex c = true -> is_hex c = true /\ lower_of c = c.
Proof.
  destruct c as [[] [] [] [] [] [] [] []]; vm_compute; intros H;
    try discriminate H; split; reflexivity.
Qed.

Lemma scan_digits_any cs : forall acc,
  Forall (fun c => is_hex c = true) cs ->
  scan_digits cs acc false = Some (fold_left (fun acc c => 16 * acc + dv c) cs acc).
Proof.
  induction cs as [|c cs IH]; intros acc H; [reflexivity|].
  inversion H as [|? ? Hc Hcs]; subst.
  destruct (is_hex_facts c Hc) as (_ & _ & _ & _ & _ & _ & Hu & Hd & _).
  cbn [scan_digits fold_left]. rewrite Hu, Hd. now apply IH.
Qed.

(** [int(s, 16)] on hexadecimal digits of either case is their value. *)
Lemma py_int16_any cs :
  cs <> [] -> Forall (fun c => is_hex c = true) cs ->
  py_int16 (string_of_list_ascii cs) = Ok (hex_value cs).
Proof.
  intros Hne H. unfold py_int16, chars.
  rewrite list_ascii_of_string_of_list_ascii, strip_nonspace
    by (eapply Forall_impl; [|exact H]; intros c Hc; apply (is_hex_facts c Hc)).
  destruct cs as [|c cs]; [contradiction|].
  inversion H as [|? ? Hc Hcs]; subst.
  destruct (is_hex_facts c Hc) as (_ & _ & Hp & Hm & _ & _ & Hu & _).
  rewrite Hp, Hm. cbn [orb].
  assert (Hpre : match c :: cs with
                 | z :: x :: r =>
                     if Ascii.eqb z "0" && (Ascii.eqb x "x" || Ascii.eqb x "X")
                     then match r with
                          | u :: r' => if Ascii.eqb u "_" then r' else r
                          | [] => r
                          end
                     else c :: cs
                 | _ => c :: cs
                 end = c :: cs).
  { destruct cs as [|x r]; [reflexivity|].
    inversion Hcs as [|? ? Hx _]; subst.
    destruct (is_hex_facts x Hx) as (_ & _ & _ & _ & Hx1 & Hx2 & _).
    rewrite Hx1, Hx2. cbn [orb]. now rewrite andb_false_r. }
  rewrite Hpre, Hu. now rewrite scan_digits_any.
Qed.

Lemma hex_fold_lower cs : forall acc,
  Forall (fun c => is_hex c = true) cs ->
  fold_left (fun acc c => 16 * acc + dv c) (map lower_of cs) acc
  = fold_left (fun acc c => 16 * acc + dv c) cs acc.
Proof.
  induction cs as [|c cs IH]; intros acc H; [reflexivity|].
  inversion H as [|? ? Hc Hcs]; subst. cbn [map fold_left].
  destruct (is_hex_facts c Hc) as (_ & _ & _ & _ & _ & _ & _ & _ & _ & _ & ->).
  now apply IH.
Qed.

Lemma lower_of_lower cs :
  Forall (fun c => is_hex c = true) cs ->
  Forall (fun c => lower_hex c = true) (map lower_of cs).
Proof.
  intros H. apply Forall_map. eapply Forall_impl; [|exact H].
  intros c Hc. apply (is_hex_facts c Hc).
Qed.

Lemma hex_value_word_any cs :
  List.length cs = 8%nat -> Forall (fun c => is_hex c = true) cs -> word (hex_value cs).
Proof.
  intros L F. unfold hex_value. rewrite <- hex_fold_lower by exact F.
  apply hex_value_word; [now rewrite length_map | now apply lower_of_lower].
Qed.

Lemma fmt_08x_hex_value_any cs :
  List.length cs = 8%nat -> Forall (fun c => is_hex c = true) cs ->
  fmt_08x (hex_value cs) = map lower_of cs.
Proof.
  intros L F. unfold hex_value. rewrite <- hex_fold_lower by exact F.
  apply fmt_08x_hex_value; [now rewrite length_map | now apply lower_of_lower].
Qed.

(** X11.  [parse_hash] reads hexadecimal digits of either case: a
    digest of 64 such characters parses to eight 32-bit words, and
    rendering them gives the digest in lowercase. *)
Theorem parse_hash_any_case (d : string) :
  List.length (chars d) = 64%nat ->
  Forall (fun c => is_hex c = true) (chars d) ->
  exists V, parse_hash d = Ok V /\ List.length V = 8%nat /\ Forall word V
            /\ chars (render V) = map lower_of (chars d).
Proof.
  intros L F. set (blocks := chunks 8 8 (chars d)).
  destruct (concat_chunks 8 8 (chars d) L) as [Ecat Flen]. fold blocks in Ecat, Flen.
  assert (Fhex : Forall (Forall (fun c => is_hex c = true)) blocks).
  { apply Forall_forall. intros l Hl. apply Forall_forall. intros c Hc.
    rewrite Forall_forall in F. apply F. rewrite <- Ecat. apply in_concat. eauto. }
  assert (Hlen : List.length blocks = 8%nat) by apply chunks_length.
  clearbody blocks.
  exists (map hex_value blocks). split; [|split; [|split]].
  - rewrite <- (string_of_list_ascii_of_string d). fold (chars d). rewrite <- Ecat.
    apply parse_hash_concat; [exact Hlen|].
    clear Hlen Ecat.
    induction blocks as [|l blocks IH]; cbn [map]; constructor.
    + inversion Flen; inversion Fhex; subst. split; [assumption|].
      apply py_int16_any; [|assumption]. intros ->. discriminate.
    + inversion Flen; inversion Fhex; subst. now apply IH.
  - now rewrite length_map.
  - apply Forall_map. clear Hlen Ecat.
    induction blocks as [|l blocks IH]; constructor;
      inversion Flen; inversion Fhex; subst; [now apply hex_value_word_any | now apply IH].
  - unfold render, chars at 1. rewrite list_ascii_of_string_of_list_ascii, map_map.
    rewrite <- Ecat. clear Hlen Ecat.
    induction blocks as [|l blocks IH]; [reflexivity|]. cbn [map List.concat].
    inversion Flen; inversion Fhex; subst.
    rewrite fmt_08x_hex_value_any, map_app by assumption. f_equal. now apply IH.
Qed.

Lemma parse_hash_any_case_witness :
  exists V,
    parse_hash "66C7F0F462EEEDD9d1f2d46bdc10e4e24167c4875cf2f7a2297da02b8f4ba8e0" = Ok V
    /\ List.length V = 8%nat /\ Forall word V
    /\ chars (render V) =
       map lower_of
         (chars "66C7F0F462EEEDD9d1f2d46bdc10e4e24167c4875cf2f7a2297da02b8f4ba8e0").
Proof.
  apply (parse_hash_any_case
           "66C7F0F462EEEDD9d1f2d46bdc10e4e24167c4875cf2f7a2297da02b8f4ba8e0").
  - reflexivity.
  - repeat constructor.
Defined.

Lemma parse_loop_shape (f : Z -> result Z) js : forall acc V,
  foldM (fun V i => x <- f i ;; Ok (V ++ [x])) js acc = Ok V ->
  List.length V = (List.length acc + List.length js)%nat.
Proof.
  induction js as [|j js IH]; intros acc V; cbn [foldM].
  - intros H%Ok_inj. subst. cbn [List.length]. lia.
  - destruct (f j) as [x|]; [|discriminate]. cbn [bind].
    intros H. apply IH in H. rewrite H, length_app. cbn [List.length]. lia.
Qed.

Lemma parse_loop_error (f : Z -> result Z) (P : exn -> Prop) js : forall acc e,
  (forall i e, f i = Raise e -> P e) ->
  foldM (fun V i => x <- f i ;; Ok (V ++ [x])) js acc = Raise e -> P e.
Proof.
  induction js as [|j js IH]; intros acc e Hf; cbn [foldM]; [discriminate|].
  destruct (f j) as [x|e'] eqn:E; cbn [bind].
  - now apply IH.
  - intros H. inversion H; subst. eapply Hf, E.
Qed.

Lemma py_int16_error s e : py_int16 s = Raise e -> e = invalid_literal.
Proof.
  unfold py_int16.
  repeat match goal with
         | |- context [match ?x with _ => _ end] => destruct x
         end; congruence.
Qed.

(** X12.  [parse_hash] either returns a list of exactly eight
    integers, and then the text has 64 characters, or raises
    [ValueError]: the length message for every text that is not 64
    characters long, and the message of [int] for a piece that is not
    a number in base 16.  It raises nothing else. *)
Theorem parse_hash_outcome (h : string) :
  match parse_hash h with
  | Ok V => List.length V = 8%nat /\ List.length (chars h) = 64%nat
  | Raise e =>
      if negb (len (chars h) =? 64)
      then e = ValueError "invalid SM3 hash, length must be 64 characters"
      else e = invalid_literal
  end.
Proof.
  unfold parse_hash. destruct (Z.eqb_spec (len (chars h)) 64) as [H|H]; cbn [negb].
  - match goal with |- match ?c with _ => _ end => destruct c as [V|e] eqn:E end.
    + split; [|unfold len in H; lia].
      apply (parse_loop_shape
               (fun i => py_int16 (str_slice h (i * 8) ((i + 1) * 8)))) in E.
      exact E.
    + apply (parse_loop_error
               (fun i => py_int16 (str_slice h (i * 8) ((i + 1) * 8)))
               (fun e => e = invalid_literal)) in E; [exact E|].
      intros i e'. apply py_int16_error.
  - reflexivity.
Qed.

(** ** The bytes of a digest *)

Lemma hex_fold_shift cs : forall acc,
  fold_left (fun acc c => 16 * acc + dv c) cs acc = 16 ^ len cs * acc + hex_value cs.
Proof.
  unfold hex_value. induction cs as [|c cs IH]; intros acc.
  - cbn [fold_left]. change (len []) with 0. lia.
  - cbn [fold_left]. rewrite (IH (16 * acc + dv c)), (IH (16 * 0 + dv c)).
    replace (len (c :: cs)) with (Z.succ (len cs)) by (unfold len; cbn [List.length]; lia).
    rewrite Z.pow_succ_r by apply len_nonneg. lia.
Qed.

Lemma fromhex_chars_value n : forall cs fuel,
  List.length cs = (2 * n)%nat -> Forall (fun c => is_hex c = true) cs ->
  (2 * n < fuel)%nat ->
  exists bs, fromhex_chars fuel cs = Ok bs /\ List.length bs = n
    /\ forall acc,
         fold_left (fun acc x => 256 * acc + byte_val x) bs acc
         = fold_left (fun acc c => 16 * acc + dv c) cs acc.
Proof.
  induction n as [|n IH]; intros cs fuel Hlen HF Hfuel.
  - destruct cs; [|discriminate]. destruct fuel; cbn; eauto.
  - destruct cs as [|c [|c' cs]]; try (cbn in Hlen; lia).
    destruct fuel as [|fuel]; [lia|].
    inversion HF as [|? ? Hc HF']; subst. inversion HF' as [|? ? Hc' HF'']; subst.
    cbn [fromhex_chars].
    destruct (is_hex_facts c Hc) as (_ & -> & _ & _ & _ & _ & _ & -> & Hd & _).
    destruct (is_hex_facts c' Hc') as (_ & _ & _ & _ & _ & _ & _ & -> & Hd' & _).
    destruct (IH cs fuel) as (bs & -> & Hbs & Hval);
      [cbn in Hlen; lia | assumption | lia |].
    cbn [bind]. eexists. split; [reflexivity|]. split; [cbn [List.length]; lia|].
    intros acc. cbn [fold_left].
    rewrite byte_val_of_Z, Z.mod_small by lia. rewrite Hval. f_equal. lia.
Qed.

Lemma state_fold_render V : forall acc,
  Forall word V ->
  fold_left (fun acc c => 16 * acc + dv c) (List.concat (map fmt_08x V)) acc
  = fold_left (fun acc w => 2 ^ 32 * acc + w) V acc.
Proof.
  induction V as [|x V IH]; intros acc HV; [reflexivity|].
  inversion HV as [|? ? Hx HV']; subst.
  cbn [map List.concat fold_left]. rewrite fold_left_app, (hex_fold_shift (fmt_08x x)).
  destruct (fmt_08x_word x Hx) as (L & _ & Val).
  unfold len. rewrite L, Val. change (16 ^ Z.of_nat 8) with (2 ^ 32).
  now apply IH.
Qed.

Lemma render_bytes V :
  List.length V = 8%nat -> Forall word V ->
  exists bs, fromhex (render V) = Ok bs /\ len bs = 32 /\ be_value bs = state_value V.
Proof.
  intros H8 HV. unfold fromhex, render, chars.
  rewrite list_ascii_of_string_of_list_ascii.
  assert (Hlen : List.length (List.concat (map fmt_08x V)) = 64%nat).
  { rewrite (concat_blocks_length 8), length_map, H8; [reflexivity|].
    apply Forall_map. eapply Forall_impl; [|exact HV].
    intros x Hx. apply (fmt_08x_word x Hx). }
  destruct (fromhex_chars_value 32 (List.concat (map fmt_08x V))
              (S (List.length (List.concat (map fmt_08x V)))))
    as (bs & E & Hbs & Hval).
  - exact Hlen.
  - apply Forall_concat, Forall_map. eapply Forall_impl; [|exact HV].
    intros x Hx. destruct (fmt_08x_word x Hx) as (_ & F & _).
    eapply Forall_impl; [|exact F]. intros c Hc. apply (lower_hex_is_hex c Hc).
  - rewrite Hlen. lia.
  - exists bs. split; [exact E|]. split; [unfold len; now rewrite Hbs|].
    unfold be_value, state_value. rewrite Hval. now apply state_fold_render.
Qed.

(** X13.  The text of a state, as [sm3_hash] renders it, is what
    [bytes.fromhex] turns into the 32 bytes of the state, most
    significant word and byte first; so [hash_nodes] on two such
    digests hashes 65 bytes: the byte 0x01, the 32 bytes of the left
    digest and the 32 bytes of the right one. *)
Theorem hash_nodes_input (engine : bytes -> result string) (V1 V2 : list Z) :
  List.length V1 = 8%nat -> Forall word V1 ->
  List.length V2 = 8%nat -> Forall word V2 ->
  exists bl br,
    fromhex (render V1) = Ok bl /\ fromhex (render V2) = Ok br
    /\ len bl = 32 /\ len br = 32
    /\ be_value bl = state_value V1 /\ be_value br = state_value V2
    /\ Merkle.hash_nodes engine (render V1) (render V2) = engine (x01 :: bl ++ br)
    /\ len (x01 :: bl ++ br) = 65.
Proof.
  intros L1 W1 L2 W2.
  destruct (render_bytes V1 L1 W1) as (bl & El & Hl & Vl).
  destruct (render_bytes V2 L2 W2) as (br & Er & Hr & Vr).
  exists bl, br. do 6 (split; [assumption|]).
  unfold Merkle.hash_nodes. rewrite El, Er. cbn [bind]. split; [reflexivity|].
  change (x01 :: bl ++ br) with ([x01] ++ bl ++ br). rewrite !len_app, Hl, Hr.
  reflexivity.
Qed.

Lemma hash_nodes_input_witness :
  exists bl br,
    fromhex (render IV) = Ok bl /\ fromhex (render (rev IV)) = Ok br
    /\ len bl = 32 /\ len br = 32
    /\ be_value bl = state_value IV /\ be_value br = state_value (rev IV)
    /\ Merkle.hash_nodes toy_engine (render IV) (render (rev IV))
       = toy_engine (x01 :: bl ++ br)
    /\ len (x01 :: bl ++ br) = 65.
Proof.
  apply (hash_nodes_input toy_engine IV (rev IV)).
  - reflexivity.
  - repeat constructor; unfold word; lia.
  - reflexivity.
  - repeat constructor; unfold word; lia.
Defined.

(** X14.  Leaves and inner nodes never hash the same message: for a
    leaf the engine is given the byte 0x00 and the data, for a node
    the byte 0x01 and the bytes of the two child digests; and when a
    child is not hexadecimal text [hash_nodes] raises [ValueError]
    without calling the engine. *)
Theorem leaf_and_node_inputs (data : bytes) (l r : string) :
  (forall engine, Merkle.hash_leaf engine data = engine (x00 :: data))
  /\ ((exists bl br,
         fromhex l = Ok bl /\ fromhex r = Ok br
         /\ (forall engine, Merkle.hash_nodes engine l r = engine (x01 :: bl ++ br))
         /\ x01 :: bl ++ br <> x00 :: data)
      \/ ((~ hex_text l \/ ~ hex_text r)
          /\ forall engine, Merkle.hash_nodes engine l r = Raise non_hex)).
Proof.
  split; [reflexivity|].
  destruct (fromhex l) as [bl|el] eqn:El.
  - destruct (fromhex r) as [br|er] eqn:Er.
    + left. exists bl, br. split; [reflexivity|]. split; [reflexivity|]. split.
      * intros engine. unfold Merkle.hash_nodes. now rewrite El, Er.
      * discriminate.
    + right. assert (Hr : ~ hex_text r) by (intros [bs E]; congruence).
      split; [now right|]. intros engine. unfold Merkle.hash_nodes.
      now rewrite El, (not_hex_text r Hr).
  - right. assert (Hl : ~ hex_text l) by (intros [bs E]; congruence).
    split; [now left|]. intros engine. unfold Merkle.hash_nodes.
    now rewrite (not_hex_text l Hl).
Qed.

(** ** The forger *)



(** ** The tree module over any engine *)

(** X16.  The tree module is sound on its own: over any engine that
    returns digests in place of [sm3_hash_optimized], the constructor
    returns a tree for every list of leaves, and for every leaf
    [get_proof] returns a proof that [verify_proof] accepts against
    the root. *)
Theorem proofs_verify_over_any_engine
  (engine : bytes -> result string) (leaves : list bytes) :
  engine_returns_digests engine ->
  exists t,
    Merkle.init engine leaves = Ok t
    /\ forall i leaf, nth_error leaves i = Some leaf ->
         exists p f,
           Merkle.get_proof t (Z.of_nat i) = Ok (p, f)
           /\ Merkle.verify_proof engine leaf p f (Merkle.get_root t) = Ok true.
Proof.
  intros Hengine. destruct (init_total engine Hengine leaves) as [t Ht].
  exists t. split; [exact Ht|]. intros i leaf Hleaf.
  exact (generic_round_trip engine leaves t i leaf Ht Hleaf).
Qed.

Lemma proofs_verify_over_any_engine_witness :
  exists t,
    Merkle.init toy_engine toy_leaves = Ok t
    /\ forall i leaf, nth_error toy_leaves i = Some leaf ->
         exists p f,
           Merkle.get_proof t (Z.of_nat i) = Ok (p, f)
           /\ Merkle.verify_proof toy_engine leaf p f (Merkle.get_root t) = Ok true.
Proof.
  apply (proofs_verify_over_any_engine toy_engine toy_leaves).
  exact toy_engine_ok.
Defined.

(** X17.  Over any engine, on a tree built from at least one leaf,
    [get_non_existence_proof] raises [IndexError] outside
    [0, size) and [ValueError] where a leaf exists; on the padding,
    from [leaf_count] up to [size], it returns the last leaf as left
    neighbour with its proof and no right neighbour, and
    [verify_non_existence] accepts that. *)
Theorem absence_over_any_engine
  (engine : bytes -> result string) (leaves : list bytes) (t : MerkleTree)
  (index : Z) :
  Merkle.init engine leaves = Ok t -> 0 < len leaves ->
  exists sz,
    size t = Some sz /\ len leaves <= sz
    /\ (index < 0 \/ sz <= index ->
        Merkle.get_non_existence_proof t index
        = Raise (IndexError "index out of range"))
    /\ (0 <= index < len leaves ->
        Merkle.get_non_existence_proof t index
        = Raise (ValueError "a leaf exists at this index"))
    /\ (len leaves <= index < sz ->
        exists leaf p f,
          nth_error leaves (Z.to_nat (len leaves - 1)) = Some leaf
          /\ Merkle.get_proof t (len leaves - 1) = Ok (p, f)
          /\ Merkle.get_non_existence_proof t index
             = Ok (Some (len leaves - 1), p, f, None, [], [])
          /\ Merkle.verify_non_existence engine t index (Some leaf) p f None [] []
             = Ok true).
Proof. apply generic_absence. Qed.

Lemma absence_over_any_engine_witness :
  exists sz,
    size toy_tree = Some sz /\ len toy_leaves <= sz
    /\ (3 < 0 \/ sz <= 3 ->
        Merkle.get_non_existence_proof toy_tree 3
        = Raise (IndexError "index out of range"))
    /\ (0 <= 3 < len toy_leaves ->
        Merkle.get_non_existence_proof toy_tree 3
        = Raise (ValueError "a leaf exists at this index"))
    /\ (len toy_leaves <= 3 < sz ->
        exists leaf p f,
          nth_error toy_leaves (Z.to_nat (len toy_leaves - 1)) = Some leaf
          /\ Merkle.get_proof toy_tree (len toy_leaves - 1) = Ok (p, f)
          /\ Merkle.get_non_existence_proof toy_tree 3
             = Ok (Some (len toy_leaves - 1), p, f, None, [], [])
          /\ Merkle.verify_non_existence toy_engine toy_tree 3 (Some leaf) p f None [] []
             = Ok true).
Proof.
  apply (absence_over_any_engine toy_engine toy_leaves toy_tree 3).
  - vm_compute. reflexivity.
  - vm_compute. reflexivity.
Defined.

Lemma log2_up_pow2_exact k : 0 <= k -> 2 ^ Z.log2_up (2 ^ k) = 2 ^ k.
Proof. intros Hk. now rewrite Z.log2_up_pow2. Qed.

(** X18.  A tree whose number of leaves is a power of two has no
    padding, so no index has an absence proof: over any engine
    [get_non_existence_proof] raises [IndexError] outside
    [0, leaf_count) and [ValueError] inside. *)
Theorem full_tree_has_no_absence_proof
  (engine : bytes -> result string) (leaves : list bytes) (t : MerkleTree)
  (k index : Z) :
  Merkle.init engine leaves = Ok t -> 0 <= k -> len leaves = 2 ^ k ->
  Merkle.get_non_existence_proof t index =
  Raise (if (index <? 0) || (len leaves <=? index)
         then IndexError "index out of range"
         else ValueError "a leaf exists at this index").
Proof.
  intros Hinit Hk Hlen.
  assert (Hpos : 0 < len leaves) by (rewrite Hlen; apply Z.pow_pos_nonneg; lia).
  destruct (generic_absence engine leaves t index Hinit Hpos)
    as (sz & Hsz & _ & Hout & Hin & _).
  destruct (init_fields engine leaves t Hinit) as (_ & _ & Hfull).
  destruct (Hfull Hpos) as [_ Hsize].
  rewrite Hlen, log2_up_pow2_exact, <- Hlen in Hsize by exact Hk.
  assert (sz = len leaves) by congruence. subst sz.
  destruct (Z.ltb_spec index 0); cbn [orb]; [apply Hout; lia|].
  destruct (Z.leb_spec (len leaves) index); [apply Hout; lia | apply Hin; lia].
Qed.

Lemma full_tree_has_no_absence_proof_witness :
  Merkle.get_non_existence_proof
    (built (Merkle.init toy_engine [b "a"; b "b"; b "c"; b "d"])) 4 =
  Raise (if (4 <? 0) || (len [b "a"; b "b"; b "c"; b "d"] <=? 4)
         then IndexError "index out of range"
         else ValueError "a leaf exists at this index").
Proof.
  apply (full_tree_has_no_absence_proof toy_engine [b "a"; b "b"; b "c"; b "d"]
           (built (Merkle.init toy_engine [b "a"; b "b"; b "c"; b "d"])) 2 4).
  - vm_compute. reflexivity.
  - lia.
  - reflexivity.
Defined.

(** X19.  The tree of an empty list answers no query: whatever the
    engine, the constructor returns without hashing anything, the root
    is the constant [RFC6962_EMPTY_ROOT], [get_proof] raises
    [IndexError] for every index, and [get_non_existence_proof] raises
    [IndexError] for a negative index and [AttributeError] for every
    other, as [size] was never set. *)
Theorem empty_tree_queries (engine : bytes -> result string) (index : Z) :
  exists t,
    Merkle.init engine [] = Ok t
    /\ Merkle.get_root t = RFC6962_EMPTY_ROOT
    /\ leaf_hashes t = [] /\ tree t = []
    /\ Merkle.get_proof t index = Raise (IndexError "leaf index out of range")
    /\ Merkle.get_non_existence_proof t index =
       Raise (if index <? 0 then IndexError "index out of range"
              else AttributeError "size").
Proof.
  eexists. split; [reflexivity|]. cbn [Merkle.get_root root leaf_hashes tree].
  do 3 (split; [reflexivity|]). split.
  - unfold Merkle.get_proof. cbn [leaf_count].
    destruct (Z.ltb_spec index 0); cbn [orb]; [reflexivity|].
    change (len []) with 0. destruct (Z.leb_spec 0 index); [reflexivity|lia].
  - unfold Merkle.get_non_existence_proof. cbn [size attr].
    destruct (index <? 0); reflexivity.
Qed.

Lemma find_down_none n : forall k hi,
  n <= hi - Z.of_nat k + 1 ->
  find (fun i => i <? n) (range_from hi (-1) k) = None.
Proof.
  induction k as [|k IH]; intros hi Hn; [reflexivity|].
  cbn [range_from find]. destruct (Z.ltb_spec hi n); [lia|].
  apply IH. lia.
Qed.

Lemma absence_shape_of_tree
  (self : MerkleTree) (index : Z)
  (ln : option Z) (lp : list string) (lf : list bool)
  (rn : option Z) (rp : list string) (rf : list bool) :
  Merkle.get_non_existence_proof self index = Ok (ln, lp, lf, rn, rp, rf) ->
  rn = None /\ rp = [] /\ rf = []
  /\ ln = Some (leaf_count self - 1)
  /\ 1 <= leaf_count self <= index
  /\ Merkle.get_proof self (leaf_count self - 1) = Ok (lp, lf).
Proof.
  intros H. unfold Merkle.get_non_existence_proof in H.
  destruct (Z.ltb_spec index 0) as [Hneg|Hnn]; [discriminate H|].
  destruct (size self) as [sz|]; [|discriminate H]. cbn [attr bind] in H.
  destruct (sz <=? index); [discriminate H|].
  destruct (Z.ltb_spec index (leaf_count self)) as [|Hge]; [discriminate H|].
  unfold range in H.
  replace (Z.to_nat (leaf_count self - (index + 1))) with 0%nat in H by lia.
  cbn [range_from find] in H. unfold range_down in H.
  destruct (Z.le_gt_cases 1 (leaf_count self)) as [Hpos|Hnone].
  - rewrite find_below_down in H by lia.
    destruct (Merkle.get_proof self (leaf_count self - 1)) as [[p f]|];
      [|discriminate H].
    cbn [bind] in H. apply Ok_inj in H. inversion H; subst.
    repeat split; auto; lia.
  - rewrite find_down_none in H by lia. cbn [bind] in H. discriminate H.
Qed.

(** X20.  Whatever tree object it is called on, a proof that
    [get_non_existence_proof] returns has no right neighbour: the
    right search runs over an empty range.  The left neighbour is the
    last leaf, with the proof [get_proof] gives for it, and the index
    lies at or beyond [leaf_count]. *)
Theorem absence_proof_has_no_right_neighbour
  (self : MerkleTree) (index : Z)
  (ln : option Z) (lp : list string) (lf : list bool)
  (rn : option Z) (rp : list string) (rf : list bool) :
  Merkle.get_non_existence_proof self index = Ok (ln, lp, lf, rn, rp, rf) ->
  rn = None /\ rp = [] /\ rf = []
  /\ ln = Some (leaf_count self - 1)
  /\ 1 <= leaf_count self <= index
  /\ Merkle.get_proof self (leaf_count self - 1) = Ok (lp, lf).
Proof. apply absence_shape_of_tree. Qed.

Lemma absence_proof_has_no_right_neighbour_witness :
  @None Z = None /\ @nil string = [] /\ @nil bool = []
  /\ Some 2 = Some (leaf_count toy_tree - 1)
  /\ 1 <= leaf_count toy_tree <= 3
  /\ Merkle.get_proof toy_tree (leaf_count toy_tree - 1) = Ok (toy_proof, [true; false]).
Proof.
  apply (absence_proof_has_no_right_neighbour toy_tree 3
           (Some 2) toy_proof [true; false] None [] []).
  vm_compute. reflexivity.
Defined.

(** X21.  [verify_non_existence] never looks at the index of a proof
    with one neighbour: over any engine, the proof that
    [get_non_existence_proof] returns for one index, checked with the
    data of its left neighbour, is accepted for every index, also one
    where a leaf exists. *)
Theorem absence_check_ignores_index
  (engine : bytes -> result string) (leaves : list bytes) (t : MerkleTree)
  (index index' : Z)
  (ln : option Z) (lp : list string) (lf : list bool)
  (rn : option Z) (rp : list string) (rf : list bool) :
  Merkle.init engine leaves = Ok t ->
  Merkle.get_non_existence_proof t index = Ok (ln, lp, lf, rn, rp, rf) ->
  exists l leaf,
    ln = Some l /\ nth_error leaves (Z.to_nat l) = Some leaf /\ rn = None
    /\ Merkle.verify_non_existence engine t index' (Some leaf) lp lf None rp rf
       = Ok true.
Proof.
  intros Hinit Hproof.
  destruct (init_fields engine leaves t Hinit) as (Hcount & _).
  destruct (absence_shape_of_tree t index ln lp lf rn rp rf Hproof)
    as (-> & -> & -> & -> & Hidx & Hget).
  rewrite Hcount in *.
  destruct (nth_error leaves (Z.to_nat (len leaves - 1))) as [leaf|] eqn:Hleaf.
  2:{ apply nth_error_None in Hleaf. unfold len in *. lia. }
  destruct (generic_round_trip engine leaves t _ leaf Hinit Hleaf)
    as (p & f & Hp & Hverify).
  rewrite Z2Nat.id in Hp by lia. rewrite Hget in Hp. apply Ok_inj in Hp.
  inversion Hp; subst p f.
  exists (len leaves - 1), leaf.
  split; [reflexivity|]. split; [exact Hleaf|]. split; [reflexivity|].
  unfold Merkle.verify_non_existence. rewrite Hverify. reflexivity.
Qed.

Lemma absence_check_ignores_index_witness :
  exists l leaf,
    Some 2 = Some l /\ nth_error toy_leaves (Z.to_nat l) = Some leaf /\ @None Z = None
    /\ Merkle.verify_non_existence toy_engine toy_tree 0 (Some leaf)
         toy_proof [true; false] None [] [] = Ok true.
Proof.
  apply (absence_check_ignores_index toy_engine toy_leaves toy_tree 3 0
           (Some 2) toy_proof [true; false] None [] []).
  - vm_compute. reflexivity.
  - vm_compute. reflexivity.
Defined.

(** ** The shape of the tree and of its proofs *)

Lemma getitem_Ok_nth {A} (l : list A) i a :
  0 <= i -> getitem l i = Ok a -> nth_error l (Z.to_nat i) = Some a.
Proof.
  intros Hi H. pose proof (getitem_Ok_range _ _ _ Hi H) as Hlt.
  destruct (getitem_nth l i) as (a' & E & N); [lia|].
  rewrite H in E. apply Ok_inj in E. now subst a'.
Qed.

Lemma chain_levels engine : forall uppers L,
  Merkle.chain engine L uppers -> len L = 2 ^ Z.of_nat (List.length uppers) ->
  forall k nodes, nth_error (L :: uppers) k = Some nodes ->
    len nodes = 2 ^ (Z.of_nat (List.length uppers) - Z.of_nat k)
    /\ forall parents, nth_error (L :: uppers) (S k) = Some parents ->
         Merkle.pair_up engine nodes = Ok parents.
Proof.
  induction uppers as [|L1 rest IH]; intros L Hchain Hlen k nodes Hk.
  - destruct k as [|k]; [|destruct k; discriminate Hk].
    cbn [nth_error] in Hk. inversion Hk; subst nodes. split.
    + rewrite Hlen. f_equal; lia.
    + intros parents Hp. discriminate Hp.
  - destruct Hchain as [Hpair Hchain].
    assert (HL1 : len L1 = 2 ^ Z.of_nat (List.length rest)).
    { cbn [List.length] in Hlen. rewrite Nat2Z.inj_succ, Z.pow_succ_r in Hlen by lia.
      destruct (pair_up_spec engine L L1 Hpair) as [Hhalf _].
      assert (Hev : Nat.Even (List.length L)).
      { exists (Z.to_nat (2 ^ Z.of_nat (List.length rest))).
        assert (0 < 2 ^ Z.of_nat (List.length rest)) by (apply Z.pow_pos_nonneg; lia).
        unfold len in Hlen. lia. }
      specialize (Hhalf Hev). lia. }
    destruct k as [|k].
    + cbn [nth_error] in Hk. inversion Hk; subst nodes. split.
      * rewrite Hlen. f_equal; lia.
      * intros parents Hp. cbn [nth_error] in Hp. inversion Hp; subst parents.
        exact Hpair.
    + cbn [nth_error] in Hk.
      destruct (IH L1 Hchain HL1 k nodes Hk) as [Hn Hpar]. split.
      * rewrite Hn. f_equal; cbn [List.length]; lia.
      * intros parents Hp. apply Hpar. exact Hp.
Qed.

Lemma init_leaf_level engine leaves t :
  Merkle.init engine leaves = Ok t -> 0 < len leaves ->
  exists uppers lh,
    tree t = leaf_hashes t :: uppers
    /\ List.length lh = List.length leaves
    /\ ((exists e, Merkle.hash_leaf engine [] = Ok e
                   /\ leaf_hashes t =
                      lh ++ repeat e (Z.to_nat (2 ^ Z.log2_up (len leaves) - len leaves)))
        \/ (2 ^ Z.log2_up (len leaves) <= len leaves /\ leaf_hashes t = lh)).
Proof.
  unfold Merkle.init. intros H Hn. bind_inv H.
  destruct (Z.eqb_spec (len leaves) 0) as [|_]; [lia|].
  unfold ceil_log2 in H. destruct (Z.leb_spec (len leaves) 0); [lia|].
  cbn [bind] in H.
  destruct (mapM_Ok _ _ _ E) as [Hlh _].
  bind_inv H. rename a0 into L0. bind_inv H. destruct a0 as [tr cur].
  bind_inv H. bind_inv H. apply Ok_inj in H. subst t.
  cbn [tree leaf_hashes].
  destruct (level_loop_chain engine _ _ _ _ _ E1) as (uppers & -> & _ & _).
  exists uppers, a. split; [reflexivity|]. split; [exact Hlh|].
  destruct (Z.ltb_spec (len leaves) (2 ^ Z.log2_up (len leaves))).
  - left. bind_inv E0. apply Ok_inj in E0. subst L0. eexists. split; reflexivity.
  - right. apply Ok_inj in E0. subst L0. auto.
Qed.

(** X22.  What the constructor builds from a non-empty list, over any
    engine: [height + 1] levels, level [k] of [2^(height - k)] nodes;
    level 0 is [leaf_hashes], the hashes of the leaves in order
    followed by copies of the hash of the empty leaf up to [size];
    every node above is the hash of the two nodes below it; and the
    top level is the root alone. *)
Theorem tree_levels
  (engine : bytes -> result string) (leaves : list bytes) (t : MerkleTree) :
  Merkle.init engine leaves = Ok t -> 0 < len leaves ->
  exists h,
    height t = Some h /\ 0 <= h /\ size t = Some (2 ^ h) /\ len (tree t) = h + 1
    /\ getitem (tree t) 0 = Ok (leaf_hashes t)
    /\ getitem (tree t) h = Ok [root t]
    /\ (forall k nodes, 0 <= k <= h -> getitem (tree t) k = Ok nodes ->
          len nodes = 2 ^ (h - k))
    /\ (forall k nodes parents j,
          0 <= k < h -> getitem (tree t) k = Ok nodes ->
          getitem (tree t) (k + 1) = Ok parents -> 0 <= j < 2 ^ (h - k - 1) ->
          exists a c p,
            getitem nodes (2 * j) = Ok a /\ getitem nodes (2 * j + 1) = Ok c
            /\ Merkle.hash_nodes engine a c = Ok p /\ getitem parents j = Ok p)
    /\ (forall i leaf, nth_error leaves i = Some leaf ->
          exists d, Merkle.hash_leaf engine leaf = Ok d
                    /\ getitem (leaf_hashes t) (Z.of_nat i) = Ok d)
    /\ (forall i, len leaves <= i < 2 ^ h ->
          exists e, Merkle.hash_leaf engine [] = Ok e
                    /\ getitem (leaf_hashes t) i = Ok e).
Proof.
  intros Hinit Hn.
  destruct (init_structure engine leaves t Hinit Hn) as
    (L0 & uppers & Htree & Hchain & Hheight & Hsize & HL0 & Hcount & Hroot & Hleaves).
  destruct (init_leaf_level engine leaves t Hinit Hn) as (uppers' & lh & Htree' & Hlh & Hpad).
  destruct (init_fields engine leaves t Hinit) as (_ & _ & Hfull).
  destruct (Hfull Hn) as [Hheight' _].
  assert (HL : L0 = leaf_hashes t) by congruence. subst L0.
  set (h := Z.of_nat (List.length uppers)) in *.
  assert (Hh : h = Z.log2_up (len leaves)) by congruence.
  exists h. split; [exact Hheight|]. split; [lia|].
  split; [now rewrite Hsize, HL0|].
  split; [rewrite Htree; unfold len, h; cbn [List.length]; lia|].
  split; [rewrite Htree; reflexivity|].
  assert (Hlevel : forall k nodes, 0 <= k -> getitem (tree t) k = Ok nodes ->
            nth_error (leaf_hashes t :: uppers) (Z.to_nat k) = Some nodes).
  { intros k nodes Hk Hg. rewrite Htree in Hg. now apply getitem_Ok_nth. }
  split; [|split; [|split; [|split]]].
  - rewrite Htree. unfold h. rewrite <- (Nat2Z.id (List.length uppers)) at 1.
    rewrite Nat2Z.id. apply getitem_nth_error.
    rewrite nth_error_last.
    pose proof (chain_top_length engine uppers _ Hchain HL0) as Htop.
    destruct (last uppers (leaf_hashes t)) as [|x [|y rest]];
      try (unfold len in Htop; cbn [List.length] in Htop; lia).
    cbn in Hroot. apply Ok_inj in Hroot. now subst x.
  - intros k nodes Hk Hg.
    destruct (chain_levels engine uppers _ Hchain HL0 _ _ (Hlevel k nodes ltac:(lia) Hg))
      as [Hlen _].
    rewrite Hlen. f_equal. fold h. lia.
  - intros k nodes parents j Hk Hg Hg' Hj.
    destruct (chain_levels engine uppers _ Hchain HL0 _ _ (Hlevel k nodes ltac:(lia) Hg))
      as [Hlen Hpar].
    pose proof (Hlevel (k + 1) parents ltac:(lia) Hg') as Hp.
    replace (Z.to_nat (k + 1)) with (S (Z.to_nat k)) in Hp by lia.
    destruct (pair_up_spec engine nodes parents (Hpar parents Hp)) as [_ Hpairs].
    apply Hpairs; [lia|]. rewrite Hlen. fold h.
    replace (h - Z.of_nat (Z.to_nat k)) with (Z.succ (h - k - 1)) by lia.
    rewrite Z.pow_succ_r by lia. lia.
  - exact Hleaves.
  - intros i Hi. rewrite Hh in Hi.
    destruct Hpad as [(e & He & Hpad) | [Hfullsize _]]; [|lia].
    exists e. split; [exact He|]. rewrite Hpad.
    rewrite <- (Z2Nat.id i) by (unfold len in Hi; lia).
    apply getitem_nth_error.
    rewrite nth_error_app2 by (unfold len in Hi; lia).
    apply nth_error_repeat. unfold len in *. lia.
Qed.

Lemma tree_levels_witness :
  exists h,
    height toy_tree = Some h /\ 0 <= h /\ size toy_tree = Some (2 ^ h)
    /\ len (tree toy_tree) = h + 1
    /\ getitem (tree toy_tree) 0 = Ok (leaf_hashes toy_tree)
    /\ getitem (tree toy_tree) h = Ok [root toy_tree]
    /\ (forall k nodes, 0 <= k <= h -> getitem (tree toy_tree) k = Ok nodes ->
          len nodes = 2 ^ (h - k))
    /\ (forall k nodes parents j,
          0 <= k < h -> getitem (tree toy_tree) k = Ok nodes ->
          getitem (tree toy_tree) (k + 1) = Ok parents -> 0 <= j < 2 ^ (h - k - 1) ->
          exists a c p,
            getitem nodes (2 * j) = Ok a /\ getitem nodes (2 * j + 1) = Ok c
            /\ Merkle.hash_nodes toy_engine a c = Ok p /\ getitem parents j = Ok p)
    /\ (forall i leaf, nth_error toy_leaves i = Some leaf ->
          exists d, Merkle.hash_leaf toy_engine leaf = Ok d
                    /\ getitem (leaf_hashes toy_tree) (Z.of_nat i) = Ok d)
    /\ (forall i, len toy_leaves <= i < 2 ^ h ->
          exists e, Merkle.hash_leaf toy_engine [] = Ok e
                    /\ getitem (leaf_hashes toy_tree) i = Ok e).
Proof.
  apply (tree_levels toy_engine toy_leaves toy_tree).
  - vm_compute. reflexivity.
  - vm_compute. reflexivity.
Defined.

Lemma path_shape : forall levels a p f,
  Merkle.path levels a = Ok (p, f) ->
  List.length p = List.length levels /\ List.length f = List.length levels
  /\ forall k nodes, nth_error levels k = Some nodes ->
       nth_error f k = Some ((a / 2 ^ Z.of_nat k) mod 2 =? 0)
       /\ exists s, nth_error p k = Some s
                    /\ getitem nodes (sibling_of (a / 2 ^ Z.of_nat k)) = Ok s.
Proof.
  induction levels as [|nodes0 levels IH]; intros a p f H.
  - cbn [Merkle.path] in H. apply Ok_inj in H. inversion H; subst.
    split; [reflexivity|]. split; [reflexivity|].
    intros k nodes Hk. destruct k; discriminate Hk.
  - cbn [Merkle.path] in H.
    assert (Hsib : exists s,
               getitem nodes0 (sibling_of a) = Ok s
               /\ exists p' f', Merkle.path levels (a / 2) = Ok (p', f')
                                /\ p = s :: p' /\ f = (a mod 2 =? 0) :: f').
    { unfold sibling_of. destruct (a mod 2 =? 0).
      - bind_inv H. bind_inv H. destruct a1 as [p' f']. apply Ok_inj in H.
        inversion H; subst. eauto 8.
      - bind_inv H. bind_inv H. destruct a1 as [p' f']. apply Ok_inj in H.
        inversion H; subst. eauto 8. }
    destruct Hsib as (s & Hs & p' & f' & Hpath & -> & ->).
    destruct (IH _ _ _ Hpath) as (Lp & Lf & Hall).
    split; [cbn [List.length]; lia|]. split; [cbn [List.length]; lia|].
    intros k nodes Hk. destruct k as [|k].
    + cbn [nth_error] in Hk. inversion Hk; subst nodes.
      change (2 ^ Z.of_nat 0) with 1. rewrite Z.div_1_r. cbn [nth_error]. eauto.
    + cbn [nth_error] in Hk |- *. destruct (Hall k nodes Hk) as (Hf & s' & Hp & Hg).
      replace (a / 2 ^ Z.of_nat (S k)) with (a / 2 / 2 ^ Z.of_nat k).
      * eauto.
      * rewrite Nat2Z.inj_succ, Z.pow_succ_r by lia.
        rewrite Z.div_div by lia. reflexivity.
Qed.

Lemma nth_error_removelast {A} (l : list A) k :
  (k < List.length (removelast l))%nat ->
  nth_error (removelast l) k = nth_error l k.
Proof.
  intros Hk. destruct l as [|x l]; [reflexivity|].
  assert (Hne : x :: l <> []) by discriminate.
  rewrite (app_removelast_last x Hne) at 2.
  now rewrite nth_error_app1.
Qed.

(** X23.  A proof that [get_proof] returns on a built tree has one
    entry and one flag for each level below the root, [height] of
    each: entry [k] is the sibling, on level [k], of the ancestor of
    the leaf there, and flag [k] tells that this ancestor is a left
    child, that is, that bit [k] of the index is 0. *)
Theorem proof_shape
  (engine : bytes -> result string) (leaves : list bytes) (t : MerkleTree)
  (index : Z) (p : list string) (f : list bool) :
  Merkle.init engine leaves = Ok t ->
  Merkle.get_proof t index = Ok (p, f) ->
  exists h,
    height t = Some h /\ 0 <= index < len leaves /\ len p = h /\ len f = h
    /\ forall k, 0 <= k < h ->
         getitem f k = Ok ((index / 2 ^ k) mod 2 =? 0)
         /\ exists nodes s,
              getitem (tree t) k = Ok nodes /\ getitem p k = Ok s
              /\ getitem nodes (sibling_of (index / 2 ^ k)) = Ok s.
Proof.
  intros Hinit Hproof.
  destruct (init_fields engine leaves t Hinit) as (Hcount & _).
  assert (Hidx : 0 <= index < len leaves).
  { unfold Merkle.get_proof in Hproof. rewrite Hcount in Hproof.
    destruct (Z.ltb_spec index 0); [discriminate Hproof|].
    destruct (Z.leb_spec (len leaves) index); [discriminate Hproof|]. lia. }
  destruct (init_structure engine leaves t Hinit ltac:(lia)) as
    (L0 & uppers & Htree & _ & Hheight & _).
  rewrite (get_proof_path t L0 uppers) in Hproof
    by (auto; rewrite Hcount; exact Hidx).
  destruct (path_shape _ _ _ _ Hproof) as (Lp & Lf & Hall).
  assert (Hlen : List.length (removelast (L0 :: uppers)) = List.length uppers).
  { assert (Hne : L0 :: uppers <> []) by discriminate.
    pose proof (app_removelast_last L0 Hne) as Hsplit.
    apply (f_equal (@List.length _)) in Hsplit.
    rewrite length_app in Hsplit. cbn [List.length] in Hsplit. lia. }
  exists (Z.of_nat (List.length uppers)).
  split; [exact Hheight|]. split; [exact Hidx|].
  split; [unfold len; lia|]. split; [unfold len; lia|].
  intros k Hk.
  destruct (nth_error (removelast (L0 :: uppers)) (Z.to_nat k)) as [nodes|] eqn:Hnodes.
  2:{ apply nth_error_None in Hnodes. lia. }
  destruct (Hall _ _ Hnodes) as (Hf & s & Hp & Hg).
  rewrite Z2Nat.id in Hf, Hg by lia.
  rewrite <- (Z2Nat.id k) at 1 by lia. split; [now apply getitem_nth_error|].
  exists nodes, s. rewrite Htree.
  rewrite nth_error_removelast in Hnodes by lia.
  split; [|split; [|exact Hg]].
  - rewrite <- (Z2Nat.id k) by lia. now apply getitem_nth_error.
  - rewrite <- (Z2Nat.id k) by lia. now apply getitem_nth_error.
Qed.

Lemma proof_shape_witness :
  exists h,
    height toy_tree = Some h /\ 0 <= 2 < len toy_leaves
    /\ len toy_proof = h /\ len [true; false] = h
    /\ forall k, 0 <= k < h ->
         getitem [true; false] k = Ok ((2 / 2 ^ k) mod 2 =? 0)
         /\ exists nodes s,
              getitem (tree toy_tree) k = Ok nodes /\ getitem toy_proof k = Ok s
              /\ getitem nodes (sibling_of (2 / 2 ^ k)) = Ok s.
Proof.
  apply (proof_shape toy_engine toy_leaves toy_tree 2 toy_proof [true; false]).
  - vm_compute. reflexivity.
  - vm_compute. reflexivity.
Defined.

(** ** Looking a leaf up *)

Lemma find_indexed (P : Z -> string -> bool) : forall l lo,
  match find (fun '(i, x) => P i x) (combine (range_from lo 1 (List.length l)) l) with
  | Some (i, x) =>
      lo <= i /\ nth_error l (Z.to_nat (i - lo)) = Some x /\ P i x = true
      /\ forall k y, (k < Z.to_nat (i - lo))%nat -> nth_error l k = Some y ->
           P (lo + Z.of_nat k) y = false
  | None => forall k y, nth_error l k = Some y -> P (lo + Z.of_nat k) y = false
  end.
Proof.
  induction l as [|x l IH]; intros lo.
  - cbn. intros k y Hk. destruct k; discriminate Hk.
  - cbn [List.length range_from combine find].
    destruct (P lo x) eqn:E.
    + split; [lia|]. rewrite Z.sub_diag. cbn [Z.to_nat nth_error].
      split; [reflexivity|]. split; [exact E|]. intros k y Hk. lia.
    + specialize (IH (lo + 1)).
      destruct (find _ (combine (range_from (lo + 1) 1 (List.length l)) l))
        as [[i y]|].
      * destruct IH as (Hi & Hn & HP & Hmin).
        split; [lia|].
        replace (Z.to_nat (i - lo)) with (S (Z.to_nat (i - (lo + 1)))) by lia.
        cbn [nth_error]. split; [exact Hn|]. split; [exact HP|].
        intros k z Hk Hz. destruct k as [|k].
        -- cbn [nth_error] in Hz. inversion Hz; subst z.
           now rewrite Z.add_0_r.
        -- cbn [nth_error] in Hz.
           replace (lo + Z.of_nat (S k)) with (lo + 1 + Z.of_nat k) by lia.
           apply (Hmin k z); [lia | exact Hz].
      * intros k z Hz. destruct k as [|k].
        -- cbn [nth_error] in Hz. inversion Hz; subst z. now rewrite Z.add_0_r.
        -- cbn [nth_error] in Hz.
           replace (lo + Z.of_nat (S k)) with (lo + 1 + Z.of_nat k) by lia.
           now apply IH.
Qed.

(** X24.  [leaf_data_to_index] finds the first leaf with the hash of
    the data: over any engine, for the data of leaf [i] of a built
    tree it returns an index [j <= i] of a leaf with the same hash,
    and no leaf before [j] has that hash.  A repeated leaf is thus
    always reported at its first position. *)
Theorem leaf_index_is_first_occurrence
  (engine : bytes -> result string) (leaves : list bytes) (t : MerkleTree)
  (i : nat) (leaf : bytes) :
  Merkle.init engine leaves = Ok t -> nth_error leaves i = Some leaf ->
  exists j leaf',
    Merkle.leaf_data_to_index engine t leaf = Ok (Z.of_nat j) /\ (j <= i)%nat
    /\ nth_error leaves j = Some leaf'
    /\ Merkle.hash_leaf engine leaf' = Merkle.hash_leaf engine leaf
    /\ forall j' leaf'', (j' < j)%nat -> nth_error leaves j' = Some leaf'' ->
         Merkle.hash_leaf engine leaf'' <> Merkle.hash_leaf engine leaf.
Proof.
  intros Hinit Hleaf.
  assert (Hi : (i < List.length leaves)%nat) by (apply nth_error_Some; congruence).
  assert (Hn : 0 < len leaves) by (unfold len; lia).
  destruct (init_structure engine leaves t Hinit Hn) as
    (L0 & uppers & Htree & _ & _ & _ & _ & Hcount & _ & Hleaves).
  destruct (init_leaf_level engine leaves t Hinit Hn) as (uppers' & lh & Htree' & _).
  assert (HL : L0 = leaf_hashes t) by congruence. subst L0.
  assert (Hhash : forall k x, nth_error leaves k = Some x ->
            exists d, Merkle.hash_leaf engine x = Ok d
                      /\ nth_error (leaf_hashes t) k = Some d).
  { intros k x Hx. destruct (Hleaves k x Hx) as (d & Hd & Hg).
    exists d. split; [exact Hd|].
    apply getitem_Ok_nth in Hg; [|lia]. now rewrite Nat2Z.id in Hg. }
  destruct (Hhash i leaf Hleaf) as (d & Hd & Hnd).
  unfold Merkle.leaf_data_to_index. rewrite Hd. cbn [bind]. rewrite Hcount.
  unfold range. rewrite Z.sub_0_r.
  change (len (leaf_hashes t)) with (Z.of_nat (List.length (leaf_hashes t))).
  rewrite Nat2Z.id.
  pose proof (find_indexed
                (fun i leaf_hash => String.eqb leaf_hash d && (i <? len leaves))
                (leaf_hashes t) 0) as Hfind.
  cbv beta in Hfind.
  destruct (find _ (combine (range_from 0 1 (List.length (leaf_hashes t)))
                      (leaf_hashes t))) as [[j x]|].
  - destruct Hfind as (Hj & Hx & HP & Hmin).
    rewrite Z.sub_0_r in Hx, Hmin.
    apply andb_true_iff in HP. destruct HP as [Hxd Hjn].
    apply String.eqb_eq in Hxd. subst x. apply Z.ltb_lt in Hjn.
    destruct (nth_error leaves (Z.to_nat j)) as [leaf'|] eqn:Hleaf'.
    2:{ apply nth_error_None in Hleaf'. unfold len in Hjn. lia. }
    destruct (Hhash _ _ Hleaf') as (d' & Hd' & Hnd').
    assert (d' = d) by congruence. subst d'.
    exists (Z.to_nat j), leaf'. rewrite Z2Nat.id by lia.
    split; [reflexivity|]. split.
    + destruct (Nat.le_gt_cases (Z.to_nat j) i) as [|Hlt]; [assumption|].
      specialize (Hmin i d Hlt Hnd). cbn [Z.add] in Hmin.
      rewrite String.eqb_refl in Hmin. cbn [andb] in Hmin.
      apply Z.ltb_ge in Hmin. unfold len in Hmin. lia.
    + split; [exact Hleaf'|]. split; [congruence|].
      intros j' leaf'' Hj' Hleaf''.
      destruct (Hhash _ _ Hleaf'') as (d'' & Hd'' & Hnd'').
      specialize (Hmin j' d'' Hj' Hnd''). cbn [Z.add] in Hmin.
      apply andb_false_iff in Hmin. destruct Hmin as [Hne|Hout].
      * apply String.eqb_neq in Hne. congruence.
      * apply Z.ltb_ge in Hout. unfold len in *. lia.
  - specialize (Hfind i d Hnd). cbn [Z.add] in Hfind.
    rewrite String.eqb_refl in Hfind. cbn [andb] in Hfind.
    apply Z.ltb_ge in Hfind. unfold len in Hfind. lia.
Qed.

Lemma leaf_index_is_first_occurrence_witness :
  exists j leaf',
    Merkle.leaf_data_to_index toy_engine
      (built (Merkle.init toy_engine [b "a"; b "b"; b "a"])) (b "a") = Ok (Z.of_nat j)
    /\ (j <= 2)%nat
    /\ nth_error [b "a"; b "b"; b "a"] j = Some leaf'
    /\ Merkle.hash_leaf toy_engine leaf' = Merkle.hash_leaf toy_engine (b "a")
    /\ forall j' leaf'', (j' < j)%nat ->
         nth_error [b "a"; b "b"; b "a"] j' = Some leaf'' ->
         Merkle.hash_leaf toy_engine leaf'' <> Merkle.hash_leaf toy_engine (b "a").
Proof.
  apply (leaf_index_is_first_occurrence toy_engine [b "a"; b "b"; b "a"]
           (built (Merkle.init toy_engine [b "a"; b "b"; b "a"])) 2 (b "a")).
  - vm_compute. reflexivity.
  - reflexivity.
Defined.

(** ** One level from the level below *)

Lemma pair_up_odd engine : forall l parents,
  Merkle.pair_up engine l = Ok parents ->
  len parents = (len l + 1) / 2
  /\ forall j, 0 <= j -> len l = 2 * j + 1 ->
       exists a p, getitem l (2 * j) = Ok a
                   /\ Merkle.hash_nodes engine a a = Ok p /\ getitem parents j = Ok p.
Proof.
  induction l as [|a|a c r IH] using list_pair_ind; intros parents H.
  - apply Ok_inj in H. subst parents. split; [reflexivity|].
    intros j Hj Hlen. unfold len in Hlen. cbn [List.length] in Hlen. lia.
  - cbn [Merkle.pair_up] in H. bind_inv H. apply Ok_inj in H. subst parents.
    split; [reflexivity|].
    intros j Hj Hlen. unfold len in Hlen. cbn [List.length] in Hlen.
    assert (j = 0) by lia. subst j. exists a, a0. repeat split; auto.
  - cbn [Merkle.pair_up] in H. bind_inv H. bind_inv H. apply Ok_inj in H. subst parents.
    destruct (IH a1 eq_refl) as [Hlen Hodd]. split.
    + unfold len in *. cbn [List.length].
      replace (Z.of_nat (S (S (List.length r))) + 1)
        with (Z.of_nat (List.length r) + 1 + 1 * 2) by lia.
      rewrite Z.div_add by lia. lia.
    + intros j Hj Hl.
      assert (Hr : len r = 2 * (j - 1) + 1)
        by (unfold len in *; cbn [List.length] in Hl; lia).
      assert (Hj1 : 0 <= j - 1) by (pose proof (len_nonneg r); lia).
      destruct (Hodd (j - 1) Hj1 Hr) as (x & p & Hx & Hp & Hq).
      exists x, p. split; [|split; [exact Hp|]].
      * rewrite getitem_cons, getitem_cons by lia.
        now replace (2 * j - 1 - 1) with (2 * (j - 1)) by lia.
      * now rewrite getitem_cons by lia.
Qed.

(** X25.  The inner loop of the constructor halves a level, rounding
    up: over any engine the next level has [(n + 1) // 2] nodes for
    [n] below, node [j] being the hash of nodes [2j] and [2j + 1]; a
    last node without partner is hashed with itself. *)
Theorem build_level_halves
  (engine : bytes -> result string) (level parents : list string) :
  Merkle.build_level engine level = Ok parents ->
  len parents = (len level + 1) / 2
  /\ (forall j, 0 <= j -> 2 * j + 1 < len level ->
        exists a c p,
          getitem level (2 * j) = Ok a /\ getitem level (2 * j + 1) = Ok c
          /\ Merkle.hash_nodes engine a c = Ok p /\ getitem parents j = Ok p)
  /\ (forall j, 0 <= j -> len level = 2 * j + 1 ->
        exists a p,
          getitem level (2 * j) = Ok a
          /\ Merkle.hash_nodes engine a a = Ok p /\ getitem parents j = Ok p).
Proof.
  rewrite build_level_pair_up. intros H.
  destruct (pair_up_odd engine level parents H) as [Hlen Hodd].
  destruct (pair_up_spec engine level parents H) as [_ Hpairs].
  auto.
Qed.

Lemma build_level_halves_witness :
  let level := [toy_root; RFC6962_EMPTY_ROOT; toy_root] in
  let parents := value_or [] (Merkle.build_level toy_engine level) in
  len parents = (len level + 1) / 2
  /\ (forall j, 0 <= j -> 2 * j + 1 < len level ->
        exists a c p,
          getitem level (2 * j) = Ok a /\ getitem level (2 * j + 1) = Ok c
          /\ Merkle.hash_nodes toy_engine a c = Ok p /\ getitem parents j = Ok p)
  /\ (forall j, 0 <= j -> len level = 2 * j + 1 ->
        exists a p,
          getitem level (2 * j) = Ok a
          /\ Merkle.hash_nodes toy_engine a a = Ok p /\ getitem parents j = Ok p).
Proof.
  intros level parents.
  apply (build_level_halves toy_engine level parents).
  vm_compute. reflexivity.
Defined.

(** ** The feed-forward *)

Lemma feed_forward_eight r v0 v1 v2 v3 v4 v5 v6 v7 :
  feed_forward r [v0; v1; v2; v3; v4; v5; v6; v7] =
  Ok [Z.land (Z.lxor (rA r) v0) mask32; Z.land (Z.lxor (rB r) v1) mask32;
      Z.land (Z.lxor (rC r) v2) mask32; Z.land (Z.lxor (rD r) v3) mask32;
      Z.land (Z.lxor (rE r) v4) mask32; Z.land (Z.lxor (rF r) v5) mask32;
      Z.land (Z.lxor (rG r) v6) mask32; Z.land (Z.lxor (rH r) v7) mask32].
Proof. destruct r. reflexivity. Qed.

(** X26.  The last step of [compression] and [_compression] xors the
    eight working variables into the state, word by word: on 32-bit
    words the masks change nothing, the new state is again eight
    32-bit words, and the step is its own inverse (feeding the same
    working variables into the new state gives the old state back). *)
Theorem feed_forward_involution (r : regs) (V : list Z) :
  regs_words r -> List.length V = 8%nat -> Forall word V ->
  exists V',
    feed_forward r V = Ok V'
    /\ V' = map (fun '(a, v) => Z.lxor a v) (combine (regs_list r) V)
    /\ List.length V' = 8%nat /\ Forall word V'
    /\ feed_forward r V' = Ok V.
Proof.
  intros Hr HL HV. destruct r as [A B C D E F G H].
  destruct Hr as (HA & HB & HC & HD & HE & HF & HG & HH).
  cbn [rA rB rC rD rE rF rG rH] in *.
  destruct V as [|v0 [|v1 [|v2 [|v3 [|v4 [|v5 [|v6 [|v7 [|v8 V]]]]]]]]];
    try discriminate HL.
  inversion HV as [|? ? H0 HV0]; subst. inversion HV0 as [|? ? H1 HV1]; subst.
  inversion HV1 as [|? ? H2 HV2]; subst. inversion HV2 as [|? ? H3 HV3]; subst.
  inversion HV3 as [|? ? H4 HV4]; subst. inversion HV4 as [|? ? H5 HV5]; subst.
  inversion HV5 as [|? ? H6 HV6]; subst. inversion HV6 as [|? ? H7 HV7]; subst.
  assert (X0 : word (Z.lxor A v0)) by (apply lxor_word; assumption).
  assert (X1 : word (Z.lxor B v1)) by (apply lxor_word; assumption).
  assert (X2 : word (Z.lxor C v2)) by (apply lxor_word; assumption).
  assert (X3 : word (Z.lxor D v3)) by (apply lxor_word; assumption).
  assert (X4 : word (Z.lxor E v4)) by (apply lxor_word; assumption).
  assert (X5 : word (Z.lxor F v5)) by (apply lxor_word; assumption).
  assert (X6 : word (Z.lxor G v6)) by (apply lxor_word; assumption).
  assert (X7 : word (Z.lxor H v7)) by (apply lxor_word; assumption).
  assert (Hinv : forall a v, Z.lxor a (Z.lxor a v) = v).
  { intros a v. now rewrite <- Z.lxor_assoc, Z.lxor_nilpotent, Z.lxor_0_l. }
  exists [Z.lxor A v0; Z.lxor B v1; Z.lxor C v2; Z.lxor D v3;
          Z.lxor E v4; Z.lxor F v5; Z.lxor G v6; Z.lxor H v7].
  split.
  - rewrite feed_forward_eight. cbn [rA rB rC rD rE rF rG rH].
    now rewrite (land_mask32_id _ X0), (land_mask32_id _ X1), (land_mask32_id _ X2),
      (land_mask32_id _ X3), (land_mask32_id _ X4), (land_mask32_id _ X5),
      (land_mask32_id _ X6), (land_mask32_id _ X7).
  - split; [reflexivity|]. split; [reflexivity|]. split.
    + repeat (apply Forall_cons; [assumption|]). apply Forall_nil.
    + rewrite feed_forward_eight. cbn [rA rB rC rD rE rF rG rH].
      rewrite !Hinv.
      now rewrite (land_mask32_id _ H0), (land_mask32_id _ H1), (land_mask32_id _ H2),
        (land_mask32_id _ H3), (land_mask32_id _ H4), (land_mask32_id _ H5),
        (land_mask32_id _ H6), (land_mask32_id _ H7).
Qed.

Lemma feed_forward_involution_witness :
  exists V',
    feed_forward (Regs 1 2 3 4 5 6 7 8) IV = Ok V'
    /\ V' = map (fun '(a, v) => Z.lxor a v) (combine (regs_list (Regs 1 2 3 4 5 6 7 8)) IV)
    /\ List.length V' = 8%nat /\ Forall word V'
    /\ feed_forward (Regs 1 2 3 4 5 6 7 8) V' = Ok IV.
Proof.
  apply (feed_forward_involution (Regs 1 2 3 4 5 6 7 8) IV).
  - unfold regs_words, word. cbn [rA rB rC rD rE rF rG rH]. lia.
  - reflexivity.
  - repeat constructor; unfold word; lia.
Defined.
